(** * JSINQ (jsinq-enumerable.js): enumerators, Hash, ordering, joins

    A shallow embedding of [src/source/jsinq-enumerable.js].

    Conventions of the embedding.
    - A JavaScript number used as a cursor or a count is a [Z], and so are
      the numbers that [sum], [max] and [min] compute with.
    - An enumerator object (the closure returned by [getEnumerator]) is a
      state machine: its captured [var]s form the state, and each method is a
      function on that state.  [moveNext] returns the new state and either
      the boolean it returned or the exception it raised; the state part is
      what the closure's variables hold at that moment.
    - Selectors, predicates and comparers handed to the lazy operators are
      total functions; the callbacks of the terminal operators ([first],
      [single], [last], [all], [any], [count], [aggregate] and what is built
      on it) may raise, and so may the predicate that [except] and
      [intersect] hand to [where].
    - Elements are values of a Rocq type [T]; the JavaScript value
      [undefined] is not an element (the constructor [Enumerable(value)]
      treats an array whose first element is [undefined] as a scalar).
    - [while] loops over another enumerator run on the bound [rest] carried
      by that enumerator; exceeding it is reported as [LoopBoundExceeded]. *)

From Stdlib Require Import List ZArith Lia Bool String DecimalString.
From Stdlib Require Import Permutation Sorted.
Import ListNotations.
Open Scope Z_scope.

Set Implicit Arguments.

(** ** Exceptions and results *)

Inductive exn : Type :=
| InvalidOperationException
| ArgumentOutOfRangeException (parameter : option string)
| HashKeyNotFound            (* [throw false] in [Hash.get] *)
| Raised (tag : Z)           (* any value raised by a caller's callback *)
| LoopBoundExceeded.         (* a loop ran past the bound [rest] *)

Inductive result (A : Type) : Type :=
| Ok (a : A)
| Throw (e : exn).
Arguments Ok {A} a.
Arguments Throw {A} e.

Definition bind {A B : Type} (r : result A) (k : A -> result B) : result B :=
  match r with
  | Ok a => k a
  | Throw e => Throw e
  end.

Notation "x <- r ;; k" := (bind r (fun x => k))
  (at level 61, r at next level, right associativity).

(** ** The enumerator protocol *)

Record Enumerator (T : Type) : Type := mkEnumerator {
  state : Type;
  moveNext : state -> state * result bool;
  current : state -> result T;
  reset : state -> state;
  (* bound on the number of further successful [moveNext] calls *)
  rest : state -> nat
}.

Record Enumerable (T : Type) : Type := mkEnumerable {
  enumerator :> Enumerator T;
  getEnumerator : state enumerator
}.

(** ** [new Enumerable(value)] for an array [value] (lines 107-158)

    The constructor wraps [value] into [[value]] when
    [typeof value.length == 'undefined'] or when [value] is not empty and
    [typeof value[0] == 'undefined'].  Neither holds for an array of
    elements of [T], so [value] is enumerated as it is. *)

Section SourceAdapter.
Context {T : Type}.
Variable value : list T.

Definition length_ : Z := Z.of_nat (List.length value).

Definition array_moveNext (index : Z) : Z * result bool :=
  let index := index + 1 in
  (index, Ok (index <? length_)).

Definition array_current (index : Z) : result T :=
  if (index <? 0) || (index >=? length_) then Throw InvalidOperationException
  else match nth_error value (Z.to_nat index) with
       | Some x => Ok x
       | None => Throw InvalidOperationException
       end.

Definition array_reset (index : Z) : Z := -1.

Definition array_rest (index : Z) : nat := Z.to_nat (length_ - 1 - index).

Definition ArrayEnumerator : Enumerator T :=
  {| state := Z;
     moveNext := array_moveNext;
     current := array_current;
     reset := array_reset;
     rest := array_rest |}.

Definition Enumerable_new : Enumerable T :=
  {| enumerator := ArrayEnumerator; getEnumerator := -1 |}.
End SourceAdapter.

(** [Enumerable.empty()] is [new Enumerable()], whose value is [[]]. *)
Definition Enumerable_empty {T : Type} : Enumerable T := Enumerable_new [].

(** ** [toArray] (lines 1550-1557) *)

Section ToArray.
Context {T : Type}.
Variable E : Enumerator T.

Fixpoint toArray_loop (fuel : nat) (s : state E) (array : list T)
  : state E * result (list T) :=
  match fuel with
  | O => (s, Throw LoopBoundExceeded)
  | S fuel =>
      match moveNext E s with
      | (s, Throw e) => (s, Throw e)
      | (s, Ok false) => (s, Ok array)
      | (s, Ok true) =>
          match current E s with
          | Throw e => (s, Throw e)
          | Ok x => toArray_loop fuel s (array ++ [x])
          end
      end
  end.

(** One full traversal from state [s]: the elements and the state left. *)
Definition traverse (s : state E) : state E * result (list T) :=
  toArray_loop (S (rest E s)) s [].
End ToArray.

Definition toArray {T : Type} (this : Enumerable T) : result (list T) :=
  snd (traverse this (getEnumerator this)).

(** ** [Enumerable.range] and [Enumerable.repeat] (lines 171-247) *)

Record counter : Type := mkCounter { index : Z; hasNext : bool }.

Section Range.
Variables start count : Z.

Definition counter_moveNext (s : counter) : counter * result bool :=
  if index s <? count - 1
  then ({| index := index s + 1; hasNext := true |}, Ok true)
  else ({| index := index s; hasNext := false |}, Ok false).

Definition counter_rest (s : counter) : nat :=
  Z.to_nat (count - 1 - index s).

Definition range_current (s : counter) : result Z :=
  if hasNext s then Ok (start + index s)
  else Throw InvalidOperationException.

(* [reset] of [range] assigns [index] only. *)
Definition range_reset (s : counter) : counter :=
  {| index := -1; hasNext := hasNext s |}.

Definition range_enumerable : Enumerable Z :=
  {| enumerator := {| state := counter;
                      moveNext := counter_moveNext;
                      current := range_current;
                      reset := range_reset;
                      rest := counter_rest |};
     getEnumerator := {| index := -1; hasNext := false |} |}.
End Range.

Definition range (start count : Z) : result (Enumerable Z) :=
  if count <? 0 then Throw (ArgumentOutOfRangeException None)
  else Ok (range_enumerable start count).

Section Repeat.
Context {T : Type}.
Variable element : T.
Variable count : Z.

Definition repeat_current (s : counter) : result T :=
  if hasNext s then Ok element
  else Throw InvalidOperationException.

Definition repeat_reset (s : counter) : counter :=
  {| index := -1; hasNext := false |}.

Definition repeat_enumerable : Enumerable T :=
  {| enumerator := {| state := counter;
                      moveNext := counter_moveNext count;
                      current := repeat_current;
                      reset := repeat_reset;
                      rest := counter_rest count |};
     getEnumerator := {| index := -1; hasNext := false |} |}.
End Repeat.

Definition repeat {T : Type} (element : T) (count : Z)
  : result (Enumerable T) :=
  if count <? 0 then Throw (ArgumentOutOfRangeException None)
  else Ok (repeat_enumerable element count).

(** ** [select] (lines 1233-1260) *)

Section Select.
Context {T U : Type}.
Variable this : Enumerable T.
Variable selector : T -> Z -> U.

Record select_state : Type := mkSelect {
  sel_itemEnumerator : state this;
  sel_index : Z
}.

Definition select_moveNext (s : select_state)
  : select_state * result bool :=
  let index := sel_index s + 1 in
  let (items, r) := moveNext this (sel_itemEnumerator s) in
  ({| sel_itemEnumerator := items; sel_index := index |}, r).

Definition select_current (s : select_state) : result U :=
  x <- current this (sel_itemEnumerator s) ;;
  Ok (selector x (sel_index s)).

Definition select_reset (s : select_state) : select_state :=
  {| sel_itemEnumerator := reset this (sel_itemEnumerator s);
     sel_index := -1 |}.

Definition select : Enumerable U :=
  {| enumerator := {| state := select_state;
                      moveNext := select_moveNext;
                      current := select_current;
                      reset := select_reset;
                      rest := fun s => rest this (sel_itemEnumerator s) |};
     getEnumerator := {| sel_itemEnumerator := getEnumerator this;
                         sel_index := -1 |} |}.
End Select.

(** ** [takeWhile] (lines 1510-1545) *)

Section TakeWhile.
Context {T : Type}.
Variable this : Enumerable T.
Variable predicate : T -> Z -> bool.

Record takeWhile_state : Type := mkTakeWhile {
  tw_enumerator : state this;
  tw_isOperational : bool;
  tw_index : Z
}.

Definition takeWhile_moveNext (s : takeWhile_state)
  : takeWhile_state * result bool :=
  if tw_isOperational s then
    match moveNext this (tw_enumerator s) with
    | (e, Throw x) =>
        ({| tw_enumerator := e; tw_isOperational := true;
            tw_index := tw_index s |}, Throw x)
    | (e, Ok false) =>
        ({| tw_enumerator := e; tw_isOperational := false;
            tw_index := tw_index s |}, Ok false)
    | (e, Ok true) =>
        match current this e with
        | Throw x =>
            ({| tw_enumerator := e; tw_isOperational := true;
                tw_index := tw_index s |}, Throw x)
        | Ok item =>
            let b := predicate item (tw_index s) in
            ({| tw_enumerator := e; tw_isOperational := b;
                tw_index := tw_index s + 1 |}, Ok b)
        end
    end
  else (s, Ok false).

Definition takeWhile_current (s : takeWhile_state) : result T :=
  if negb (tw_isOperational s) then Throw InvalidOperationException
  else current this (tw_enumerator s).

Definition takeWhile_reset (s : takeWhile_state) : takeWhile_state :=
  {| tw_enumerator := reset this (tw_enumerator s);
     tw_isOperational := true;
     tw_index := 0 |}.

Definition takeWhile : Enumerable T :=
  {| enumerator := {| state := takeWhile_state;
                      moveNext := takeWhile_moveNext;
                      current := takeWhile_current;
                      reset := takeWhile_reset;
                      rest := fun s => rest this (tw_enumerator s) |};
     getEnumerator := {| tw_enumerator := getEnumerator this;
                         tw_isOperational := true;
                         tw_index := 0 |} |}.
End TakeWhile.

(** ** The associative container [Hash] (lines 261-348) *)

(** What the JavaScript host answers about keys and stored values. *)
Record Host (K V : Type) : Type := mkHost {
  (* [typeof key] is ['string'], ['number'] or ['boolean'] *)
  is_primitive : K -> bool;
  (* the property name under which a primitive key is filed *)
  property_name : K -> string;
  (* [item.key == key], the built-in non-strict equality *)
  loose_eq : K -> K -> bool;
  (* [typeof value == 'undefined'] *)
  is_undefined : V -> bool;
  (* what [{}] answers for a name it does not own (Object.prototype) *)
  inherited : string -> option V
}.

Section Hash.
Context {K V : Type}.
Variable host : Host K V.

Record Hash : Type := mkHash {
  comparer : option (K -> K -> bool);     (* [None]: null or undefined *)
  primitiveItems : list (string * V);     (* own properties, in order *)
  complexItems : list (K * V)
}.

(** [new Hash(comparer)]: whatever the test on the argument decides, the
    next statement stores [arguments[0]], which is [undefined] when the
    constructor is called without argument. *)
Definition Hash_new (argument : option (K -> K -> bool)) : Hash :=
  {| comparer := argument; primitiveItems := []; complexItems := [] |}.

Fixpoint own_property (items : list (string * V)) (name : string)
  : option V :=
  match items with
  | [] => None
  | (n, v) :: items =>
      if String.eqb n name then Some v else own_property items name
  end.

(** [this.primitiveItems[key]] *)
Definition read_property (items : list (string * V)) (name : string)
  : option V :=
  match own_property items name with
  | Some v => Some v
  | None => inherited host name
  end.

(** [this.primitiveItems[key] = v] *)
Fixpoint write_property (items : list (string * V)) (name : string) (v : V)
  : list (string * V) :=
  match items with
  | [] => [(name, v)]
  | (n, w) :: items =>
      if String.eqb n name then (n, v) :: items
      else (n, w) :: write_property items name v
  end.

Definition key_matches (h : Hash) (itemKey key : K) : bool :=
  match comparer h with
  | Some equals => equals itemKey key
  | None => loose_eq host itemKey key
  end.

(** The [for] loop of the linear path: the index of the first item whose
    key matches, with its element. *)
Fixpoint find_item (h : Hash) (items : list (K * V)) (key : K) (i : nat)
  : option (nat * V) :=
  match items with
  | [] => None
  | (k, element) :: items =>
      if key_matches h k key then Some (i, element)
      else find_item h items key (S i)
  end.

Fixpoint set_element (items : list (K * V)) (i : nat) (v : V)
  : list (K * V) :=
  match items, i with
  | [], _ => []
  | (k, _) :: items, O => (k, v) :: items
  | item :: items, S i => item :: set_element items i v
  end.

(** [func] is called with the element found or with no argument; it
    answers an array [[r]] or [[r, replacement]], or raises. *)
Definition lookUp {R : Type} (h : Hash) (key : K)
    (func : option V -> result (R * option V)) : Hash * result R :=
  if match comparer h with None => true | Some _ => false end
     && is_primitive host key
  then
    let value := read_property (primitiveItems h) (property_name host key) in
    let funcResult :=
      match value with
      | Some v => if is_undefined host v then func None else func (Some v)
      | None => func None
      end in
    match funcResult with
    | Throw e => (h, Throw e)
    | Ok (r, None) => (h, Ok r)
    | Ok (r, Some v) =>
        ({| comparer := comparer h;
            primitiveItems :=
              write_property (primitiveItems h) (property_name host key) v;
            complexItems := complexItems h |}, Ok r)
    end
  else
    match find_item h (complexItems h) key O with
    | Some (i, element) =>
        match func (Some element) with
        | Throw e => (h, Throw e)
        | Ok (r, None) => (h, Ok r)
        | Ok (r, Some v) =>
            ({| comparer := comparer h;
                primitiveItems := primitiveItems h;
                complexItems := set_element (complexItems h) i v |}, Ok r)
        end
    | None =>
        match func None with
        | Throw e => (h, Throw e)
        | Ok (r, None) => (h, Ok r)
        | Ok (r, Some v) =>
            ({| comparer := comparer h;
                primitiveItems := primitiveItems h;
                complexItems := complexItems h ++ [(key, v)] |}, Ok r)
        end
    end.

Definition keyExists (h : Hash) (key : K) : Hash * result bool :=
  lookUp h key (fun value =>
    Ok (match value with Some _ => true | None => false end, None)).

Definition get (h : Hash) (key : K) : Hash * result V :=
  lookUp h key (fun value =>
    match value with
    | None => Throw HashKeyNotFound
    | Some v => Ok (v, None)
    end).

Definition put (h : Hash) (key : K) (newValue : V) (overwrite : bool)
  : Hash * result bool :=
  lookUp h key (fun value =>
    match value with
    | None => Ok (true, Some newValue)
    | Some _ => if overwrite then Ok (true, Some newValue)
                else Ok (false, None)
    end).

Definition Hash_toArray (h : Hash) : list ((string + K) * V) :=
  List.map (fun kv => (inl (fst kv), snd kv)) (primitiveItems h)
  ++ List.map (fun kv => (inr (fst kv), snd kv)) (complexItems h).

Definition Hash_empty (h : Hash) : Hash :=
  {| comparer := comparer h; primitiveItems := []; complexItems := [] |}.

(** [var array = hash.get(key); array.push(x)]: the array that [get]
    hands out is the one the container holds, so the element found by
    [get] is the one that grows.  [grow] is the effect of the [push] on
    that array. *)
Definition get_and_mutate (h : Hash) (key : K) (grow : V -> V)
  : Hash * result V :=
  lookUp h key (fun value =>
    match value with
    | None => Throw HashKeyNotFound
    | Some v => Ok (grow v, Some (grow v))
    end).
End Hash.

(** ** Comparers (lines 44-98) *)

(** [EqualityComparer.prototype.equals] on numbers: [a == b]. *)
Definition EqualityComparer_equals (a b : Z) : bool := a =? b.

(** [Comparer.prototype.compare] on numbers. *)
Definition Comparer_compare (a b : Z) : Z :=
  if a <? b then -1 else if a >? b then 1 else 0.

(** ** [Array.prototype.sort(comparefn)]

    The built-in sort of the host, as ECMAScript specifies it since ES2019:
    a stable sort.  It is written here as a straight insertion sort; an
    element moves behind another one only when [comparefn] puts it strictly
    after. *)

Section ArraySort.
Context {T : Type}.
Variable comparefn : T -> T -> Z.

Fixpoint sort_insert (x : T) (sorted : list T) : list T :=
  match sorted with
  | [] => [x]
  | y :: sorted' =>
      if comparefn x y <=? 0 then x :: sorted
      else y :: sort_insert x sorted'
  end.

Definition Array_sort (array : list T) : list T :=
  fold_right sort_insert [] array.
End ArraySort.

(** ** [orderBy], [orderByDescending], [thenBy], [thenByDescending]
       (lines 351-461) *)

Definition ASCENDING : Z := 1.
Definition DESCENDING : Z := -1.

(** One entry [[keySelector, direction, comparer]] of [selectors]. *)
Record selector_link (T : Type) : Type := mkLink {
  link_key : Type;
  link_keySelector : T -> link_key;
  link_direction : Z;
  link_comparer : link_key -> link_key -> Z
}.

Section OrderBy.
Context {T : Type}.

(** The body of the [for] loop, for the links still to visit. *)
Fixpoint compare_from (links : list (selector_link T)) (a b : T) : Z :=
  match links with
  | [] => 0
  | l :: links =>
      let keyA := link_keySelector l a in
      let keyB := link_keySelector l b in
      let compareResult := link_comparer l keyA keyB in
      if negb (compareResult =? 0) then compareResult * link_direction l
      else compare_from links a b
  end.

(** The function handed to [array.sort]: [i] runs from
    [selectors.length - 1] down to [0]. *)
Definition sort_comparator (selectors : list (selector_link T)) (a b : T)
  : Z :=
  compare_from (rev selectors) a b.

Variable _this : Enumerable T.
Variable selectors : list (selector_link T).

Record ordered_cursor : Type := mkOrdered {
  ord_array : list T;       (* the array behind [itemEnumerator] *)
  ord_index : Z             (* the cursor of [itemEnumerator] *)
}.

(** [itemEnumerator] is [null] until [lazyInitialize] has run. *)
Definition orderBy_state : Type := option ordered_cursor.

Definition orderBy_lazyInitialize : result ordered_cursor :=
  array <- toArray _this ;;
  Ok {| ord_array := Array_sort (sort_comparator selectors) array;
        ord_index := -1 |}.

Definition ordered_moveNext (c : ordered_cursor)
  : orderBy_state * result bool :=
  let (i, r) := array_moveNext (ord_array c) (ord_index c) in
  (Some {| ord_array := ord_array c; ord_index := i |}, r).

Definition orderBy_moveNext (s : orderBy_state)
  : orderBy_state * result bool :=
  match s with
  | None =>
      match orderBy_lazyInitialize with
      | Throw e => (None, Throw e)
      | Ok c => ordered_moveNext c
      end
  | Some c => ordered_moveNext c
  end.

Definition orderBy_current (s : orderBy_state) : result T :=
  match s with
  | None => Throw InvalidOperationException
  | Some c => array_current (ord_array c) (ord_index c)
  end.

Definition orderBy_reset (s : orderBy_state) : orderBy_state :=
  match s with
  | None => None
  | Some c => Some {| ord_array := ord_array c;
                      ord_index := array_reset (ord_index c) |}
  end.

Definition orderBy_rest (s : orderBy_state) : nat :=
  match s with
  | None => match toArray _this with
            | Ok array => List.length array
            | Throw _ => O
            end
  | Some c => array_rest (ord_array c) (ord_index c)
  end.

Definition orderBy_enumerable : Enumerable T :=
  {| enumerator := {| state := orderBy_state;
                      moveNext := orderBy_moveNext;
                      current := orderBy_current;
                      reset := orderBy_reset;
                      rest := orderBy_rest |};
     getEnumerator := None |}.
End OrderBy.

(** The object returned by the [orderBy] family: an enumerable that also
    remembers [_this] and [selectors] for [thenBy]/[thenByDescending]. *)
Record OrderedEnumerable (T : Type) : Type := mkOrderedEnumerable {
  ordered :> Enumerable T;
  ordered_this : Enumerable T;
  ordered_selectors : list (selector_link T)
}.

(** The function returned by [orderBy(direction)], with [comparer] and
    [parentSelectors] resolved from the arguments. *)
Definition orderBy_with {T K : Type} (direction : Z) (this : Enumerable T)
    (keySelector : T -> K) (comparer : K -> K -> Z)
    (parentSelectors : list (selector_link T)) : OrderedEnumerable T :=
  let selectors :=
    [mkLink keySelector direction comparer] ++ parentSelectors in
  {| ordered := orderBy_enumerable this selectors;
     ordered_this := this;
     ordered_selectors := selectors |}.

(** [orderBy(keySelector)] and [orderByDescending(keySelector)] with the
    default comparer, on number keys. *)
Definition orderBy {T : Type} (this : Enumerable T) (keySelector : T -> Z)
  : OrderedEnumerable T :=
  orderBy_with ASCENDING this keySelector Comparer_compare [].

Definition orderByDescending {T : Type} (this : Enumerable T)
    (keySelector : T -> Z) : OrderedEnumerable T :=
  orderBy_with DESCENDING this keySelector Comparer_compare [].

Definition thenBy {T : Type} (o : OrderedEnumerable T) (keySelector : T -> Z)
  : OrderedEnumerable T :=
  orderBy_with ASCENDING (ordered_this o) keySelector Comparer_compare
    (ordered_selectors o).

Definition thenByDescending {T : Type} (o : OrderedEnumerable T)
    (keySelector : T -> Z) : OrderedEnumerable T :=
  orderBy_with DESCENDING (ordered_this o) keySelector Comparer_compare
    (ordered_selectors o).

(** ** [join] and [groupJoin] (lines 465-559)

    [join(group)] builds both operators.  The enumerator's variables are
    the same in both; [secondElement] is an inner element for [join] and an
    enumerable of inner elements for [groupJoin], hence the parameter
    [S2]; the enumerable [new Enumerable(array)] is kept as its array and
    wrapped when [current] hands it to [resultSelector]. *)

Section Join.
Context {T1 T2 K R : Type}.
Variable host : Host K (list T2).
Variable _this : Enumerable T1.
Variable second : Enumerable T2.
Variable outerKeySelector : T1 -> K.
Variable innerKeySelector : T2 -> K.
Variable comparer : K -> K -> bool.       (* [comparer.equals] *)

Record join_state (S2 : Type) : Type := mkJoin {
  j_hash : option (Hash (K:=K) (V:=list T2));
  j_enumerator : state _this;
  j_hasNext : bool;
  j_firstElement : option T1;
  j_secondElement : option S2;
  j_secondList : option (list T2);
  j_index : Z
}.

Definition join_init (S2 : Type) : join_state S2 :=
  {| j_hash := None; j_enumerator := getEnumerator _this;
     j_hasNext := false; j_firstElement := None; j_secondElement := None;
     j_secondList := None; j_index := -1 |}.

Definition set_hash {S2} (s : join_state S2) h : join_state S2 :=
  mkJoin h (j_enumerator s) (j_hasNext s) (j_firstElement s)
    (j_secondElement s) (j_secondList s) (j_index s).

Definition set_enumerator {S2} (s : join_state S2) e : join_state S2 :=
  mkJoin (j_hash s) e (j_hasNext s) (j_firstElement s)
    (j_secondElement s) (j_secondList s) (j_index s).

Definition set_hasNext {S2} (s : join_state S2) b : join_state S2 :=
  mkJoin (j_hash s) (j_enumerator s) b (j_firstElement s)
    (j_secondElement s) (j_secondList s) (j_index s).

Definition set_firstElement {S2} (s : join_state S2) x : join_state S2 :=
  mkJoin (j_hash s) (j_enumerator s) (j_hasNext s) x
    (j_secondElement s) (j_secondList s) (j_index s).

Definition set_secondElement {S2} (s : join_state S2) x : join_state S2 :=
  mkJoin (j_hash s) (j_enumerator s) (j_hasNext s) (j_firstElement s)
    x (j_secondList s) (j_index s).

Definition set_secondList {S2} (s : join_state S2) l : join_state S2 :=
  mkJoin (j_hash s) (j_enumerator s) (j_hasNext s) (j_firstElement s)
    (j_secondElement s) l (j_index s).

Definition set_index {S2} (s : join_state S2) i : join_state S2 :=
  mkJoin (j_hash s) (j_enumerator s) (j_hasNext s) (j_firstElement s)
    (j_secondElement s) (j_secondList s) i.

(** The [while] loop of [lazyInitialize]: the hash as it stands when the
    loop ends, normally or by an exception. *)
Fixpoint fill_hash (fuel : nat) (se : state second)
    (hash : Hash (K:=K) (V:=list T2))
  : Hash (K:=K) (V:=list T2) * result unit :=
  match fuel with
  | O => (hash, Throw LoopBoundExceeded)
  | S fuel =>
      match moveNext second se with
      | (_, Throw e) => (hash, Throw e)
      | (_, Ok false) => (hash, Ok tt)
      | (se, Ok true) =>
          match current second se with
          | Throw e => (hash, Throw e)
          | Ok current =>
              let key := innerKeySelector current in
              match put host hash key [current] false with
              | (hash, Throw e) => (hash, Throw e)
              | (hash, Ok true) => fill_hash fuel se hash
              | (hash, Ok false) =>
                  match get_and_mutate host hash key
                          (fun array => array ++ [current]) with
                  | (hash, Throw e) => (hash, Throw e)
                  | (hash, Ok _) => fill_hash fuel se hash
                  end
              end
          end
      end
  end.

Definition join_lazyInitialize
  : Hash (K:=K) (V:=list T2) * result unit :=
  let hash := Hash_new (Some comparer) in
  let secondEnumerator := getEnumerator second in
  fill_hash (S (rest second secondEnumerator)) secondEnumerator hash.

(** [secondList[index]] *)
Definition at_index (l : list T2) (i : Z) : option T2 :=
  if i <? 0 then None else nth_error l (Z.to_nat i).

(** The [while] loop of the branch [!group]. *)
Fixpoint join_scan (fuel : nat) (s : join_state T2)
    (hash : Hash (K:=K) (V:=list T2)) : join_state T2 * result bool :=
  match fuel with
  | O => (s, Throw LoopBoundExceeded)
  | S fuel =>
      match moveNext _this (j_enumerator s) with
      | (e, Throw x) => (set_enumerator s e, Throw x)
      | (e, Ok false) => (set_enumerator s e, Ok (j_hasNext s))
      | (e, Ok true) =>
          let s := set_enumerator s e in
          match current _this e with
          | Throw x => (s, Throw x)
          | Ok current =>
              let key := outerKeySelector current in
              match keyExists host hash key with
              | (hash, Throw x) => (set_hash s (Some hash), Throw x)
              | (hash, Ok false) => join_scan fuel s hash
              | (hash, Ok true) =>
                  match get host hash key with
                  | (hash, Throw x) => (set_hash s (Some hash), Throw x)
                  | (hash, Ok secondList) =>
                      let s := set_hash s (Some hash) in
                      let s := set_secondList s (Some secondList) in
                      let s := set_secondElement s (at_index secondList 0) in
                      let s := set_index s 0 in
                      let s := set_hasNext s true in
                      let s := set_firstElement s (Some current) in
                      (s, Ok (j_hasNext s))
                  end
              end
          end
      end
  end.

Definition join_step (s : join_state T2)
    (hash : Hash (K:=K) (V:=list T2)) : join_state T2 * result bool :=
  let advance :=
    match j_secondList s with
    | None => None
    | Some secondList =>
        let index := j_index s + 1 in
        Some (index, secondList, index <? Z.of_nat (List.length secondList))
    end in
  match advance with
  | Some (index, secondList, true) =>
      let s := set_index s index in
      let s := set_secondElement s (at_index secondList index) in
      let s := set_hasNext s true in
      (s, Ok (j_hasNext s))
  | Some (index, _, false) =>
      let s := set_hasNext (set_index s index) false in
      join_scan (S (rest _this (j_enumerator s))) s hash
  | None =>
      let s := set_hasNext s false in
      join_scan (S (rest _this (j_enumerator s))) s hash
  end.

(** [if (hash == null) lazyInitialize();] then the rest of [moveNext]. *)
Definition with_hash {S2 : Type}
    (step : join_state S2 -> Hash (K:=K) (V:=list T2)
            -> join_state S2 * result bool)
    (s : join_state S2) : join_state S2 * result bool :=
  match j_hash s with
  | Some hash => step s hash
  | None =>
      match join_lazyInitialize with
      | (hash, Throw e) => (set_hash s (Some hash), Throw e)
      | (hash, Ok _) => step (set_hash s (Some hash)) hash
      end
  end.

Definition join_moveNext : join_state T2 -> join_state T2 * result bool :=
  with_hash join_step.

(** The branch [group]. *)
Definition groupJoin_step (s : join_state (list T2))
    (hash : Hash (K:=K) (V:=list T2))
  : join_state (list T2) * result bool :=
  match moveNext _this (j_enumerator s) with
  | (e, Throw x) => (set_enumerator s e, Throw x)
  | (e, Ok false) => (set_hasNext (set_enumerator s e) false, Ok false)
  | (e, Ok true) =>
      let s := set_hasNext (set_enumerator s e) true in
      match current _this e with
      | Throw x => (s, Throw x)
      | Ok current =>
          let key := outerKeySelector current in
          let s := set_firstElement s (Some current) in
          match keyExists host hash key with
          | (hash, Throw x) => (set_hash s (Some hash), Throw x)
          | (hash, Ok true) =>
              match get host hash key with
              | (hash, Throw x) => (set_hash s (Some hash), Throw x)
              | (hash, Ok array) =>
                  let s := set_hash s (Some hash) in
                  (* [new Enumerable(hash.get(key))] *)
                  let s := set_secondElement s (Some array) in
                  (s, Ok (j_hasNext s))
              end
          | (hash, Ok false) =>
              let s := set_hash s (Some hash) in
              (* [Enumerable.empty()] *)
              let s := set_secondElement s (Some []) in
              (s, Ok (j_hasNext s))
          end
      end
  end.

Definition groupJoin_moveNext
  : join_state (list T2) -> join_state (list T2) * result bool :=
  with_hash groupJoin_step.
(** [current] and [reset] are shared by both operators. *)
Definition join_current {S2 : Type} (resultSelector : T1 -> S2 -> R)
    (s : join_state S2) : result R :=
  if negb (j_hasNext s) then Throw InvalidOperationException
  else match j_firstElement s, j_secondElement s with
       | Some firstElement, Some secondElement =>
           Ok (resultSelector firstElement secondElement)
       | _, _ =>
           (* [resultSelector] applied to [undefined]: only after an
              exception has left [moveNext] half-way *)
           Throw InvalidOperationException
       end.

Definition join_reset {S2 : Type} (s : join_state S2) : join_state S2 :=
  set_enumerator s (reset _this (j_enumerator s)).

(** Number of inner elements held by the hash. *)
Definition hash_size (h : Hash (K:=K) (V:=list T2)) : nat :=
  List.length (List.concat (List.map snd (complexItems h)))
  + List.length (List.concat (List.map snd (primitiveItems h))).

(** Elements of [secondList] behind [index]. *)
Definition join_pending (s : join_state T2) : nat :=
  match j_secondList s with
  | Some secondList =>
      Z.to_nat (Z.of_nat (List.length secondList) - 1 - j_index s)
  | None => O
  end.

Definition join_rest (s : join_state T2) : nat :=
  let inner :=
    match j_hash s with
    | Some h => hash_size h
    | None => hash_size (fst join_lazyInitialize)
    end in
  (rest _this (j_enumerator s) * S inner + join_pending s)%nat.

Definition join_enumerable (resultSelector : T1 -> T2 -> R)
  : Enumerable R :=
  {| enumerator := {| state := join_state T2;
                      moveNext := join_moveNext;
                      current := join_current resultSelector;
                      reset := @join_reset T2;
                      rest := join_rest |};
     getEnumerator := join_init T2 |}.

Definition groupJoin_enumerable
    (resultSelector : T1 -> Enumerable T2 -> R) : Enumerable R :=
  {| enumerator := {| state := join_state (list T2);
                      moveNext := groupJoin_moveNext;
                      current :=
                        join_current (fun firstElement array =>
                          resultSelector firstElement
                            (Enumerable_new array));
                      reset := @join_reset (list T2);
                      rest := fun s => rest _this (j_enumerator s) |};
     getEnumerator := join_init (list T2) |}.
End Join.

(** [join(inner, outerKeySelector, innerKeySelector, resultSelector,
    comparer)] is [join(false)], [groupJoin(...)] is [join(true)]; without
    a fifth argument [comparer] is [EqualityComparer.getDefault()]. *)
Definition join {T1 T2 K R : Type} (host : Host K (list T2))
    (this : Enumerable T1) (inner : Enumerable T2)
    (outerKeySelector : T1 -> K) (innerKeySelector : T2 -> K)
    (resultSelector : T1 -> T2 -> R) (comparer : option (K -> K -> bool))
  : Enumerable R :=
  join_enumerable host this inner outerKeySelector innerKeySelector
    (match comparer with Some c => c | None => loose_eq host end)
    resultSelector.

Definition groupJoin {T1 T2 K R : Type} (host : Host K (list T2))
    (this : Enumerable T1) (inner : Enumerable T2)
    (outerKeySelector : T1 -> K) (innerKeySelector : T2 -> K)
    (resultSelector : T1 -> Enumerable T2 -> R)
    (comparer : option (K -> K -> bool)) : Enumerable R :=
  groupJoin_enumerable host this inner outerKeySelector innerKeySelector
    (match comparer with Some c => c | None => loose_eq host end)
    resultSelector.

(** Number keys, and arrays as stored values (never [undefined]). *)
Definition number_host (V : Type) : Host Z V :=
  {| is_primitive := fun _ => true;
     property_name := fun n => NilZero.string_of_int (Z.to_int n);
     loose_eq := EqualityComparer_equals;
     is_undefined := fun _ => false;
     inherited := fun _ => None |}.


(** ** Terminal operators: [any], [elementAt], [first], [last], [single]
       and their [OrDefault] variants

    A callback given by the caller is a function that may raise.  The
    closures the library itself hands to [any] assign captured variables;
    those variables are the accumulator [A] threaded through [any]. *)

Section Terminal.
Context {T : Type}.
Variable this : Enumerable T.

(** The [while] loop of [any(predicate)] (lines 621-633). *)
Fixpoint any_loop {A : Type} (fuel : nat) (e : state this)
    (predicate : A -> T -> A * result bool) (a : A) : A * result bool :=
  match fuel with
  | O => (a, Throw LoopBoundExceeded)
  | S fuel =>
      match moveNext this e with
      | (_, Throw x) => (a, Throw x)
      | (_, Ok false) => (a, Ok false)
      | (e, Ok true) =>
          match current this e with
          | Throw x => (a, Throw x)
          | Ok item =>
              match predicate a item with
              | (a, Throw x) => (a, Throw x)
              | (a, Ok true) => (a, Ok true)
              | (a, Ok false) => any_loop fuel e predicate a
              end
          end
      end
  end.

Definition any {A : Type} (predicate : A -> T -> A * result bool) (a : A)
  : A * result bool :=
  let enumerator := getEnumerator this in
  any_loop (S (rest this enumerator)) enumerator predicate a.

(** [elementAt(index)] (lines 796-806); the accumulator is
    [(element, index)]. *)
Definition elementAt (index : Z) : result T :=
  match any (fun (a : option T * Z) item =>
               ((Some item, snd a - 1), Ok (snd a =? 0)))
            (None, index) with
  | (_, Throw x) => Throw x
  | (_, Ok false) => Throw (ArgumentOutOfRangeException (Some "index"%string))
  | ((Some element, _), Ok true) => Ok element
  | ((None, _), Ok true) => Throw InvalidOperationException (* no such run *)
  end.

(** [try { ... } catch (e) { return defaultValue; }] *)
Definition try_or_default (body : result T) (defaultValue : T) : result T :=
  match body with
  | Ok v => Ok v
  | Throw _ => Ok defaultValue
  end.

Definition elementAtOrDefault (index : Z) (defaultValue : T) : result T :=
  try_or_default (elementAt index) defaultValue.

(** [first()] and [first(predicate)] (lines 855-876). *)
Definition first (predicate : option (T -> result bool)) : result T :=
  match predicate with
  | None =>
      match elementAt 0 with
      | Ok v => Ok v
      | Throw _ => Throw InvalidOperationException
      end
  | Some predicate =>
      match any (fun (element : option T) item =>
                   match predicate item with
                   | Throw x => (element, Throw x)
                   | Ok true => (Some item, Ok true)
                   | Ok false => (element, Ok false)
                   end) None with
      | (_, Throw x) => Throw x
      | (_, Ok false) => Throw InvalidOperationException
      | (Some element, Ok true) => Ok element
      | (None, Ok true) => Throw InvalidOperationException (* no such run *)
      end
  end.

Definition firstOrDefault (predicate : option (T -> result bool))
    (defaultValue : T) : result T :=
  try_or_default (first predicate) defaultValue.

(** [last()] and [last(predicate)] (lines 1081-1098); the accumulator is
    [last], with [isEmpty] being "[last] was never assigned". *)
Definition last (predicate : option (T -> result bool)) : result T :=
  match any (fun (last : option T) item =>
               match predicate with
               | None => (Some item, Ok false)
               | Some predicate =>
                   match predicate item with
                   | Throw x => (last, Throw x)
                   | Ok true => (Some item, Ok false)
                   | Ok false => (last, Ok false)
                   end
               end) None with
  | (_, Throw x) => Throw x
  | (None, Ok _) => Throw InvalidOperationException
  | (Some last, Ok _) => Ok last
  end.

Definition lastOrDefault (predicate : option (T -> result bool))
    (defaultValue : T) : result T :=
  try_or_default (last predicate) defaultValue.

(** [single()] and [single(predicate)] (lines 1375-1387). *)
Definition single (predicate : option (T -> result bool)) : result T :=
  let enumerator := getEnumerator this in
  match moveNext this enumerator with
  | (_, Throw x) => Throw x
  | (_, Ok false) => Throw InvalidOperationException
  | (enumerator, Ok true) =>
      current <- current this enumerator ;;
      match moveNext this enumerator with
      | (_, Throw x) => Throw x
      | (_, Ok true) => Throw InvalidOperationException
      | (_, Ok false) =>
          match predicate with
          | None => Ok current
          | Some predicate =>
              holds <- predicate current ;;
              if negb holds then Throw InvalidOperationException
              else Ok current
          end
      end
  end.

Definition singleOrDefault (predicate : option (T -> result bool))
    (defaultValue : T) : result T :=
  try_or_default (single predicate) defaultValue.
End Terminal.

(** ** [sequenceEqual] (lines 1344-1362)

    [same] is the outcome of the reference test [this == second]. *)

Section SequenceEqual.
Context {T : Type}.
Variable this second : Enumerable T.
Variable equals : T -> T -> bool.          (* [comparer.equals] *)

Fixpoint sequenceEqual_loop (fuel : nat) (first : state this)
    (secondEnumerator : state second) : result bool :=
  match fuel with
  | O => Throw LoopBoundExceeded
  | S fuel =>
      match moveNext this first with
      | (_, Throw x) => Throw x
      | (_, Ok false) => Ok true
      | (first, Ok true) =>
          match moveNext second secondEnumerator with
          | (_, Throw x) => Throw x
          | (_, Ok false) => Ok true
          | (secondEnumerator, Ok true) =>
              a <- current this first ;;
              b <- current second secondEnumerator ;;
              if negb (equals a b) then Ok false
              else sequenceEqual_loop fuel first secondEnumerator
          end
      end
  end.

Definition sequenceEqual (same : bool) : result bool :=
  if same then Ok true
  else sequenceEqual_loop (S (rest this (getEnumerator this)))
         (getEnumerator this) (getEnumerator second).
End SequenceEqual.

(** ** [where] (lines 1578-1614) *)

Section Where.
Context {T : Type}.
Variable this : Enumerable T.
Variable predicate : T -> bool.

Record where_state : Type := mkWhere {
  w_itemEnumerator : state this;
  w_current : option T;        (* [None]: never assigned *)
  w_hasCurrent : bool
}.

Fixpoint where_loop (fuel : nat) (s : where_state)
  : where_state * result bool :=
  match fuel with
  | O => (s, Throw LoopBoundExceeded)
  | S fuel =>
      match moveNext this (w_itemEnumerator s) with
      | (e, Throw x) => (mkWhere e (w_current s) (w_hasCurrent s), Throw x)
      | (e, Ok false) =>
          (mkWhere e (w_current s) (w_hasCurrent s), Ok (w_hasCurrent s))
      | (e, Ok true) =>
          match current this e with
          | Throw x => (mkWhere e (w_current s) (w_hasCurrent s), Throw x)
          | Ok current =>
              if predicate current then (mkWhere e (Some current) true, Ok true)
              else where_loop fuel (mkWhere e (Some current) (w_hasCurrent s))
          end
      end
  end.

Definition where_moveNext (s : where_state) : where_state * result bool :=
  where_loop (S (rest this (w_itemEnumerator s)))
    (mkWhere (w_itemEnumerator s) (w_current s) false).

Definition where_current (s : where_state) : result T :=
  if negb (w_hasCurrent s) then Throw InvalidOperationException
  else match w_current s with
       | Some current => Ok current
       | None => Throw InvalidOperationException (* no such state *)
       end.

Definition where_reset (s : where_state) : where_state :=
  mkWhere (reset this (w_itemEnumerator s)) (w_current s) false.

Definition where_ : Enumerable T :=
  {| enumerator := {| state := where_state;
                      moveNext := where_moveNext;
                      current := where_current;
                      reset := where_reset;
                      rest := fun s => rest this (w_itemEnumerator s) |};
     getEnumerator := mkWhere (getEnumerator this) None false |}.
End Where.

(** ** [concat] (lines 659-694)

    The variable [enumerator] refers to one of the two enumerators; it is
    kept as the flag [c_onSecond]. *)

Section Concat.
Context {T : Type}.
Variable this second : Enumerable T.

Record concat_state : Type := mkConcat {
  c_firstEnumerator : state this;
  c_secondEnumerator : state second;
  c_onSecond : bool;
  c_canSwap : bool
}.

Definition concat_second (s : concat_state) : concat_state * result bool :=
  let (e, r) := moveNext second (c_secondEnumerator s) in
  (mkConcat (c_firstEnumerator s) e true (c_canSwap s), r).

Definition concat_moveNext (s : concat_state) : concat_state * result bool :=
  if c_onSecond s then
    match concat_second s with
    | (s, Ok false) =>
        if c_canSwap s then concat_second s else (s, Ok false)
    | (s, r) => (s, r)
    end
  else
    match moveNext this (c_firstEnumerator s) with
    | (e, Ok false) =>
        let s := mkConcat e (c_secondEnumerator s) false (c_canSwap s) in
        if c_canSwap s then concat_second s else (s, Ok false)
    | (e, r) =>
        (mkConcat e (c_secondEnumerator s) false (c_canSwap s), r)
    end.

Definition concat_current (s : concat_state) : result T :=
  if c_onSecond s then current second (c_secondEnumerator s)
  else current this (c_firstEnumerator s).

Definition concat_reset (s : concat_state) : concat_state :=
  mkConcat (reset this (c_firstEnumerator s))
           (reset second (c_secondEnumerator s)) false true.

Definition concat_rest (s : concat_state) : nat :=
  (if c_onSecond s then O else rest this (c_firstEnumerator s))
  + rest second (c_secondEnumerator s).

Definition concat : Enumerable T :=
  {| enumerator := {| state := concat_state;
                      moveNext := concat_moveNext;
                      current := concat_current;
                      reset := concat_reset;
                      rest := concat_rest |};
     getEnumerator :=
       mkConcat (getEnumerator this) (getEnumerator second) false true |}.
End Concat.

(** ** [skipWhile] (lines 1436-1473) *)

Section SkipWhile.
Context {T : Type}.
Variable this : Enumerable T.
Variable predicate : T -> Z -> bool.

Record skipWhile_state : Type := mkSkipWhile {
  sw_enumerator : state this;
  sw_isInitialized : bool;
  sw_index : Z
}.

(** The empty-bodied [while] of the first [moveNext]: the enumerator and
    [index] when it stops, and [canMoveNext]. *)
Fixpoint skip_loop (fuel : nat) (e : state this) (index : Z)
  : state this * Z * result bool :=
  match fuel with
  | O => (e, index, Throw LoopBoundExceeded)
  | S fuel =>
      match moveNext this e with
      | (e, Throw x) => (e, index, Throw x)
      | (e, Ok false) => (e, index, Ok false)
      | (e, Ok true) =>
          match current this e with
          | Throw x => (e, index, Throw x)
          | Ok item =>
              if predicate item index then skip_loop fuel e (index + 1)
              else (e, index + 1, Ok true)
          end
      end
  end.

Definition skipWhile_moveNext (s : skipWhile_state)
  : skipWhile_state * result bool :=
  if negb (sw_isInitialized s) then
    match skip_loop (S (rest this (sw_enumerator s)))
            (sw_enumerator s) (sw_index s) with
    | (e, index, Throw x) => (mkSkipWhile e false index, Throw x)
    | (e, index, Ok canMoveNext) =>
        (mkSkipWhile e true index, Ok canMoveNext)
    end
  else
    let (e, r) := moveNext this (sw_enumerator s) in
    (mkSkipWhile e true (sw_index s), r).

Definition skipWhile_current (s : skipWhile_state) : result T :=
  current this (sw_enumerator s).

Definition skipWhile_reset (s : skipWhile_state) : skipWhile_state :=
  mkSkipWhile (reset this (sw_enumerator s)) false 0.

Definition skipWhile : Enumerable T :=
  {| enumerator := {| state := skipWhile_state;
                      moveNext := skipWhile_moveNext;
                      current := skipWhile_current;
                      reset := skipWhile_reset;
                      rest := fun s => rest this (sw_enumerator s) |};
     getEnumerator := mkSkipWhile (getEnumerator this) false 0 |}.
End SkipWhile.

(** ** [selectMany] (lines 1273-1333)

    [collectionSelector] answers an enumerable made from an array,
    [new Enumerable(array)]; [subItemEnumerator] is kept as that array and
    its cursor.  Without a result selector the caller passes
    [fun _ x => x]. *)

Section SelectMany.
Context {T U R : Type}.
Variable this : Enumerable T.
Variable collectionSelector : T -> Z -> list U.
Variable resultSelector : T -> U -> R.

Record selectMany_state : Type := mkSelectMany {
  sm_itemEnumerator : state this;
  sm_item : option T;                               (* [null] at first *)
  sm_subItemEnumerator : option (ordered_cursor (T:=U));
  sm_hasCurrent : bool;
  sm_index : Z
}.

(** [subItemEnumerator.moveNext()] *)
Definition sub_moveNext (c : ordered_cursor (T:=U))
  : ordered_cursor (T:=U) * bool :=
  let i := ord_index c + 1 in
  ({| ord_array := ord_array c; ord_index := i |},
   i <? Z.of_nat (List.length (ord_array c))).

(** The [while (true)] loop of [moveNext]. *)
Fixpoint selectMany_loop (fuel : nat) (s : selectMany_state)
    (noMoveNext : bool) : selectMany_state * result bool :=
  match fuel with
  | O => (s, Throw LoopBoundExceeded)
  | S fuel =>
      (* [subItemEnumerator == null || !subItemEnumerator.moveNext()] *)
      let tried :=
        match sm_subItemEnumerator s with
        | None => (None, true)
        | Some c => let (c, moved) := sub_moveNext c in (Some c, negb moved)
        end in
      let s := mkSelectMany (sm_itemEnumerator s) (sm_item s) (fst tried)
                 (sm_hasCurrent s) (sm_index s) in
      (* the second [if], once [subItemEnumerator] is in place *)
      let finish (s : selectMany_state) (noMoveNext : bool) :=
        match sm_subItemEnumerator s, noMoveNext with
        | _, true =>
            (inl (mkSelectMany (sm_itemEnumerator s) (sm_item s)
                    (sm_subItemEnumerator s) true (sm_index s)))
        | Some c, false =>
            let (c, moved) := sub_moveNext c in
            let s := mkSelectMany (sm_itemEnumerator s) (sm_item s) (Some c)
                       (sm_hasCurrent s) (sm_index s) in
            if moved
            then inl (mkSelectMany (sm_itemEnumerator s) (sm_item s)
                        (sm_subItemEnumerator s) true (sm_index s))
            else inr s
        | None, false => inr s
        end in
      if snd tried then
        match moveNext this (sm_itemEnumerator s) with
        | (e, Throw x) =>
            (mkSelectMany e (sm_item s) (sm_subItemEnumerator s)
               (sm_hasCurrent s) (sm_index s), Throw x)
        | (e, Ok false) =>
            (mkSelectMany e (sm_item s) (sm_subItemEnumerator s)
               (sm_hasCurrent s) (sm_index s), Ok (sm_hasCurrent s))
        | (e, Ok true) =>
            match current this e with
            | Throw x =>
                (mkSelectMany e (sm_item s) (sm_subItemEnumerator s)
                   (sm_hasCurrent s) (sm_index s), Throw x)
            | Ok item =>
                let sub := {| ord_array := collectionSelector item (sm_index s);
                              ord_index := -1 |} in
                let s := mkSelectMany e (Some item) (Some sub)
                           (sm_hasCurrent s) (sm_index s + 1) in
                match finish s false with
                | inl s => (s, Ok true)
                | inr s => selectMany_loop fuel s false
                end
            end
        end
      else
        match finish s noMoveNext with
        | inl s => (s, Ok true)
        | inr s => selectMany_loop fuel s noMoveNext
        end
  end.

Definition selectMany_moveNext (s : selectMany_state)
  : selectMany_state * result bool :=
  selectMany_loop (S (S (rest this (sm_itemEnumerator s))))
    (mkSelectMany (sm_itemEnumerator s) (sm_item s) (sm_subItemEnumerator s)
       false (sm_index s))
    true.

Definition selectMany_current (s : selectMany_state) : result R :=
  if negb (sm_hasCurrent s) then Throw InvalidOperationException
  else match sm_item s, sm_subItemEnumerator s with
       | Some item, Some c =>
           x <- array_current (ord_array c) (ord_index c) ;;
           Ok (resultSelector item x)
       | _, _ => Throw InvalidOperationException (* no such state *)
       end.

Definition selectMany_reset (s : selectMany_state) : selectMany_state :=
  mkSelectMany (reset this (sm_itemEnumerator s)) None None false 0.

(** Elements still to come: those left in the current collection and
    those of the collections of the source elements not yet visited. *)
Fixpoint collections_size (l : list T) (index : Z) : nat :=
  match l with
  | [] => O
  | item :: l =>
      (List.length (collectionSelector item index)
       + collections_size l (index + 1))%nat
  end.

Definition selectMany_rest (s : selectMany_state) : nat :=
  (match sm_subItemEnumerator s with
   | Some c => array_rest (ord_array c) (ord_index c)
   | None => O
   end
   + match snd (traverse this (sm_itemEnumerator s)) with
     | Ok l => collections_size l (sm_index s)
     | Throw _ => O
     end)%nat.

Definition selectMany : Enumerable R :=
  {| enumerator := {| state := selectMany_state;
                      moveNext := selectMany_moveNext;
                      current := selectMany_current;
                      reset := selectMany_reset;
                      rest := selectMany_rest |};
     getEnumerator := mkSelectMany (getEnumerator this) None None false 0 |}.
End SelectMany.

(** ** [distinct] (lines 753-790)

    The elements are the keys of the hash; the stored value is [true]. *)

Section Distinct.
Context {T : Type}.
Variable host : Host T bool.
Variable this : Enumerable T.
(* [Some equals] for [distinct(comparer)], [None] for [distinct()] *)
Variable comparer : option (T -> T -> bool).

Record distinct_state : Type := mkDistinct {
  d_enumerator : state this;
  d_hash : Hash (K:=T) (V:=bool)
}.

Fixpoint distinct_loop (fuel : nat) (s : distinct_state)
  : distinct_state * result bool :=
  match fuel with
  | O => (s, Throw LoopBoundExceeded)
  | S fuel =>
      match moveNext this (d_enumerator s) with
      | (e, Throw x) => (mkDistinct e (d_hash s), Throw x)
      | (e, Ok false) => (mkDistinct e (d_hash s), Ok false)
      | (e, Ok true) =>
          match current this e with
          | Throw x => (mkDistinct e (d_hash s), Throw x)
          | Ok item =>
              match put host (d_hash s) item true false with
              | (h, Throw x) => (mkDistinct e h, Throw x)
              | (h, Ok true) => (mkDistinct e h, Ok true)
              | (h, Ok false) => distinct_loop fuel (mkDistinct e h)
              end
          end
      end
  end.

Definition distinct_moveNext (s : distinct_state)
  : distinct_state * result bool :=
  distinct_loop (S (rest this (d_enumerator s))) s.

Definition distinct_current (s : distinct_state) : result T :=
  current this (d_enumerator s).

Definition distinct_reset (s : distinct_state) : distinct_state :=
  mkDistinct (reset this (d_enumerator s)) (Hash_empty (d_hash s)).

Definition distinct : Enumerable T :=
  {| enumerator := {| state := distinct_state;
                      moveNext := distinct_moveNext;
                      current := distinct_current;
                      reset := distinct_reset;
                      rest := fun s => rest this (d_enumerator s) |};
     getEnumerator := mkDistinct (getEnumerator this) (Hash_new comparer) |}.
End Distinct.

(** ** [reverse] (lines 1192-1225) *)

Section Reverse.
Context {T : Type}.
Variable _this : Enumerable T.

(** [enumerator] is [null] until the first [moveNext]. *)
Definition reverse_state : Type := option (ordered_cursor (T:=T)).

Definition reversed_moveNext (c : ordered_cursor (T:=T))
  : reverse_state * result bool :=
  let (i, r) := array_moveNext (ord_array c) (ord_index c) in
  (Some {| ord_array := ord_array c; ord_index := i |}, r).

Definition reverse_moveNext (s : reverse_state)
  : reverse_state * result bool :=
  match s with
  | None =>
      match toArray _this with
      | Throw e => (None, Throw e)
      | Ok array =>
          reversed_moveNext {| ord_array := rev array; ord_index := -1 |}
      end
  | Some c => reversed_moveNext c
  end.

Definition reverse_rest (s : reverse_state) : nat :=
  match s with
  | None => match toArray _this with
            | Ok array => List.length array
            | Throw _ => O
            end
  | Some c => array_rest (ord_array c) (ord_index c)
  end.

Definition reverse : Enumerable T :=
  {| enumerator := {| state := reverse_state;
                      moveNext := reverse_moveNext;
                      current := orderBy_current (T:=T);
                      reset := orderBy_reset (T:=T);
                      rest := reverse_rest |};
     getEnumerator := None |}.
End Reverse.

(** ** [groupBy] (lines 924-1027)

    The overloads are resolved by the caller: [elementSelector] and
    [comparer] are always given (the library's defaults are [identity] and
    the default equality comparer), and [resultSelector] builds the value
    [current] answers from a key and the enumerable of its elements, be it
    the caller's function or the [Grouping] constructor. *)

Section GroupBy.
Context {T K U R : Type}.
Variable host : Host K (list U).
Variable _this : Enumerable T.
Variable keySelector : T -> K.
Variable elementSelector : T -> U.
Variable resultSelector : string + K -> Enumerable U -> R.
Variable comparer : K -> K -> bool.

Record groupBy_state : Type := mkGroupBy {
  g_resultSet : option (list ((string + K) * list U));
  g_index : Z
}.

Fixpoint group_loop (fuel : nat) (e : state _this)
    (hash : Hash (K:=K) (V:=list U)) : result (Hash (K:=K) (V:=list U)) :=
  match fuel with
  | O => Throw LoopBoundExceeded
  | S fuel =>
      match moveNext _this e with
      | (_, Throw x) => Throw x
      | (_, Ok false) => Ok hash
      | (e, Ok true) =>
          current <- current _this e ;;
          let key := keySelector current in
          match keyExists host hash key with
          | (_, Throw x) => Throw x
          | (hash, Ok true) =>
              match get_and_mutate host hash key
                      (fun array => array ++ [elementSelector current]) with
              | (_, Throw x) => Throw x
              | (hash, Ok _) => group_loop fuel e hash
              end
          | (hash, Ok false) =>
              match put host hash key [elementSelector current] false with
              | (_, Throw x) => Throw x
              | (hash, Ok _) => group_loop fuel e hash
              end
          end
      end
  end.

Definition groupBy_lazyInitialize
  : result (list ((string + K) * list U)) :=
  let itemEnumerator := getEnumerator _this in
  hash <- group_loop (S (rest _this itemEnumerator)) itemEnumerator
            (Hash_new (Some comparer)) ;;
  Ok (Hash_toArray hash).

Definition groupBy_moveNext (s : groupBy_state)
  : groupBy_state * result bool :=
  match g_resultSet s with
  | None =>
      match groupBy_lazyInitialize with
      | Throw x => (s, Throw x)
      | Ok resultSet =>
          let index := g_index s + 1 in
          (mkGroupBy (Some resultSet) index,
           Ok (index <? Z.of_nat (List.length resultSet)))
      end
  | Some resultSet =>
      let index := g_index s + 1 in
      (mkGroupBy (Some resultSet) index,
       Ok (index <? Z.of_nat (List.length resultSet)))
  end.

Definition groupBy_current (s : groupBy_state) : result R :=
  if g_index s <? 0 then Throw InvalidOperationException
  else match g_resultSet s with
       | None => Throw InvalidOperationException (* [null.length] *)
       | Some resultSet =>
           if g_index s >=? Z.of_nat (List.length resultSet)
           then Throw InvalidOperationException
           else match nth_error resultSet (Z.to_nat (g_index s)) with
                | Some current =>
                    Ok (resultSelector (fst current)
                          (Enumerable_new (snd current)))
                | None => Throw InvalidOperationException
                end
       end.

Definition groupBy_reset (s : groupBy_state) : groupBy_state :=
  mkGroupBy (g_resultSet s) (-1).

Definition groupBy_rest (s : groupBy_state) : nat :=
  match g_resultSet s with
  | None => match groupBy_lazyInitialize with
            | Ok resultSet => Z.to_nat (Z.of_nat (List.length resultSet)
                                        - 1 - g_index s)
            | Throw _ => O
            end
  | Some resultSet =>
      Z.to_nat (Z.of_nat (List.length resultSet) - 1 - g_index s)
  end.

Definition groupBy : Enumerable R :=
  {| enumerator := {| state := groupBy_state;
                      moveNext := groupBy_moveNext;
                      current := groupBy_current;
                      reset := groupBy_reset;
                      rest := groupBy_rest |};
     getEnumerator := mkGroupBy None (-1) |}.
End GroupBy.

(** ** Vocabulary of the statements *)

(** [Produces E s l s']: driven from state [s], the enumerator hands out
    exactly the elements of [l], one per successful [moveNext], then
    answers [false] and is left in state [s']; [rest] decreases at each
    element. *)
Inductive Produces {T : Type} (E : Enumerator T)
  : state E -> list T -> state E -> Prop :=
| Produces_done s s' :
    moveNext E s = (s', Ok false) -> Produces E s [] s'
| Produces_next s s' x l s'' :
    moveNext E s = (s', Ok true) ->
    current E s' = Ok x ->
    (rest E s' < rest E s)%nat ->
    Produces E s' l s'' ->
    Produces E s (x :: l) s''.

(** A consumer's calls on an enumerator. *)
Inductive call : Type := CallMoveNext | CallReset.

Definition after_call {T : Type} (E : Enumerator T) (s : state E) (c : call)
  : state E :=
  match c with
  | CallMoveNext => fst (moveNext E s)
  | CallReset => reset E s
  end.

(** The state an enumerator is in after a sequence of calls. *)
Definition after_calls {T : Type} (E : Enumerator T) (s : state E)
    (calls : list call) : state E :=
  fold_left (after_call E) calls s.

(** [n] further calls of [moveNext]. *)
Definition moveNext_times {T : Type} (E : Enumerator T) (n : nat)
    (s : state E) : state E :=
  after_calls E s (List.repeat CallMoveNext n).

(** ** JavaScript values, as keys and stored values of a [Hash] *)

Inductive js_value : Type :=
| JsUndefined
| JsNull
| JsBoolean (b : bool)
| JsNumber (n : Z)
| JsString (s : string)
| JsObject (ref : Z).            (* an object or function, by identity *)

Definition js_is_primitive (v : js_value) : bool :=
  match v with
  | JsBoolean _ | JsNumber _ | JsString _ => true
  | JsUndefined | JsNull | JsObject _ => false
  end.

(** The property name a primitive key is converted to. *)
Definition js_property_name (v : js_value) : string :=
  match v with
  | JsString s => s
  | JsNumber n => NilZero.string_of_int (Z.to_int n)
  | JsBoolean true => "true"
  | JsBoolean false => "false"
  | JsUndefined => "undefined"
  | JsNull => "null"
  | JsObject _ => "[object Object]"
  end.

(** [a == b].  Two values of one type are compared directly, [null] and
    [undefined] equal each other and nothing else; what the host answers
    after converting between a number, a string and a boolean is
    [coerce]. *)
Definition js_loose_eq (coerce : js_value -> js_value -> bool)
    (a b : js_value) : bool :=
  match a, b with
  | (JsUndefined | JsNull), (JsUndefined | JsNull) => true
  | (JsUndefined | JsNull), _ | _, (JsUndefined | JsNull) => false
  | JsBoolean x, JsBoolean y => Bool.eqb x y
  | JsNumber x, JsNumber y => x =? y
  | JsString x, JsString y => String.eqb x y
  | JsObject x, JsObject y => x =? y
  | _, _ => coerce a b
  end.

Definition js_is_undefined (v : js_value) : bool :=
  match v with
  | JsUndefined => true
  | _ => false
  end.

(** The names every object inherits from [Object.prototype]; the values
    are functions, told apart by their position.  The accessor
    [__proto__] is left aside. *)
Definition Object_prototype_names : list string :=
  ["constructor"; "hasOwnProperty"; "isPrototypeOf"; "propertyIsEnumerable";
   "toLocaleString"; "toString"; "valueOf"]%string.

Fixpoint position (names : list string) (name : string) (i : Z) : option Z :=
  match names with
  | [] => None
  | n :: names =>
      if String.eqb n name then Some i else position names name (i + 1)
  end.

Definition js_inherited (name : string) : option js_value :=
  match position Object_prototype_names name 0 with
  | Some i => Some (JsObject (- 1 - i))
  | None => None
  end.

Definition js_host (coerce : js_value -> js_value -> bool)
  : Host js_value js_value :=
  {| is_primitive := js_is_primitive;
     property_name := js_property_name;
     loose_eq := js_loose_eq coerce;
     is_undefined := js_is_undefined;
     inherited := js_inherited |}.

(** ** The terminal operators, on the list of elements

    What [first], [last], [single] and [elementAt] are to answer for a
    sequence whose elements are [l], with a predicate that may raise. *)

Section ListLevel.
Context {T : Type}.

Definition always : T -> result bool := fun _ => Ok true.

Definition or_always (predicate : option (T -> result bool))
  : T -> result bool :=
  match predicate with
  | Some p => p
  | None => always
  end.

(** The first element the predicate accepts; the predicate's exception if
    it raises on the way; [InvalidOperationException] if there is none. *)
Fixpoint list_first (p : T -> result bool) (l : list T) : result T :=
  match l with
  | [] => Throw InvalidOperationException
  | x :: l => b <- p x ;; if b then Ok x else list_first p l
  end.

(** The last element the predicate accepts, the predicate being asked on
    every element in order. *)
Fixpoint list_last_from (p : T -> result bool) (l : list T)
    (last : option T) : result T :=
  match l with
  | [] => match last with
          | Some x => Ok x
          | None => Throw InvalidOperationException
          end
  | x :: l => b <- p x ;; list_last_from p l (if b then Some x else last)
  end.

Definition list_last (p : T -> result bool) (l : list T) : result T :=
  list_last_from p l None.

(** The only element, if there is exactly one and the predicate accepts
    it. *)
Definition list_single (p : T -> result bool) (l : list T) : result T :=
  match l with
  | [x] => b <- p x ;; if b then Ok x else Throw InvalidOperationException
  | _ => Throw InvalidOperationException
  end.

Definition list_elementAt (i : Z) (l : list T) : result T :=
  if i <? 0 then Throw (ArgumentOutOfRangeException (Some "index"%string))
  else match nth_error l (Z.to_nat i) with
       | Some x => Ok x
       | None => Throw (ArgumentOutOfRangeException (Some "index"%string))
       end.

(** The value if there is one, the fallback on any exception. *)
Definition value_or (r : result T) (defaultValue : T) : T :=
  match r with
  | Ok v => v
  | Throw _ => defaultValue
  end.

(** [any] on the list of elements, for a closure with captured state. *)
Fixpoint any_list {A : Type} (predicate : A -> T -> A * result bool)
    (a : A) (l : list T) : A * result bool :=
  match l with
  | [] => (a, Ok false)
  | x :: l =>
      match predicate a x with
      | (a, Throw e) => (a, Throw e)
      | (a, Ok true) => (a, Ok true)
      | (a, Ok false) => any_list predicate a l
      end
  end.
End ListLevel.

(** ** Sorting by two keys, in the words of the specification *)

Section TwoKeys.
Context {T : Type}.
Variables k1 k2 : T -> Z.

(** [a] may stand before [b]: smaller primary key, or equal primary keys
    and a secondary key not greater. *)
Definition keys_le (a b : T) : Prop :=
  k1 a < k1 b \/ (k1 a = k1 b /\ k2 a <= k2 b).

(** The comparison "by [k1] ascending, then by [k2] ascending". *)
Definition compare_keys (a b : T) : Z :=
  if k1 a <? k1 b then -1
  else if k1 b <? k1 a then 1
  else if k2 a <? k2 b then -1
  else if k2 b <? k2 a then 1
  else 0.

(** The elements whose two keys are [(x, y)]. *)
Definition has_keys (x y : Z) (a : T) : bool :=
  (k1 a =? x) && (k2 a =? y).
End TwoKeys.

(** ** Joins, in the words of the specification *)

Section JoinLists.
Context {T1 T2 K R : Type}.
Variable outerKey : T1 -> K.
Variable innerKey : T2 -> K.
Variable equals : K -> K -> bool.

(** The inner elements whose key matches the key of [o], in inner order. *)
Definition matching (inner : list T2) (o : T1) : list T2 :=
  List.filter (fun i => equals (innerKey i) (outerKey o)) inner.

(** One result per matching (outer, inner) pair, outer element by outer
    element; an outer element without match contributes nothing. *)
Definition join_pairs (result : T1 -> T2 -> R) (outer : list T1)
    (inner : list T2) : list R :=
  flat_map (fun o => List.map (result o) (matching inner o)) outer.

(** One result per outer element, with all its matching inner elements. *)
Definition group_pairs (result : T1 -> list T2 -> R) (outer : list T1)
    (inner : list T2) : list R :=
  List.map (fun o => result o (matching inner o)) outer.
End JoinLists.

(** ** Traversing twice *)

(** [reset] puts an enumerator of [P] back into the state [getEnumerator]
    creates it in. *)
Definition rewinds {T : Type} (P : Enumerable T) : Prop :=
  forall s : state P, reset P s = getEnumerator P.

(** A full traversal of a fresh enumerator, [reset], and a second full
    traversal: the second one answers what the first one answered. *)
Definition replays {T : Type} (E : Enumerable T) : Prop :=
  snd (traverse E (reset E (fst (traverse E (getEnumerator E)))))
  = snd (traverse E (getEnumerator E)).

(** The buffer an [orderBy] or [reverse] enumerator holds, if any. *)
Definition cursor_array {T : Type} (s : option (ordered_cursor (T:=T)))
  : option (list T) :=
  match s with
  | Some c => Some (ord_array c)
  | None => None
  end.

(** [E] replays, and the buffer read by [buffer] is there after the first
    traversal and still the same after [reset]. *)
Definition replays_keeping {T B : Type} (E : Enumerable T)
    (buffer : state E -> option B) : Prop :=
  replays E
  /\ (forall s : state E, buffer (reset E s) = buffer s)
  /\ (forall l, toArray E = Ok l ->
      buffer (fst (traverse E (getEnumerator E))) <> None).

(** ** [take] and [skip] (lines 1422-1429, 1496-1503) *)

Definition take {T : Type} (this : Enumerable T) (count : Z) : Enumerable T :=
  if count =? 0 then Enumerable_empty
  else takeWhile this (fun _ index => index <? count).

Definition skip {T : Type} (this : Enumerable T) (count : Z) : Enumerable T :=
  if count =? 0 then this
  else skipWhile this (fun _ index => index <? count).

(** ** [union] (lines 1567-1572)

    [comparer] is [EqualityComparer.getDefault()] when the caller gives
    none, so that [distinct] always receives one. *)

Definition union {T : Type} (host : Host T bool) (this second : Enumerable T)
    (comparer : option (T -> T -> bool)) : Enumerable T :=
  distinct host (concat this second)
    (Some (match comparer with Some c => c | None => loose_eq host end)).

(** ** [aggregate], [sum], [max], [min] (lines 571-596, 1136-1169,
       1483-1490)

    Numbers are integers.  [C] holds the variables that the accumulator
    function captures and assigns ([isFirst] in [max] and [min]). *)

Section Aggregate.
Context {T : Type}.
Variable this : Enumerable T.

(** [while (enumerator.moveNext()) running = func(running,
    enumerator.current());] *)
Fixpoint aggregate_loop {C A : Type} (fuel : nat) (e : state this)
    (func : C -> A -> T -> C * result A) (c : C) (running : A) : result A :=
  match fuel with
  | O => Throw LoopBoundExceeded
  | S fuel =>
      match moveNext this e with
      | (_, Throw x) => Throw x
      | (_, Ok false) => Ok running
      | (e, Ok true) =>
          item <- current this e ;;
          match func c running item with
          | (_, Throw x) => Throw x
          | (c, Ok running) => aggregate_loop fuel e func c running
          end
      end
  end.

(** [aggregate(func)]: the first element is the initial accumulator. *)
Definition aggregate_with {C : Type} (func : C -> T -> T -> C * result T)
    (c : C) : result T :=
  let enumerator := getEnumerator this in
  match moveNext this enumerator with
  | (_, Throw x) => Throw x
  | (_, Ok false) => Throw InvalidOperationException
  | (enumerator, Ok true) =>
      running <- current this enumerator ;;
      aggregate_loop (S (rest this enumerator)) enumerator func c running
  end.

Definition aggregate (func : T -> T -> result T) : result T :=
  aggregate_with (fun (c : unit) running item => (c, func running item)) tt.

(** [aggregate(seed, func)] and [aggregate(seed, func, resultSelector)]:
    the enumerator is advanced once, then reset. *)
Definition aggregate_seed_with {C A B : Type} (seed : A)
    (func : C -> A -> T -> C * result A) (c : C)
    (resultSelector : A -> result B) : result B :=
  let enumerator := getEnumerator this in
  match moveNext this enumerator with
  | (_, Throw x) => Throw x
  | (_, Ok false) => Throw InvalidOperationException
  | (enumerator, Ok true) =>
      let enumerator := reset this enumerator in
      running <- aggregate_loop (S (rest this enumerator)) enumerator
                   func c seed ;;
      resultSelector running
  end.

Definition aggregate_seed {A B : Type} (seed : A)
    (func : A -> T -> result A) (resultSelector : A -> result B) : result B :=
  aggregate_seed_with seed
    (fun (c : unit) running item => (c, func running item)) tt resultSelector.

(** [sum()] and [sum(selector)] *)
Definition sum (selector : T -> result Z) : result Z :=
  aggregate_seed 0
    (fun running current => v <- selector current ;; Ok (running + v))
    (fun running => Ok running).
End Aggregate.

(** [max] and [min]: the accumulator holds an element at first and a
    number from the first call on, so the elements are numbers here. *)
Definition extremum (pick : Z -> Z -> Z) (this : Enumerable Z)
    (selector : Z -> result Z) : result Z :=
  aggregate_with this
    (fun (isFirst : bool) running current =>
       match (if isFirst then selector running else Ok running) with
       | Throw x => (isFirst, Throw x)
       | Ok running =>
           (false, v <- selector current ;; Ok (pick running v))
       end) true.

Definition max (this : Enumerable Z) (selector : Z -> result Z) : result Z :=
  extremum Z.max this selector.

Definition min (this : Enumerable Z) (selector : Z -> result Z) : result Z :=
  extremum Z.min this selector.

(** ** [all], [any], [contains], [count], [defaultIfEmpty] (lines 602-633,
       704-743) *)

Section Quantifiers.
Context {T : Type}.
Variable this : Enumerable T.

Fixpoint all_loop (fuel : nat) (e : state this)
    (predicate : T -> result bool) : result bool :=
  match fuel with
  | O => Throw LoopBoundExceeded
  | S fuel =>
      match moveNext this e with
      | (_, Throw x) => Throw x
      | (_, Ok false) => Ok true
      | (e, Ok true) =>
          item <- current this e ;;
          holds <- predicate item ;;
          if negb holds then Ok false else all_loop fuel e predicate
      end
  end.

Definition all (predicate : T -> result bool) : result bool :=
  let enumerator := getEnumerator this in
  all_loop (S (rest this enumerator)) enumerator predicate.

(** [any()] *)
Definition any_element : result bool :=
  snd (moveNext this (getEnumerator this)).

(** [any(predicate)] for a predicate that captures nothing *)
Definition any_where (predicate : T -> result bool) : result bool :=
  snd (any this (fun (c : unit) item => (c, predicate item)) tt).

(** [contains(value)] and [contains(value, comparer)] *)
Definition contains (host : Host T bool) (value : T)
    (comparer : option (T -> T -> bool)) : result bool :=
  let equals := match comparer with Some c => c | None => loose_eq host end in
  any_where (fun item => Ok (equals item value)).

Fixpoint count_loop (fuel : nat) (e : state this)
    (predicate : option (T -> result bool)) (count : Z) : result Z :=
  match fuel with
  | O => Throw LoopBoundExceeded
  | S fuel =>
      match moveNext this e with
      | (_, Throw x) => Throw x
      | (_, Ok false) => Ok count
      | (e, Ok true) =>
          match predicate with
          | Some p =>
              item <- current this e ;;
              holds <- p item ;;
              count_loop fuel e predicate (if holds then count + 1 else count)
          | None => count_loop fuel e predicate (count + 1)
          end
      end
  end.

Definition count (predicate : option (T -> result bool)) : result Z :=
  let enumerator := getEnumerator this in
  count_loop (S (rest this enumerator)) enumerator predicate 0.

(** [new Enumerable(value)] with one argument, [value] being neither
    [null] nor [undefined]: [as_array value] is the indexable content of a
    value that has a [length] and whose first element, if there is one, is
    defined; any other value becomes a one-element sequence. *)
Definition Enumerable_of (as_array : T -> option (list T)) (value : T)
  : Enumerable T :=
  match as_array value with
  | Some array => Enumerable_new array
  | None => Enumerable_new [value]
  end.

Definition defaultIfEmpty (as_array : T -> option (list T))
    (defaultValue : T) : result (Enumerable T) :=
  nonEmpty <- any_where (fun _ => Ok true) ;;
  let isEmpty := negb nonEmpty in
  Ok (if isEmpty then Enumerable_of as_array defaultValue else this).
End Quantifiers.

(** ** [except] and [intersect] (lines 832-841, 1049-1056)

    Both hand [where] a predicate that enumerates [second] from a new
    enumerator on every call; such a predicate may raise, and what it
    raises leaves [moveNext] after [current] has been assigned. *)

Section WhereCalling.
Context {T : Type}.
Variable this : Enumerable T.
Variable predicate : T -> result bool.

Fixpoint where_call_loop (fuel : nat) (s : where_state this)
  : where_state this * result bool :=
  match fuel with
  | O => (s, Throw LoopBoundExceeded)
  | S fuel =>
      match moveNext this (w_itemEnumerator s) with
      | (e, Throw x) => (mkWhere this e (w_current s) (w_hasCurrent s), Throw x)
      | (e, Ok false) =>
          (mkWhere this e (w_current s) (w_hasCurrent s),
           Ok (w_hasCurrent s))
      | (e, Ok true) =>
          match current this e with
          | Throw x =>
              (mkWhere this e (w_current s) (w_hasCurrent s), Throw x)
          | Ok current =>
              match predicate current with
              | Throw x =>
                  (mkWhere this e (Some current) (w_hasCurrent s), Throw x)
              | Ok true => (mkWhere this e (Some current) true, Ok true)
              | Ok false =>
                  where_call_loop fuel
                    (mkWhere this e (Some current) (w_hasCurrent s))
              end
          end
      end
  end.

Definition where_call_moveNext (s : where_state this)
  : where_state this * result bool :=
  where_call_loop (S (rest this (w_itemEnumerator s)))
    (mkWhere this (w_itemEnumerator s) (w_current s) false).

Definition where_call : Enumerable T :=
  {| enumerator := {| state := where_state this;
                      moveNext := where_call_moveNext;
                      current := @where_current T this;
                      reset := @where_reset T this;
                      rest := fun s => rest this (w_itemEnumerator s) |};
     getEnumerator := mkWhere this (getEnumerator this) None false |}.
End WhereCalling.

Definition except {T : Type} (host : Host T bool) (this second : Enumerable T)
    (comparer : option (T -> T -> bool)) : Enumerable T :=
  let equals := match comparer with Some c => c | None => loose_eq host end in
  where_call this
    (fun item =>
       found <- any_where second (fun compare => Ok (equals item compare)) ;;
       Ok (negb found)).

Definition intersect {T : Type} (host : Host T bool)
    (this second : Enumerable T) (comparer : option (T -> T -> bool))
  : Enumerable T :=
  let equals := match comparer with Some c => c | None => loose_eq host end in
  where_call (distinct host this (Some equals))
    (fun item => contains second host item (Some equals)).

(* ================================================================== *)
(** * Properties *)
(* ================================================================== *)

(** ** The source adapter *)

Section ArrayFacts.
Context {T : Type}.
Variable value : list T.

Lemma array_current_nth (n : nat) (x : T) :
  nth_error value n = Some x ->
  array_current value (Z.of_nat n) = Ok x.
Proof.
  intros H. unfold array_current, length_.
  assert (Hlt : (n < List.length value)%nat)
    by (apply nth_error_Some; congruence).
  replace (Z.of_nat n <? 0) with false by (symmetry; apply Z.ltb_ge; lia).
  replace (Z.of_nat n >=? Z.of_nat (List.length value)) with false
    by (symmetry; rewrite Z.geb_leb; apply Z.leb_gt; lia).
  simpl. rewrite Nat2Z.id, H. reflexivity.
Qed.

Lemma array_produces_from (n : nat) :
  (n <= List.length value)%nat ->
  Produces (ArrayEnumerator value) (Z.of_nat n - 1) (skipn n value)
    (Z.of_nat (List.length value)).
Proof.
  remember (List.length value - n)%nat as k eqn:Hk.
  revert n Hk. induction k as [|k IH]; intros n Hk Hle.
  - assert (n = List.length value) by lia. subst n.
    rewrite skipn_all. apply Produces_done. simpl.
    unfold array_moveNext, length_.
    replace (Z.of_nat (List.length value) - 1 + 1)
      with (Z.of_nat (List.length value)) by lia.
    rewrite Z.ltb_irrefl. reflexivity.
  - assert (Hlt : (n < List.length value)%nat) by lia.
    destruct (nth_error value n) as [x|] eqn:Hx;
      [|apply nth_error_None in Hx; lia].
    assert (Hs : skipn n value = x :: skipn (S n) value).
    { clear -Hx. revert n Hx. induction value as [|y v IHv]; intros [|n] H;
        simpl in *; try discriminate.
      - congruence.
      - apply IHv; assumption. }
    rewrite Hs.
    apply Produces_next with (s' := Z.of_nat (S n) - 1).
    + change (array_moveNext value (Z.of_nat n - 1)
              = (Z.of_nat (S n) - 1, Ok true)).
      unfold array_moveNext, length_.
      replace (Z.of_nat n - 1 + 1) with (Z.of_nat (S n) - 1) by lia.
      replace (Z.of_nat (S n) - 1 <? Z.of_nat (List.length value)) with true
        by (symmetry; apply Z.ltb_lt; lia).
      reflexivity.
    + change (array_current value (Z.of_nat (S n) - 1) = Ok x).
      replace (Z.of_nat (S n) - 1) with (Z.of_nat n) by lia.
      apply array_current_nth; assumption.
    + change (array_rest value (Z.of_nat (S n) - 1)
              < array_rest value (Z.of_nat n - 1))%nat.
      unfold array_rest, length_. lia.
    + apply IH; lia.
Qed.

Lemma array_produces :
  Produces (Enumerable_new value) (getEnumerator (Enumerable_new value))
    value (Z.of_nat (List.length value)).
Proof.
  exact (array_produces_from (n:=0) (Nat.le_0_l _)).
Qed.
End ArrayFacts.

(** ** Traversals *)

Section TraverseFacts.
Context {T : Type}.
Variable E : Enumerator T.

Lemma produces_length s l s' :
  Produces E s l s' -> (List.length l <= rest E s)%nat.
Proof.
  induction 1; simpl; lia.
Qed.

Lemma produces_loop s l s' :
  Produces E s l s' ->
  forall fuel array, (List.length l < fuel)%nat ->
  toArray_loop E fuel s array = (s', Ok (array ++ l)).
Proof.
  induction 1 as [s s' Hm | s s' x l s'' Hm Hc Hr Hp IH];
    intros [|fuel] array Hf; simpl in Hf; try lia; simpl; rewrite Hm.
  - rewrite app_nil_r. reflexivity.
  - rewrite Hc, IH by lia. rewrite <- app_assoc. reflexivity.
Qed.

Lemma produces_traverse s l s' :
  Produces E s l s' -> traverse E s = (s', Ok l).
Proof.
  intros H. unfold traverse.
  rewrite (produces_loop H) by (apply produces_length in H; lia).
  reflexivity.
Qed.
(** A state that takes the same first step as another one produces the
    same elements. *)
Lemma produces_same_start s t l s' :
  moveNext E s = moveNext E t ->
  rest E s = rest E t ->
  Produces E t l s' -> Produces E s l s'.
Proof.
  intros Hstep Hrest H.
  destruct H as [t t' Hm | t t' x l t'' Hm Hc Hr Hp].
  - apply Produces_done. rewrite Hstep. exact Hm.
  - eapply Produces_next; [rewrite Hstep; exact Hm | exact Hc | | exact Hp].
    rewrite Hrest. exact Hr.
Qed.
End TraverseFacts.

Lemma toArray_array {T : Type} (value : list T) :
  toArray (Enumerable_new value) = Ok value.
Proof.
  unfold toArray. rewrite (produces_traverse (array_produces value)).
  reflexivity.
Qed.

(** ** [takeWhile]: the closed state *)

Section TakeWhileFacts.
Context {T : Type}.
Variable this : Enumerable T.
Variable predicate : T -> Z -> bool.

Let E := takeWhile this predicate.

Lemma takeWhile_false_closes (s s' : state E) :
  moveNext E s = (s', Ok false) -> tw_isOperational s' = false.
Proof.
  simpl. unfold takeWhile_moveNext.
  destruct (tw_isOperational s) eqn:Hop.
  - destruct (moveNext this (tw_enumerator s)) as [e [[|]|x]];
      try (intros H; inversion H; reflexivity).
    destruct (current this e) as [item|x].
    + intros H. injection H as Hs Hb. subst s'. simpl. exact Hb.
    + discriminate.
  - intros H. inversion H. subst. assumption.
Qed.

Lemma takeWhile_closed_stays (s : state E) :
  tw_isOperational s = false -> moveNext E s = (s, Ok false).
Proof.
  intros H. simpl. unfold takeWhile_moveNext. rewrite H. reflexivity.
Qed.

Lemma takeWhile_closed_times (s : state E) (n : nat) :
  tw_isOperational s = false -> moveNext_times E n s = s.
Proof.
  intros H. unfold moveNext_times, after_calls.
  induction n as [|n IH]; [reflexivity|].
  cbn [List.repeat fold_left after_call].
  rewrite takeWhile_closed_stays by exact H. exact IH.
Qed.
End TakeWhileFacts.

(** C8. Once [moveNext] of a [takeWhile] enumerator has answered [false]
    (source exhausted or predicate refused an element), every later
    [moveNext] answers [false] as well, whatever the source still holds and
    whatever the predicate would say, and leaves the enumerator as it is;
    only [reset] opens it again. *)
Theorem takeWhile_closed_is_sticky {T : Type} (this : Enumerable T)
    (predicate : T -> Z -> bool)
    (s s' : state (takeWhile this predicate)) :
  moveNext (takeWhile this predicate) s = (s', Ok false) ->
  (forall n : nat,
     moveNext (takeWhile this predicate)
       (moveNext_times (takeWhile this predicate) n s') = (s', Ok false))
  /\ tw_isOperational (reset (takeWhile this predicate) s') = true.
Proof.
  intros H. apply takeWhile_false_closes in H. split.
  - intros n. rewrite takeWhile_closed_times by assumption.
    apply takeWhile_closed_stays. assumption.
  - reflexivity.
Qed.

(** Witness for C8: over [[1; 5; 2]] with the predicate [x < 3], the second
    [moveNext] answers [false] at [5]; the element [2] behind it never
    re-opens the enumerator. *)
Lemma takeWhile_closed_is_sticky_witness :
  let E := takeWhile (Enumerable_new [1; 5; 2]) (fun x _ => x <? 3) in
  let s := fst (moveNext E (getEnumerator E)) in
  let s' := fst (moveNext E s) in
  (forall n : nat, moveNext E (moveNext_times E n s') = (s', Ok false))
  /\ tw_isOperational (reset E s') = true.
Proof.
  intros E s s'.
  apply (@takeWhile_closed_is_sticky Z (Enumerable_new [1; 5; 2])
           (fun x _ => x <? 3) s s').
  reflexivity.
Defined.

(** ** [select] after [select] *)

Section SelectFusion.
Context {T U V : Type}.
Variable this : Enumerable T.
Variable f : T -> U.
Variable g : U -> V.

Let chained := select (select this (fun x _ => f x)) (fun y _ => g y).
Let fused := select this (fun x _ => g (f x)).

(** Both enumerators hold the source enumerator in the same state. *)
Definition same_source (s1 : state chained) (s2 : state fused) : Prop :=
  sel_itemEnumerator (sel_itemEnumerator s1) = sel_itemEnumerator s2.

Lemma same_source_moveNext s1 s2 :
  same_source s1 s2 ->
  snd (moveNext chained s1) = snd (moveNext fused s2)
  /\ same_source (fst (moveNext chained s1)) (fst (moveNext fused s2)).
Proof.
  unfold same_source. intros H. simpl.
  unfold select_moveNext. simpl. unfold select_moveNext.
  rewrite H. destruct (moveNext this (sel_itemEnumerator s2)) as [e r].
  simpl. split; reflexivity.
Qed.

Lemma same_source_current s1 s2 :
  same_source s1 s2 -> current chained s1 = current fused s2.
Proof.
  unfold same_source. intros H. simpl.
  unfold select_current. simpl. unfold select_current.
  rewrite H. destruct (current this (sel_itemEnumerator s2)); reflexivity.
Qed.

Lemma same_source_reset s1 s2 :
  same_source s1 s2 -> same_source (reset chained s1) (reset fused s2).
Proof.
  unfold same_source. intros H. simpl. rewrite H. reflexivity.
Qed.

Lemma same_source_after_calls calls : forall s1 s2,
  same_source s1 s2 ->
  same_source (after_calls chained s1 calls) (after_calls fused s2 calls).
Proof.
  induction calls as [|c calls IH]; intros s1 s2 H; simpl; [assumption|].
  apply IH. destruct c; simpl.
  - apply same_source_moveNext; assumption.
  - apply same_source_reset; assumption.
Qed.

Lemma same_source_loop fuel : forall s1 s2 array,
  same_source s1 s2 ->
  snd (toArray_loop chained fuel s1 array)
  = snd (toArray_loop fused fuel s2 array).
Proof.
  induction fuel as [|fuel IH]; intros s1 s2 array H; [reflexivity|].
  cbn [toArray_loop].
  destruct (same_source_moveNext H) as [Hr Hs].
  destruct (moveNext chained s1) as [s1' r1].
  destruct (moveNext fused s2) as [s2' r2].
  simpl in Hr, Hs. subst r2.
  destruct r1 as [[|]|x]; try reflexivity.
  rewrite (same_source_current Hs).
  destruct (current fused s2'); [apply IH; assumption|reflexivity].
Qed.

Lemma select_fusion_holds :
  (forall calls : list call,
     let s1 := after_calls chained (getEnumerator chained) calls in
     let s2 := after_calls fused (getEnumerator fused) calls in
     snd (moveNext chained s1) = snd (moveNext fused s2)
     /\ current chained s1 = current fused s2)
  /\ toArray chained = toArray fused.
Proof.
  assert (H0 : same_source (getEnumerator chained) (getEnumerator fused))
    by reflexivity.
  split.
  - intros calls s1 s2.
    pose proof (same_source_after_calls calls H0) as H.
    split.
    + apply same_source_moveNext; assumption.
    + apply same_source_current; assumption.
  - unfold toArray, traverse.
    replace (rest fused (getEnumerator fused))
      with (rest chained (getEnumerator chained)) by reflexivity.
    apply same_source_loop; assumption.
Qed.
End SelectFusion.

(** C9. For every sequence and all unary selectors [f] and [g],
    [select(f).select(g)] and [select(x => g(f(x)))] cannot be told apart:
    after any sequence of [moveNext] and [reset] calls on fresh enumerators
    of the two, [moveNext] gives the same answer and [current] the same
    value or the same exception, and [toArray] gives the same array. *)
Theorem select_select_is_select_compose {T U V : Type} (this : Enumerable T)
    (f : T -> U) (g : U -> V) :
  let chained := select (select this (fun x _ => f x)) (fun y _ => g y) in
  let fused := select this (fun x _ => g (f x)) in
  (forall calls : list call,
     let s1 := after_calls chained (getEnumerator chained) calls in
     let s2 := after_calls fused (getEnumerator fused) calls in
     snd (moveNext chained s1) = snd (moveNext fused s2)
     /\ current chained s1 = current fused s2)
  /\ toArray chained = toArray fused.
Proof.
  exact (select_fusion_holds this f g).
Qed.

(** ** [sequenceEqual] *)

Section SequenceEqualFacts.
Context {T : Type}.
Variable this second : Enumerable T.
Variable equals : T -> T -> bool.

(** The elements compared: position by position, as far as both lists go. *)
Definition agree_on_common_prefix (A B : list T) : bool :=
  forallb (fun p => equals (fst p) (snd p)) (combine A B).

Lemma sequenceEqual_loop_spec (A : list T) s1 sa :
  Produces this s1 A sa ->
  forall (B : list T) s2 sb fuel,
    Produces second s2 B sb ->
    (List.length A < fuel)%nat ->
    sequenceEqual_loop this second equals fuel s1 s2
    = Ok (agree_on_common_prefix A B).
Proof.
  induction 1 as [s s' Hm | s s' x l s'' Hm Hc Hr Hp IH];
    intros B s2 sb [|fuel] HB Hf; simpl in Hf; try lia;
    cbn [sequenceEqual_loop]; rewrite Hm.
  - reflexivity.
  - inversion HB as [t t' Hm2 | t t' y l2 t'' Hm2 Hc2 Hr2 Hp2]; subst;
      rewrite Hm2.
    + reflexivity.
    + rewrite Hc, Hc2. cbn [bind]. unfold agree_on_common_prefix.
      cbn [combine forallb fst snd].
      destruct (equals x y); cbn [negb andb]; [|reflexivity].
      apply (IH _ _ _ _ Hp2). lia.
Qed.

Lemma agree_on_common_prefix_true (A B : list T) :
  (forall i a b, nth_error A i = Some a -> nth_error B i = Some b ->
                 equals a b = true) ->
  agree_on_common_prefix A B = true.
Proof.
  revert B. induction A as [|a A IH]; intros [|b B] H; try reflexivity.
  unfold agree_on_common_prefix. cbn [combine forallb fst snd].
  rewrite (H O a b eq_refl eq_refl).
  apply (IH B). intros i a' b' Ha Hb. apply (H (S i)); assumption.
Qed.
End SequenceEqualFacts.

(** C10. [sequenceEqual] compares the two sequences position by position
    only as far as both of them go: for finite sequences [A] and [B] it
    answers whether the elements agree on the common prefix, so it answers
    [true] whenever they do, whatever the two lengths are. *)
Theorem sequenceEqual_ignores_length {T : Type} (this second : Enumerable T)
    (equals : T -> T -> bool) (same : bool) (A B : list T)
    (sa : state this) (sb : state second) :
  Produces this (getEnumerator this) A sa ->
  Produces second (getEnumerator second) B sb ->
  (same = false ->
   sequenceEqual this second equals same
   = Ok (agree_on_common_prefix equals A B))
  /\ ((forall i a b, nth_error A i = Some a -> nth_error B i = Some b ->
                     equals a b = true) ->
      sequenceEqual this second equals same = Ok true).
Proof.
  intros HA HB.
  assert (Hloop : sequenceEqual this second equals false
                  = Ok (agree_on_common_prefix equals A B)).
  { unfold sequenceEqual.
    eapply sequenceEqual_loop_spec; [exact HA | exact HB |].
    apply produces_length in HA. lia. }
  split.
  - intros ->. exact Hloop.
  - intros Hagree. destruct same; [reflexivity|].
    rewrite Hloop, agree_on_common_prefix_true by assumption. reflexivity.
Qed.

(** Witness for C10: [[1]] against [[1, 2]] and [[1, 2]] against [[1]],
    with the default equality comparer. *)
Lemma sequenceEqual_ignores_length_witness :
  sequenceEqual (Enumerable_new [1]) (Enumerable_new [1; 2])
    EqualityComparer_equals false = Ok true
  /\ sequenceEqual (Enumerable_new [1; 2]) (Enumerable_new [1])
       EqualityComparer_equals false = Ok true.
Proof.
  split.
  - apply (proj1 (@sequenceEqual_ignores_length Z _ _
                    EqualityComparer_equals false _ _ _ _
                    (array_produces [1]) (array_produces [1; 2])) eq_refl).
  - apply (proj1 (@sequenceEqual_ignores_length Z _ _
                    EqualityComparer_equals false _ _ _ _
                    (array_produces [1; 2]) (array_produces [1])) eq_refl).
Defined.

(** ** [current] out of protocol *)

(** C4 (the code departs from the claim).  On a [range] enumerator,
    [moveNext(); reset(); current()] answers [start - 1] instead of raising
    [InvalidOperationException]: [reset] rewinds [index] and leaves
    [hasNext] set.  The same calls raise on a [repeat] enumerator, whose
    [reset] clears [hasNext], and on the source adapter.  Before the first
    [moveNext] and after exhaustion all three raise.  A [join] enumerator
    shares the defect of [range]: its [reset] leaves [hasNext] set as
    well. *)
Theorem range_current_after_reset :
  let r := range_enumerable 5 3 in
  let j := join (number_host (list (Z * string))) (Enumerable_new [1; 2])
             (Enumerable_new [(1, "a"%string); (1, "b"%string)])
             (fun o => o) fst (fun o i => (o, snd i)) None in
  let p := repeat_enumerable 7 3 in
  let a := Enumerable_new [5; 6; 7] in
  let exhaust (E : Enumerable Z) := moveNext_times E 4 (getEnumerator E) in
  (* moveNext(); reset(); current() *)
  current r (after_calls r (getEnumerator r) [CallMoveNext; CallReset])
  = Ok 4
  /\ current p (after_calls p (getEnumerator p) [CallMoveNext; CallReset])
     = Throw InvalidOperationException
  /\ current a (after_calls a (getEnumerator a) [CallMoveNext; CallReset])
     = Throw InvalidOperationException
  /\ current j (after_calls j (getEnumerator j) [CallMoveNext; CallReset])
     = Ok (1, "a"%string)
  (* before the first moveNext() *)
  /\ current r (getEnumerator r) = Throw InvalidOperationException
  /\ current p (getEnumerator p) = Throw InvalidOperationException
  /\ current a (getEnumerator a) = Throw InvalidOperationException
  (* after moveNext() has answered false *)
  /\ (snd (moveNext r (moveNext_times r 3 (getEnumerator r))) = Ok false
      /\ current r (exhaust r) = Throw InvalidOperationException)
  /\ current p (exhaust p) = Throw InvalidOperationException
  /\ current a (exhaust a) = Throw InvalidOperationException.
Proof.
  cbv zeta. repeat split; reflexivity.
Qed.

(** ** [Hash]: a stored [undefined] *)


(** ** The [first] / [last] / [single] / [elementAt] family *)

Section TerminalFacts.
Context {T : Type}.
Variable this : Enumerable T.
Variable l : list T.
Variable s_end : state this.
Hypothesis this_produces : Produces this (getEnumerator this) l s_end.

Lemma any_loop_list {A : Type} (predicate : A -> T -> A * result bool) :
  forall s l' s', Produces this s l' s' ->
  forall fuel a, (List.length l' < fuel)%nat ->
  any_loop this fuel s predicate a = any_list predicate a l'.
Proof.
  induction 1 as [s s' Hm | s s' x l' s'' Hm Hc Hr Hp IH];
    intros [|fuel] a Hf; simpl in Hf; try lia;
    cbn [any_loop any_list]; rewrite Hm; [reflexivity|].
  rewrite Hc. destruct (predicate a x) as [a' [[|]|e]]; try reflexivity.
  apply IH. lia.
Qed.

Lemma any_is_any_list {A : Type} (predicate : A -> T -> A * result bool) a :
  any this predicate a = any_list predicate a l.
Proof.
  unfold any. apply (any_loop_list predicate this_produces).
  pose proof (produces_length this_produces). lia.
Qed.

Lemma elementAt_any_list : forall (l' : list T) (element : option T) (i : Z),
  any_list (fun (a : option T * Z) item =>
              ((Some item, snd a - 1), Ok (snd a =? 0))) (element, i) l'
  = if (0 <=? i) && (i <? Z.of_nat (List.length l'))
    then ((nth_error l' (Z.to_nat i), -1), Ok true)
    else ((match rev l' with x :: _ => Some x | [] => element end,
           i - Z.of_nat (List.length l')), Ok false).
Proof.
  induction l' as [|x l' IH]; intros element i.
  - cbn [any_list List.length rev].
    replace ((0 <=? i) && (i <? Z.of_nat 0)) with false.
    + f_equal. f_equal. simpl. lia.
    + symmetry. apply andb_false_iff.
      destruct (Z.leb_spec 0 i); [right; apply Z.ltb_ge; simpl; lia|now left].
  - cbn [any_list snd]. destruct (i =? 0) eqn:Hi.
    + apply Z.eqb_eq in Hi. subst i. simpl Z.leb.
      replace (0 <? Z.of_nat (List.length (x :: l'))) with true
        by (symmetry; apply Z.ltb_lt; simpl List.length; lia).
      reflexivity.
    + apply Z.eqb_neq in Hi. rewrite IH.
      destruct (Z.leb_spec 0 i) as [Hge|Hlt].
      * replace (0 <=? i - 1) with true by (symmetry; apply Z.leb_le; lia).
        replace (i <? Z.of_nat (List.length (x :: l')))
          with (i - 1 <? Z.of_nat (List.length l')).
        2:{ simpl List.length. rewrite Nat2Z.inj_succ.
            destruct (Z.ltb_spec (i - 1) (Z.of_nat (List.length l')));
              symmetry; [apply Z.ltb_lt | apply Z.ltb_ge]; lia. }
        cbn [andb].
        destruct (i - 1 <? Z.of_nat (List.length l')).
        -- replace (Z.to_nat i) with (S (Z.to_nat (i - 1))) by lia.
           reflexivity.
        -- f_equal. f_equal.
           ++ cbn [rev]. destruct (rev l'); reflexivity.
           ++ simpl List.length. lia.
      * replace (0 <=? i - 1) with false by (symmetry; apply Z.leb_gt; lia).
        cbn [andb]. f_equal. f_equal.
        -- cbn [rev]. destruct (rev l'); reflexivity.
        -- simpl List.length. lia.
Qed.

Lemma elementAt_list (i : Z) : elementAt this i = list_elementAt i l.
Proof.
  unfold elementAt, list_elementAt.
  rewrite any_is_any_list, elementAt_any_list.
  destruct (Z.leb_spec 0 i) as [Hge|Hlt].
  - replace (i <? 0) with false by (symmetry; apply Z.ltb_ge; lia).
    cbn [andb].
    destruct (Z.ltb_spec i (Z.of_nat (List.length l))) as [Hin|Hout].
    + destruct (nth_error l (Z.to_nat i)) eqn:Hn; [reflexivity|].
      apply nth_error_None in Hn. lia.
    + destruct (nth_error l (Z.to_nat i)) eqn:Hn;
        [|destruct (rev l); reflexivity].
      assert (Z.to_nat i < List.length l)%nat
        by (apply nth_error_Some; congruence).
      lia.
  - replace (i <? 0) with true by (symmetry; apply Z.ltb_lt; lia).
    cbn [andb]. destruct (rev l); reflexivity.
Qed.
Lemma first_list (predicate : option (T -> result bool)) :
  first this predicate = list_first (or_always predicate) l.
Proof.
  destruct predicate as [p|]; unfold first; cbn [or_always].
  - rewrite any_is_any_list. generalize (@None T) as element.
    clear this_produces.
    induction l as [|x l' IH]; intros element; cbn [any_list list_first].
    + destruct element; reflexivity.
    + destruct (p x) as [[|]|e]; cbn [bind];
        [reflexivity | apply IH | destruct element; reflexivity].
  - rewrite elementAt_list. unfold list_elementAt. cbn.
    destruct l; reflexivity.
Qed.

Lemma last_list (predicate : option (T -> result bool)) :
  last this predicate = list_last (or_always predicate) l.
Proof.
  unfold last, list_last. rewrite any_is_any_list.
  generalize (@None T) as found. clear this_produces.
  induction l as [|x l' IH]; intros found; cbn [any_list list_last_from].
  - destruct found; reflexivity.
  - destruct predicate as [p|]; cbn [or_always always bind].
    + destruct (p x) as [[|]|e]; cbn [bind];
        [apply IH | apply IH | destruct found; reflexivity].
    + apply IH.
Qed.

Lemma single_list (predicate : option (T -> result bool)) :
  single this predicate = list_single (or_always predicate) l.
Proof.
  unfold single, list_single.
  inversion this_produces as [s s' Hm | s s' x l' s'' Hm Hc Hr Hp]; subst;
    rewrite Hm; [reflexivity|].
  rewrite Hc. cbn [bind].
  inversion Hp as [t t' Hm2 | t t' y l2 t'' Hm2 Hc2 Hr2 Hp2]; subst;
    rewrite Hm2; [|reflexivity].
  destruct predicate as [p|]; cbn [or_always always bind]; [|reflexivity].
  destruct (p x) as [[|]|e]; reflexivity.
Qed.
End TerminalFacts.




(** ** The sort behind [orderBy] *)

Section SortFacts.
Context {T : Type}.
Variable comparefn : T -> T -> Z.

Lemma sort_insert_perm (x : T) (l : list T) :
  Permutation (x :: l) (sort_insert comparefn x l).
Proof.
  induction l as [|y l IH]; cbn [sort_insert]; [apply Permutation_refl|].
  destruct (comparefn x y <=? 0); [apply Permutation_refl|].
  eapply perm_trans; [apply perm_swap|]. apply perm_skip. exact IH.
Qed.

Lemma Array_sort_perm (l : list T) : Permutation l (Array_sort comparefn l).
Proof.
  induction l as [|x l IH]; [apply perm_nil|].
  unfold Array_sort in *. cbn [fold_right].
  eapply perm_trans; [apply perm_skip; exact IH|]. apply sort_insert_perm.
Qed.

Lemma Array_sort_length (l : list T) :
  List.length (Array_sort comparefn l) = List.length l.
Proof.
  symmetry. apply Permutation_length, Array_sort_perm.
Qed.

(** An order [le] that [comparefn] decides. *)
Variable le : T -> T -> Prop.
Hypothesis le_decided : forall a b, comparefn a b <= 0 <-> le a b.
Hypothesis le_total : forall a b, le a b \/ le b a.
Hypothesis le_trans : forall a b c, le a b -> le b c -> le a c.

Lemma sort_insert_sorted (x : T) (l : list T) :
  StronglySorted le l -> StronglySorted le (sort_insert comparefn x l).
Proof.
  induction 1 as [|y l Hs IH Hall]; cbn [sort_insert].
  - repeat constructor.
  - destruct (Z.leb_spec (comparefn x y) 0) as [Hle|Hgt].
    + apply le_decided in Hle. constructor; [constructor; assumption|].
      constructor; [assumption|].
      eapply Forall_impl; [|exact Hall]. intros z Hz.
      eapply le_trans; eassumption.
    + assert (Hyx : le y x).
      { destruct (le_total x y) as [Hxy|Hyx]; [|assumption].
        apply le_decided in Hxy. lia. }
      constructor; [assumption|].
      eapply Permutation_Forall; [apply sort_insert_perm|].
      constructor; assumption.
Qed.

Lemma Array_sort_sorted (l : list T) :
  StronglySorted le (Array_sort comparefn l).
Proof.
  induction l as [|x l IH]; [constructor|].
  unfold Array_sort in *. cbn [fold_right].
  apply sort_insert_sorted. exact IH.
Qed.

(** Stability: a class of elements that [comparefn] does not put one
    after the other keeps its order. *)
Lemma sort_insert_stable (P : T -> bool) (x : T) (l : list T) :
  (forall a b, P a = true -> P b = true -> comparefn a b <= 0) ->
  List.filter P (sort_insert comparefn x l) = List.filter P (x :: l).
Proof.
  intros Hclass. induction l as [|y l IH]; cbn [sort_insert]; [reflexivity|].
  destruct (Z.leb_spec (comparefn x y) 0) as [Hle|Hgt]; [reflexivity|].
  cbn [List.filter] in *. destruct (P y) eqn:Hy.
  - destruct (P x) eqn:Hx.
    + specialize (Hclass x y Hx Hy). lia.
    + rewrite IH. reflexivity.
  - exact IH.
Qed.

Lemma Array_sort_stable (P : T -> bool) (l : list T) :
  (forall a b, P a = true -> P b = true -> comparefn a b <= 0) ->
  List.filter P (Array_sort comparefn l) = List.filter P l.
Proof.
  intros Hclass. induction l as [|x l IH]; [reflexivity|].
  unfold Array_sort in *. cbn [fold_right].
  rewrite sort_insert_stable by assumption.
  cbn [List.filter]. rewrite IH. reflexivity.
Qed.
End SortFacts.

Lemma Array_sort_ext {T : Type} (f g : T -> T -> Z) (l : list T) :
  (forall a b, f a b = g a b) -> Array_sort f l = Array_sort g l.
Proof.
  intros H. unfold Array_sort.
  induction l as [|x l IH]; [reflexivity|]. cbn [fold_right]. rewrite IH.
  generalize (fold_right (sort_insert g) [] l) as sorted.
  induction sorted as [|y sorted IHs]; [reflexivity|].
  cbn [sort_insert]. rewrite H, IHs. reflexivity.
Qed.

(** ** [orderBy] and [thenBy] *)

Section OrderByFacts.
Context {T : Type}.
Variable this : Enumerable T.
Variable selectors : list (selector_link T).

Let E := orderBy_enumerable this selectors.

Lemma orderBy_follows_cursor (array : list T) i l iend :
  Produces (ArrayEnumerator array) i l iend ->
  Produces E (Some {| ord_array := array; ord_index := i |}) l
    (Some {| ord_array := array; ord_index := iend |}).
Proof.
  induction 1 as [s s' Hm | s s' x l s'' Hm Hc Hr Hp IH].
  - apply Produces_done.
    change (ordered_moveNext {| ord_array := array; ord_index := s |}
            = (Some {| ord_array := array; ord_index := s' |}, Ok false)).
    unfold ordered_moveNext. cbn [ord_array ord_index].
    change (array_moveNext array s) with (moveNext (ArrayEnumerator array) s).
    rewrite Hm. reflexivity.
  - apply Produces_next
      with (s' := Some {| ord_array := array; ord_index := s' |}).
    + change (ordered_moveNext {| ord_array := array; ord_index := s |}
              = (Some {| ord_array := array; ord_index := s' |}, Ok true)).
      unfold ordered_moveNext. cbn [ord_array ord_index].
      change (array_moveNext array s)
        with (moveNext (ArrayEnumerator array) s).
      rewrite Hm. reflexivity.
    + exact Hc.
    + exact Hr.
    + exact IH.
Qed.

Lemma orderBy_produces (array : list T) :
  toArray this = Ok array ->
  let sorted := Array_sort (sort_comparator selectors) array in
  Produces E (getEnumerator E) sorted
    (Some {| ord_array := sorted;
             ord_index := Z.of_nat (List.length sorted) |}).
Proof.
  intros Harray sorted.
  pose proof (orderBy_follows_cursor (array_produces sorted)) as H.
  assert (Hstep : moveNext E None
                  = moveNext E (Some {| ord_array := sorted;
                                        ord_index := -1 |})).
  { change (orderBy_moveNext this selectors None
            = ordered_moveNext {| ord_array := sorted; ord_index := -1 |}).
    unfold orderBy_moveNext, orderBy_lazyInitialize.
    rewrite Harray. reflexivity. }
  assert (Hrest : rest E None
                  = rest E (Some {| ord_array := sorted; ord_index := -1 |})).
  { change (orderBy_rest this None = array_rest sorted (-1)).
    unfold orderBy_rest, array_rest, length_. rewrite Harray.
    unfold sorted. rewrite Array_sort_length. lia. }
  eapply produces_same_start; [exact Hstep | exact Hrest | exact H].
Qed.

Lemma orderBy_toArray (array : list T) :
  toArray this = Ok array ->
  toArray E = Ok (Array_sort (sort_comparator selectors) array).
Proof.
  intros H. unfold toArray.
  rewrite (produces_traverse (orderBy_produces H)). reflexivity.
Qed.
End OrderByFacts.

Section TwoKeysFacts.
Context {T : Type}.
Variables k1 k2 : T -> Z.

Lemma thenBy_comparator (a b : T) :
  sort_comparator
    [mkLink k2 ASCENDING Comparer_compare; mkLink k1 ASCENDING Comparer_compare]
    a b
  = compare_keys k1 k2 a b.
Proof.
  unfold sort_comparator, compare_keys, Comparer_compare, ASCENDING.
  cbn [rev app compare_from link_keySelector link_comparer link_direction].
  destruct (Z.ltb_spec (k1 a) (k1 b)); [reflexivity|].
  destruct (Z.ltb_spec (k1 b) (k1 a)).
  - replace (k1 a >? k1 b) with true by (symmetry; apply Z.gtb_lt; lia).
    reflexivity.
  - replace (k1 a >? k1 b) with false
      by (symmetry; rewrite Z.gtb_ltb; apply Z.ltb_ge; lia).
    cbn [Z.eqb negb].
    destruct (Z.ltb_spec (k2 a) (k2 b)); [reflexivity|].
    destruct (Z.ltb_spec (k2 b) (k2 a)).
    + replace (k2 a >? k2 b) with true by (symmetry; apply Z.gtb_lt; lia).
      reflexivity.
    + replace (k2 a >? k2 b) with false
        by (symmetry; rewrite Z.gtb_ltb; apply Z.ltb_ge; lia).
      reflexivity.
Qed.

Lemma compare_keys_decides (a b : T) :
  compare_keys k1 k2 a b <= 0 <-> keys_le k1 k2 a b.
Proof.
  unfold compare_keys, keys_le.
  destruct (Z.ltb_spec (k1 a) (k1 b)); [split; [tauto|lia]|].
  destruct (Z.ltb_spec (k1 b) (k1 a)); [split; lia|].
  destruct (Z.ltb_spec (k2 a) (k2 b)); [split; lia|].
  destruct (Z.ltb_spec (k2 b) (k2 a)); split; lia.
Qed.

Lemma keys_le_total (a b : T) : keys_le k1 k2 a b \/ keys_le k1 k2 b a.
Proof. unfold keys_le. lia. Qed.

Lemma keys_le_trans (a b c : T) :
  keys_le k1 k2 a b -> keys_le k1 k2 b c -> keys_le k1 k2 a c.
Proof. unfold keys_le. lia. Qed.

Lemma has_keys_class (x y : Z) (a b : T) :
  has_keys k1 k2 x y a = true -> has_keys k1 k2 x y b = true ->
  compare_keys k1 k2 a b <= 0.
Proof.
  unfold has_keys. intros Ha Hb.
  apply andb_true_iff in Ha, Hb. destruct Ha as [Ha1 Ha2], Hb as [Hb1 Hb2].
  apply Z.eqb_eq in Ha1, Ha2, Hb1, Hb2.
  apply compare_keys_decides. unfold keys_le. lia.
Qed.
End TwoKeysFacts.

(** C1. For a source whose elements are [l], the array of
    [orderBy(k1).thenBy(k2)] is [l] sorted by [k1] ascending, then [k2]
    ascending, by the stable sort: it is a rearrangement of [l], every
    element stands before the ones with a greater primary key or an equal
    primary key and a secondary key at least as great, and the elements
    that have both keys in common keep the order they have in [l]. *)
Theorem orderBy_thenBy_sorts_by_both_keys {T : Type} (this : Enumerable T)
    (k1 k2 : T -> Z) (l : list T) :
  toArray this = Ok l ->
  exists sorted : list T,
    toArray (thenBy (orderBy this k1) k2) = Ok sorted
    /\ sorted = Array_sort (compare_keys k1 k2) l
    /\ Permutation l sorted
    /\ StronglySorted (keys_le k1 k2) sorted
    /\ (forall x y : Z,
          List.filter (has_keys k1 k2 x y) sorted
          = List.filter (has_keys k1 k2 x y) l).
Proof.
  intros H. exists (Array_sort (compare_keys k1 k2) l).
  split; [|split; [reflexivity|split; [|split]]].
  - unfold thenBy, orderBy, orderBy_with.
    cbn [ordered ordered_this ordered_selectors app].
    erewrite orderBy_toArray by exact H. f_equal.
    apply Array_sort_ext. apply thenBy_comparator.
  - apply Array_sort_perm.
  - apply Array_sort_sorted with (le := keys_le k1 k2).
    + apply compare_keys_decides.
    + apply keys_le_total.
    + apply keys_le_trans.
  - intros x y. apply Array_sort_stable. apply has_keys_class.
Qed.

(** Witness for C1: pairs sorted by first, then second component; the two
    copies of [(1, 3)] are told apart by a third component. *)
Lemma orderBy_thenBy_sorts_by_both_keys_witness :
  let k1 := fun p : Z * Z * Z => fst (fst p) in
  let k2 := fun p : Z * Z * Z => snd (fst p) in
  let l := [(2, 1, 0); (1, 5, 1); (2, 0, 2); (1, 3, 3); (1, 3, 4)] in
  exists sorted : list (Z * Z * Z),
    toArray (thenBy (orderBy (Enumerable_new l) k1) k2) = Ok sorted
    /\ sorted = Array_sort (compare_keys k1 k2) l
    /\ Permutation l sorted
    /\ StronglySorted (keys_le k1 k2) sorted
    /\ (forall x y : Z,
          List.filter (has_keys k1 k2 x y) sorted
          = List.filter (has_keys k1 k2 x y) l).
Proof.
  intros k1 k2 l.
  apply (@orderBy_thenBy_sorts_by_both_keys _ (Enumerable_new l) k1 k2 l).
  reflexivity.
Defined.

(** ** [Hash] with a comparer: the linear path *)

Section LinearHash.
Context {K V : Type}.
Variable host : Host K V.
Variable equals : K -> K -> bool.

(** A container made by [new Hash(comparer)]. *)
Definition linear (prim : list (string * V)) (items : list (K * V))
  : Hash (K:=K) (V:=V) :=
  {| comparer := Some equals; primitiveItems := prim; complexItems := items |}.

(** The first item whose key the comparer matches with [key]. *)
Definition lfind (items : list (K * V)) (key : K) : option (nat * V) :=
  find_item host (linear [] []) items key O.

Lemma find_item_shift (h : Hash (K:=K) (V:=V)) (items : list (K * V)) key :
  forall n,
  find_item host h items key n
  = match find_item host h items key O with
    | Some (j, b) => Some ((n + j)%nat, b)
    | None => None
    end.
Proof.
  induction items as [|[k v] items IH]; intros n; cbn [find_item].
  - reflexivity.
  - destruct (key_matches host h k key).
    + rewrite Nat.add_0_r. reflexivity.
    + rewrite (IH (S n)), (IH 1%nat).
      destruct (find_item host h items key O) as [[j b]|]; [|reflexivity].
      f_equal. f_equal. lia.
Qed.

Lemma find_item_linear prim items0 (items : list (K * V)) key :
  find_item host (linear prim items0) items key O = lfind items key.
Proof.
  unfold lfind. induction items as [|[k v] items IH]; cbn [find_item].
  - reflexivity.
  - unfold key_matches. cbn [comparer linear].
    destruct (equals k key); [reflexivity|].
    rewrite find_item_shift, IH.
    rewrite (find_item_shift (linear [] []) items key 1).
    reflexivity.
Qed.

Lemma lfind_cons k v (items : list (K * V)) key :
  lfind ((k, v) :: items) key
  = if equals k key then Some (O, v)
    else match lfind items key with
         | Some (j, b) => Some (S j, b)
         | None => None
         end.
Proof.
  unfold lfind. cbn [find_item]. unfold key_matches at 1.
  cbn [comparer linear]. destruct (equals k key); [reflexivity|].
  rewrite find_item_shift. reflexivity.
Qed.

Lemma lfind_set (items : list (K * V)) key v : forall i,
  lfind (set_element items i v) key
  = match lfind items key with
    | Some (j, b) => Some (j, if Nat.eqb j i then v else b)
    | None => None
    end.
Proof.
  induction items as [|[k w] items IH]; intros i.
  - destruct i; reflexivity.
  - destruct i as [|i]; cbn [set_element]; rewrite !lfind_cons.
    + destruct (equals k key); [reflexivity|].
      destruct (lfind items key) as [[j b]|]; reflexivity.
    + destruct (equals k key); [reflexivity|]. rewrite IH.
      destruct (lfind items key) as [[j b]|]; reflexivity.
Qed.

Lemma lfind_app (items : list (K * V)) k v key :
  lfind (items ++ [(k, v)]) key
  = match lfind items key with
    | Some r => Some r
    | None => if equals k key then Some (List.length items, v) else None
    end.
Proof.
  induction items as [|[k' w] items IH]; cbn [app].
  - rewrite lfind_cons. destruct (equals k key); reflexivity.
  - rewrite !lfind_cons. destruct (equals k' key); [reflexivity|].
    rewrite IH. destruct (lfind items key) as [[j b]|]; [reflexivity|].
    destruct (equals k key); reflexivity.
Qed.

Lemma lfind_matches (items : list (K * V)) key i b :
  lfind items key = Some (i, b) ->
  exists k, nth_error items i = Some (k, b) /\ equals k key = true.
Proof.
  revert i. induction items as [|[k w] items IH]; intros i.
  - discriminate.
  - rewrite lfind_cons. destruct (equals k key) eqn:Hk.
    + intros H. injection H as <- <-. exists k. split; [reflexivity|exact Hk].
    + destruct (lfind items key) as [[j c]|]; [|discriminate].
      intros H. injection H as <- <-. apply (IH j). reflexivity.
Qed.

Lemma lfind_first (items : list (K * V)) key i b j k w :
  lfind items key = Some (i, b) ->
  nth_error items j = Some (k, w) -> equals k key = true ->
  (i <= j)%nat.
Proof.
  revert i j. induction items as [|[k' w'] items IH]; intros i j.
  - discriminate.
  - rewrite lfind_cons. destruct (equals k' key) eqn:Hk.
    + intros H _ _. injection H as <- _. lia.
    + destruct (lfind items key) as [[i' c]|] eqn:Hf; [|discriminate].
      intros H Hn He. injection H as <- <-.
      destruct j as [|j]; cbn [nth_error] in Hn.
      * injection Hn as -> _. congruence.
      * apply le_n_S. eapply IH; [reflexivity|exact Hn|exact He].
Qed.

Lemma lfind_none (items : list (K * V)) key j k w :
  lfind items key = None ->
  nth_error items j = Some (k, w) -> equals k key = false.
Proof.
  revert j. induction items as [|[k' w'] items IH]; intros j.
  - destruct j; discriminate.
  - rewrite lfind_cons. destruct (equals k' key) eqn:Hk; [discriminate|].
    destruct (lfind items key) as [[i' c]|] eqn:Hf; [discriminate|].
    intros _ Hn. destruct j as [|j]; cbn [nth_error] in Hn.
    + injection Hn as -> _. exact Hk.
    + eapply IH; [reflexivity|exact Hn].
Qed.
End LinearHash.

Section LinearHashOperations.
Context {K V : Type}.
Variable host : Host K V.
Variable equals : K -> K -> bool.
Variable prim : list (string * V).
Variable items : list (K * V).

Let h := linear equals prim items.

Lemma linear_keyExists key :
  keyExists host h key
  = (h, Ok (match lfind host equals items key with
            | Some _ => true
            | None => false
            end)).
Proof.
  subst h. unfold keyExists, lookUp. cbn [comparer linear andb complexItems].
  rewrite find_item_linear.
  destruct (lfind host equals items key) as [[i b]|]; reflexivity.
Qed.

Lemma linear_get key :
  get host h key
  = (h, match lfind host equals items key with
        | Some (_, b) => Ok b
        | None => Throw HashKeyNotFound
        end).
Proof.
  subst h. unfold get, lookUp. cbn [comparer linear andb complexItems].
  rewrite find_item_linear.
  destruct (lfind host equals items key) as [[i b]|]; reflexivity.
Qed.

Lemma linear_put key v :
  put host h key v false
  = match lfind host equals items key with
    | Some _ => (h, Ok false)
    | None => (linear equals prim (items ++ [(key, v)]), Ok true)
    end.
Proof.
  subst h. unfold put, lookUp. cbn [comparer linear andb complexItems].
  rewrite find_item_linear.
  destruct (lfind host equals items key) as [[i b]|]; reflexivity.
Qed.

Lemma linear_get_and_mutate key grow :
  get_and_mutate host h key grow
  = match lfind host equals items key with
    | Some (i, b) =>
        (linear equals prim (set_element items i (grow b)), Ok (grow b))
    | None => (h, Throw HashKeyNotFound)
    end.
Proof.
  subst h. unfold get_and_mutate, lookUp. cbn [comparer linear andb complexItems].
  rewrite find_item_linear.
  destruct (lfind host equals items key) as [[i b]|]; reflexivity.
Qed.
End LinearHashOperations.

(** ** The buckets of a join *)

Section Buckets.
Context {T2 K : Type}.
Variable host : Host K (list T2).
Variable innerKey : T2 -> K.
Variable equals : K -> K -> bool.
Hypothesis equals_sym : forall a b, equals a b = equals b a.
Hypothesis equals_trans :
  forall a b c, equals a b = true -> equals b c = true -> equals a c = true.

Definition with_key (key : K) (inner : list T2) : list T2 :=
  List.filter (fun i => equals (innerKey i) key) inner.

(** The items hold, for every key, the inner elements seen so far that
    have this key, in the order they came; no bucket is empty. *)
Definition buckets_of (items : list (K * list T2)) (inner : list T2) : Prop :=
  forall key,
    match lfind host equals items key with
    | Some (_, b) => b = with_key key inner /\ b <> []
    | None => with_key key inner = []
    end.

(** What an iteration of [lazyInitialize] does to the items. *)
Definition insert_inner (items : list (K * list T2)) (x : T2)
  : list (K * list T2) :=
  match lfind host equals items (innerKey x) with
  | None => items ++ [(innerKey x, [x])]
  | Some (i, b) => set_element items i (b ++ [x])
  end.

Lemma with_key_app key inner x :
  with_key key (inner ++ [x])
  = with_key key inner ++ (if equals (innerKey x) key then [x] else []).
Proof.
  unfold with_key. rewrite filter_app. reflexivity.
Qed.

Lemma buckets_of_nil : buckets_of [] [].
Proof. intros key. reflexivity. Qed.

Lemma buckets_of_insert items inner x :
  buckets_of items inner ->
  buckets_of (insert_inner items x) (inner ++ [x]).
Proof.
  intros H key. unfold insert_inner. rewrite with_key_app.
  pose proof (H key) as Hkey.
  destruct (lfind host equals items (innerKey x)) as [[i b]|] eqn:Hx.
  - destruct (lfind_matches _ _ _ _ Hx) as (k & Hk & Hkx).
    rewrite lfind_set.
    destruct (lfind host equals items key) as [[j c]|] eqn:Hj.
    + destruct (lfind_matches _ _ _ _ Hj) as (k' & Hk' & Hk'key).
      destruct (Nat.eqb_spec j i) as [->|Hne].
      * assert (k' = k /\ c = b) as [-> ->] by (split; congruence).
        assert (Hm : equals (innerKey x) key = true).
        { apply equals_trans with k; [rewrite equals_sym|]; assumption. }
        rewrite Hm. destruct Hkey as [-> _].
        split; [reflexivity|]. destruct (with_key key inner); discriminate.
      * destruct (equals (innerKey x) key) eqn:Hm.
        -- exfalso. apply Hne. apply Nat.le_antisymm.
           ++ eapply lfind_first; [exact Hj | exact Hk |].
              apply equals_trans with (innerKey x); assumption.
           ++ eapply lfind_first; [exact Hx | exact Hk' |].
              apply equals_trans with key; [|rewrite equals_sym]; assumption.
        -- rewrite app_nil_r. exact Hkey.
    + destruct (equals (innerKey x) key) eqn:Hm.
      * exfalso.
        assert (equals k key = true)
          by (apply equals_trans with (innerKey x); assumption).
        pose proof (@lfind_none _ _ _ _ _ _ _ _ _ Hj Hk). congruence.
      * rewrite app_nil_r. exact Hkey.
  - rewrite lfind_app.
    destruct (lfind host equals items key) as [[j c]|] eqn:Hj.
    + destruct (lfind_matches _ _ _ _ Hj) as (k' & Hk' & Hk'key).
      destruct (equals (innerKey x) key) eqn:Hm.
      * exfalso.
        assert (equals k' (innerKey x) = true)
          by (apply equals_trans with key; [|rewrite equals_sym]; assumption).
        pose proof (@lfind_none _ _ _ _ _ _ _ _ _ Hx Hk'). congruence.
      * rewrite app_nil_r. exact Hkey.
    + destruct (equals (innerKey x) key) eqn:Hm.
      * rewrite Hkey. split; [reflexivity|discriminate].
      * rewrite Hkey. reflexivity.
Qed.
End Buckets.

(** ** [join]: building the hash *)

Section JoinHash.
Context {T1 T2 K : Type}.
Variable host : Host K (list T2).
Variable _this : Enumerable T1.
Variable second : Enumerable T2.
Variable outerKeySelector : T1 -> K.
Variable innerKeySelector : T2 -> K.
Variable equals : K -> K -> bool.

Lemma fill_hash_inserts s l s' :
  Produces second s l s' ->
  forall fuel items, (List.length l < fuel)%nat ->
  fill_hash host second innerKeySelector fuel s (linear equals [] items)
  = (linear equals []
       (fold_left (insert_inner host innerKeySelector equals) l items),
     Ok tt).
Proof.
  induction 1 as [s s' Hm | s s' x l s'' Hm Hc Hr Hp IH];
    intros [|fuel] items Hf; simpl in Hf; try lia;
    cbn [fill_hash fold_left]; rewrite Hm; [reflexivity|].
  rewrite Hc, linear_put. unfold insert_inner.
  destruct (lfind host equals items (innerKeySelector x)) as [[i b]|] eqn:Hx.
  - rewrite linear_get_and_mutate, Hx. apply IH. lia.
  - apply IH. lia.
Qed.

Variable inner : list T2.
Variable second_end : state second.
Hypothesis second_produces :
  Produces second (getEnumerator second) inner second_end.

(** The items of the hash once [lazyInitialize] has run. *)
Definition joined_items : list (K * list T2) :=
  fold_left (insert_inner host innerKeySelector equals) inner [].

Lemma join_lazyInitialize_builds :
  join_lazyInitialize host second innerKeySelector equals
  = (linear equals [] joined_items, Ok tt).
Proof.
  unfold join_lazyInitialize.
  change (Hash_new (Some equals)) with (linear (V:=list T2) equals [] []).
  apply (fill_hash_inserts second_produces).
  pose proof (produces_length second_produces). lia.
Qed.

Hypothesis equals_sym : forall a b, equals a b = equals b a.
Hypothesis equals_trans :
  forall a b c, equals a b = true -> equals b c = true -> equals a c = true.

Lemma joined_items_buckets :
  buckets_of host innerKeySelector equals joined_items inner.
Proof.
  unfold joined_items.
  assert (H : forall l items seen,
             buckets_of host innerKeySelector equals items seen ->
             buckets_of host innerKeySelector equals
               (fold_left (insert_inner host innerKeySelector equals) l items)
               (seen ++ l)).
  { induction l as [|x l IH]; intros items seen Hb; cbn [fold_left].
    - rewrite app_nil_r. exact Hb.
    - replace (seen ++ x :: l) with ((seen ++ [x]) ++ l)
        by (rewrite <- app_assoc; reflexivity).
      apply IH. apply buckets_of_insert; assumption. }
  apply (H inner [] []). apply buckets_of_nil.
Qed.

(** What the hash answers for the key of an outer element. *)
Lemma joined_lookup (o : T1) :
  match lfind host equals joined_items (outerKeySelector o) with
  | Some (_, b) =>
      b = matching outerKeySelector innerKeySelector equals inner o
      /\ b <> []
  | None => matching outerKeySelector innerKeySelector equals inner o = []
  end.
Proof.
  exact (joined_items_buckets (outerKeySelector o)).
Qed.
End JoinHash.

(** ** [groupJoin] *)

Section GroupJoinFacts.
Context {T1 T2 K R : Type}.
Variable host : Host K (list T2).
Variable _this : Enumerable T1.
Variable second : Enumerable T2.
Variable outerKeySelector : T1 -> K.
Variable innerKeySelector : T2 -> K.
Variable equals : K -> K -> bool.
Variable resultSelector : T1 -> Enumerable T2 -> R.
Variable inner : list T2.
Variable second_end : state second.
Hypothesis second_produces :
  Produces second (getEnumerator second) inner second_end.
Hypothesis equals_sym : forall a b, equals a b = equals b a.
Hypothesis equals_trans :
  forall a b c, equals a b = true -> equals b c = true -> equals a c = true.

Let E : Enumerable R :=
  groupJoin_enumerable host _this second outerKeySelector innerKeySelector
    equals resultSelector.
Let items := joined_items host innerKeySelector equals inner.
Let h := linear equals [] items.
Let grouped :=
  group_pairs outerKeySelector innerKeySelector equals
    (fun o array => resultSelector o (Enumerable_new array)).

Lemma groupJoin_moveNext_hash (s : state E) :
  j_hash s = Some h ->
  moveNext E s = groupJoin_step host outerKeySelector s h.
Proof.
  intros H. change (moveNext E s)
    with (with_hash host second innerKeySelector equals
            (groupJoin_step host outerKeySelector) s).
  unfold with_hash. rewrite H. reflexivity.
Qed.

Lemma groupJoin_produces_from (outer : list T1) e e_end :
  Produces _this e outer e_end ->
  forall s : state E, j_hash s = Some h -> j_enumerator s = e ->
  exists s_end : state E,
    Produces E s (grouped outer inner) s_end
    /\ j_hash s_end = Some h /\ j_enumerator s_end = e_end.
Proof.
  induction 1 as [e e' Hm | e e' o outer e'' Hm Hc Hr Hp IH];
    intros s Hh He; subst e.
  - eexists. split; [|split].
    + apply Produces_done. rewrite groupJoin_moveNext_hash by assumption.
      unfold groupJoin_step. rewrite Hm. reflexivity.
    + exact Hh.
    + reflexivity.
  - pose proof (@joined_lookup T1 T2 K host outerKeySelector innerKeySelector
                  equals inner equals_sym equals_trans o) as Hlook.
    fold items in Hlook.
    assert (Hstep : exists s1 : state E,
               moveNext E s = (s1, Ok true)
               /\ current E s1
                  = Ok (resultSelector o
                          (Enumerable_new
                             (matching outerKeySelector innerKeySelector
                                equals inner o)))
               /\ j_hash s1 = Some h /\ j_enumerator s1 = e').
    { rewrite groupJoin_moveNext_hash by assumption.
      unfold groupJoin_step. rewrite Hm, Hc.
      unfold h at 1. rewrite linear_keyExists. fold items.
      destruct (lfind host equals items (outerKeySelector o))
        as [[i b]|] eqn:Hfind.
      - destruct Hlook as [Hb _]. unfold h at 1. rewrite linear_get.
        fold items. rewrite Hfind. eexists. split; [reflexivity|].
        split; [|split; reflexivity].
        cbn. rewrite Hb. reflexivity.
      - eexists. split; [reflexivity|]. split; [|split; reflexivity].
        cbn. rewrite Hlook. reflexivity. }
    destruct Hstep as (s1 & Hs1 & Hcur & Hh1 & He1).
    destruct (IH s1 Hh1 He1) as (s_end & Hprod & Hhe & Hee).
    exists s_end. split; [|split; assumption].
    unfold grouped, group_pairs. cbn [List.map].
    eapply Produces_next; [exact Hs1 | exact Hcur | | exact Hprod].
    change (rest _this (j_enumerator s1) < rest _this (j_enumerator s))%nat.
    rewrite He1. exact Hr.
Qed.

Variable outer : list T1.
Variable this_end : state _this.
Hypothesis this_produces : Produces _this (getEnumerator _this) outer this_end.

Lemma groupJoin_produces :
  exists s_end : state E,
    Produces E (getEnumerator E) (grouped outer inner) s_end.
Proof.
  destruct (groupJoin_produces_from this_produces
              (set_hash (getEnumerator E) (Some h)) eq_refl eq_refl)
    as (s_end & Hprod & _).
  exists s_end.
  eapply produces_same_start; [| |exact Hprod].
  - change (moveNext E (getEnumerator E))
      with (with_hash host second innerKeySelector equals
              (groupJoin_step host outerKeySelector) (getEnumerator E)).
    unfold with_hash. cbn [getEnumerator E groupJoin_enumerable j_hash join_init].
    rewrite (@join_lazyInitialize_builds T2 K host second innerKeySelector
               equals inner second_end second_produces).
    rewrite groupJoin_moveNext_hash by reflexivity. reflexivity.
  - reflexivity.
Qed.

Lemma groupJoin_toArray : toArray E = Ok (grouped outer inner).
Proof.
  destruct groupJoin_produces as (s_end & H).
  unfold toArray. rewrite (produces_traverse H). reflexivity.
Qed.
Lemma groupJoin_second_traversal :
  rewinds _this ->
  exists s1 s2,
    traverse E (getEnumerator E) = (s1, Ok (grouped outer inner))
    /\ j_hash s1 = Some h
    /\ j_hash (reset E s1) = Some h
    /\ traverse E (reset E s1) = (s2, Ok (grouped outer inner)).
Proof.
  intros Hrewinds.
  destruct (groupJoin_produces_from this_produces
              (set_hash (getEnumerator E) (Some h)) eq_refl eq_refl)
    as (s1 & Hprod & Hh & He).
  assert (Hprod1 : Produces E (getEnumerator E) (grouped outer inner) s1).
  { eapply produces_same_start; [| |exact Hprod].
    - change (moveNext E (getEnumerator E))
        with (with_hash host second innerKeySelector equals
                (groupJoin_step host outerKeySelector) (getEnumerator E)).
      unfold with_hash.
      cbn [getEnumerator E groupJoin_enumerable j_hash join_init].
      rewrite (@join_lazyInitialize_builds T2 K host second innerKeySelector
                 equals inner second_end second_produces).
      rewrite groupJoin_moveNext_hash by reflexivity. reflexivity.
    - reflexivity. }
  assert (He' : j_enumerator (reset E s1) = getEnumerator _this).
  { change (reset _this (j_enumerator s1) = getEnumerator _this).
    apply Hrewinds. }
  destruct (groupJoin_produces_from this_produces (reset E s1) Hh He')
    as (s2 & Hprod2 & _).
  exists s1, s2. split; [apply produces_traverse; exact Hprod1|].
  split; [exact Hh|]. split; [exact Hh|].
  apply produces_traverse. exact Hprod2.
Qed.
End GroupJoinFacts.

Lemma number_equals_sym (a b : Z) :
  EqualityComparer_equals a b = EqualityComparer_equals b a.
Proof. apply Z.eqb_sym. Qed.

Lemma number_equals_trans (a b c : Z) :
  EqualityComparer_equals a b = true -> EqualityComparer_equals b c = true ->
  EqualityComparer_equals a c = true.
Proof.
  unfold EqualityComparer_equals. rewrite !Z.eqb_eq. congruence.
Qed.



(** ** [join] *)

Lemma lfind_bucket_size {K V : Type} (host : Host K (list V))
    (equals : K -> K -> bool) (items : list (K * list V)) key i b :
  lfind host equals items key = Some (i, b) ->
  (List.length b <= List.length (List.concat (List.map snd items)))%nat.
Proof.
  intros H. destruct (lfind_matches _ _ _ _ H) as (k & Hk & _).
  clear H. revert i Hk.
  induction items as [|[k' w] items IH]; intros [|i] Hk;
    cbn [nth_error] in Hk; try discriminate;
    cbn [List.map List.concat snd]; rewrite length_app.
  - injection Hk as _ ->. lia.
  - specialize (IH i Hk). lia.
Qed.

Section JoinFacts.
Context {T1 T2 K R : Type}.
Variable host : Host K (list T2).
Variable _this : Enumerable T1.
Variable second : Enumerable T2.
Variable outerKeySelector : T1 -> K.
Variable innerKeySelector : T2 -> K.
Variable equals : K -> K -> bool.
Variable resultSelector : T1 -> T2 -> R.
Variable inner : list T2.
Variable second_end : state second.
Hypothesis second_produces :
  Produces second (getEnumerator second) inner second_end.
Hypothesis equals_sym : forall a b, equals a b = equals b a.
Hypothesis equals_trans :
  forall a b c, equals a b = true -> equals b c = true -> equals a c = true.

Let E : Enumerable R :=
  join_enumerable host _this second outerKeySelector innerKeySelector
    equals resultSelector.
Let items := joined_items host innerKeySelector equals inner.
Let h := linear equals [] items.
Let pairs := join_pairs outerKeySelector innerKeySelector equals resultSelector.
Let found (o : T1) := lfind host equals items (outerKeySelector o).

(** The cursor stands on element [j] of the bucket [b] of [o]. *)
Definition in_bucket (e : state _this) (o : T1) (b : list T2) (j : Z)
  : state E :=
  mkJoin _this (Some h) e true (Some o) (at_index b j) (Some b) j.

(** No element of [secondList] is left behind [index]. *)
Definition bucket_done (s : state E) : Prop :=
  match j_secondList s with
  | None => True
  | Some b => Z.of_nat (List.length b) <= j_index s + 1
  end.

Lemma join_scan_none (outer : list T1) e e_end :
  Produces _this e outer e_end ->
  (forall o, In o outer -> found o = None) ->
  forall fuel (s : state E),
    (List.length outer < fuel)%nat -> j_enumerator s = e ->
    join_scan host outerKeySelector fuel s h
    = (set_enumerator s e_end, Ok (j_hasNext s)).
Proof.
  induction 1 as [e e' Hm | e e' o outer e'' Hm Hc Hr Hp IH];
    intros Hnone [|fuel] s Hf He; simpl in Hf; try lia; subst e;
    cbn [join_scan]; rewrite Hm; [reflexivity|].
  rewrite Hc. cbv zeta. unfold h. rewrite linear_keyExists.
  fold items. fold (found o). rewrite (Hnone o (or_introl eq_refl)).
  fold h. rewrite IH; [reflexivity| |lia|reflexivity].
  intros o' Ho'. apply Hnone. right. exact Ho'.
Qed.

Lemma join_scan_found (pre : list T1) o post i b : forall e e_end,
  Produces _this e (pre ++ o :: post) e_end ->
  (forall p, In p pre -> found p = None) ->
  found o = Some (i, b) ->
  forall fuel (s : state E),
    (List.length (pre ++ o :: post) < fuel)%nat -> j_enumerator s = e ->
    exists e_o,
      Produces _this e_o post e_end
      /\ (rest _this e_o < rest _this e)%nat
      /\ join_scan host outerKeySelector fuel s h
         = (in_bucket e_o o b 0, Ok true).
Proof.
  induction pre as [|p pre IH]; intros e e_end Hprod Hnone Hfound fuel s Hf He;
    cbn [app] in Hprod;
    inversion Hprod as [|e0 e' x l e'' Hm Hc Hr Hp]; subst;
    destruct fuel as [|fuel]; cbn [app List.length] in Hf; try lia;
    cbn [join_scan]; rewrite Hm, Hc; cbv zeta;
    unfold h; rewrite linear_keyExists; fold items.
  - fold (found o). rewrite Hfound. rewrite linear_get.
    fold items. fold (found o). rewrite Hfound.
    exists e'. split; [exact Hp|]. split; [exact Hr|]. reflexivity.
  - fold (found p). rewrite (Hnone p (or_introl eq_refl)). fold h.
    destruct (IH e' e_end Hp (fun q Hq => Hnone q (or_intror Hq)) Hfound
                fuel (set_enumerator s e') ltac:(lia) eq_refl)
      as (e_o & Hpost & Hrest & Hscan).
    exists e_o. split; [exact Hpost|]. split; [lia|exact Hscan].
Qed.

Lemma first_found (outer : list T1) :
  (forall o, In o outer -> found o = None)
  \/ exists pre o post i b,
       outer = pre ++ o :: post
       /\ (forall p, In p pre -> found p = None)
       /\ found o = Some (i, b).
Proof.
  induction outer as [|o outer IH].
  - left. intros o [].
  - destruct (found o) as [[i b]|] eqn:Ho.
    + right. exists [], o, outer, i, b. split; [reflexivity|].
      split; [intros p []|exact Ho].
    + destruct IH as [Hnone | (pre & o' & post & i & b & -> & Hpre & Ho')].
      * left. intros p [<-|Hp]; [exact Ho|apply Hnone; exact Hp].
      * right. exists (o :: pre), o', post, i, b. split; [reflexivity|].
        split; [|exact Ho'].
        intros p [<-|Hp]; [exact Ho|apply Hpre; exact Hp].
Qed.
Lemma pairs_none (outer : list T1) :
  (forall o, In o outer -> found o = None) -> pairs outer inner = [].
Proof.
  induction outer as [|o outer IH]; intros Hnone; [reflexivity|].
  unfold pairs, join_pairs. cbn [flat_map].
  pose proof (@joined_lookup T1 T2 K host outerKeySelector innerKeySelector
                equals inner equals_sym equals_trans o) as Hlook.
  fold items in Hlook. fold (found o) in Hlook.
  rewrite (Hnone o (or_introl eq_refl)) in Hlook. rewrite Hlook.
  apply IH. intros o' Ho'. apply Hnone. right. exact Ho'.
Qed.

Lemma pairs_found pre o post i b :
  (forall p, In p pre -> found p = None) ->
  found o = Some (i, b) ->
  pairs (pre ++ o :: post) inner
  = List.map (resultSelector o) b ++ pairs post inner
  /\ b <> [].
Proof.
  intros Hnone Hfound.
  pose proof (@joined_lookup T1 T2 K host outerKeySelector innerKeySelector
                equals inner equals_sym equals_trans o) as Hlook.
  fold items in Hlook. fold (found o) in Hlook. rewrite Hfound in Hlook.
  destruct Hlook as [Hb Hne]. split; [|exact Hne].
  unfold pairs, join_pairs. rewrite flat_map_app. cbn [flat_map].
  fold (join_pairs outerKeySelector innerKeySelector equals resultSelector
          pre inner).
  fold pairs. rewrite (pairs_none pre Hnone), <- Hb. reflexivity.
Qed.

(** The enumerator has the hash, stands at [e_end] in the outer sequence
    and has no bucket element pending. *)
Definition join_at (e_end : state _this) (s : state E) : Prop :=
  j_hash s = Some h /\ j_enumerator s = e_end /\ bucket_done s.

Lemma join_moveNext_scans (s : state E) e :
  join_at e s ->
  exists s' : state E,
    moveNext E s
    = join_scan host outerKeySelector (S (rest _this e)) s' h
    /\ join_at e s' /\ j_hasNext s' = false.
Proof.
  intros (Hh & He & Hdone).
  change (moveNext E s)
    with (with_hash host second innerKeySelector equals
            (join_step host outerKeySelector) s).
  unfold with_hash. rewrite Hh. unfold join_step, bucket_done in *.
  destruct (j_secondList s) as [b|] eqn:Hb.
  - replace (j_index s + 1 <? Z.of_nat (List.length b)) with false
      by (symmetry; apply Z.ltb_ge; exact Hdone).
    exists (set_hasNext (set_index s (j_index s + 1)) false).
    split; [cbv zeta; cbn [j_enumerator set_hasNext set_index];
            rewrite He; reflexivity|].
    split; [|reflexivity]. split; [exact Hh|]. split; [exact He|].
    unfold bucket_done.
    cbn [j_secondList j_index set_hasNext set_index]. rewrite Hb. lia.
  - exists (set_hasNext s false).
    split; [cbv zeta; cbn [j_enumerator set_hasNext];
            rewrite He; reflexivity|].
    split; [|reflexivity]. split; [exact Hh|]. split; [exact He|].
    unfold bucket_done. cbn [j_secondList set_hasNext]. rewrite Hb. exact I.
Qed.

Lemma join_moveNext_in_bucket e o b j :
  j + 1 < Z.of_nat (List.length b) ->
  moveNext E (in_bucket e o b j) = (in_bucket e o b (j + 1), Ok true).
Proof.
  intros Hj.
  change (moveNext E (in_bucket e o b j))
    with (with_hash host second innerKeySelector equals
            (join_step host outerKeySelector) (in_bucket e o b j)).
  unfold with_hash, in_bucket, join_step. cbn.
  replace (j + 1 <? Z.of_nat (List.length b)) with true
    by (symmetry; apply Z.ltb_lt; exact Hj).
  reflexivity.
Qed.
Lemma skipn_nth (b : list T2) : forall n x,
  nth_error b n = Some x -> skipn n b = x :: skipn (S n) b.
Proof.
  induction b as [|y b IH]; intros [|n] x H; cbn [nth_error] in H;
    try discriminate.
  - injection H as ->. reflexivity.
  - cbn [skipn]. rewrite (IH n x H). reflexivity.
Qed.

Lemma in_bucket_rest e o b j :
  rest E (in_bucket e o b j)
  = (rest _this e * S (hash_size h)
     + Z.to_nat (Z.of_nat (List.length b) - 1 - j))%nat.
Proof. reflexivity. Qed.

Lemma join_bucket_produces e o b (results : list R) e_end :
  (forall s : state E, join_at e s ->
     exists s_end, Produces E s results s_end /\ join_at e_end s_end) ->
  forall k j, 0 <= j ->
    Z.to_nat (Z.of_nat (List.length b) - 1 - j) = k ->
    exists s_end,
      Produces E (in_bucket e o b j)
        (List.map (resultSelector o) (skipn (Z.to_nat (j + 1)) b) ++ results)
        s_end
      /\ join_at e_end s_end.
Proof.
  intros Hafter. induction k as [|k IH]; intros j Hj Hk.
  - rewrite skipn_all2 by lia. cbn [List.map app].
    apply Hafter. split; [reflexivity|]. split; [reflexivity|].
    unfold bucket_done, in_bucket. cbn [j_secondList j_index]. lia.
  - destruct (nth_error b (Z.to_nat (j + 1))) as [x|] eqn:Hx;
      [|apply nth_error_None in Hx; lia].
    rewrite (skipn_nth _ _ Hx). cbn [List.map app].
    destruct (IH (j + 1)) as (s_end & Hprod & Hat); [lia|lia|].
    exists s_end. split; [|exact Hat].
    replace (S (Z.to_nat (j + 1))) with (Z.to_nat (j + 1 + 1)) by lia.
    eapply Produces_next; [apply join_moveNext_in_bucket; lia | | | exact Hprod].
    + change (join_current resultSelector (in_bucket e o b (j + 1))
              = Ok (resultSelector o x)).
      unfold join_current, in_bucket, at_index.
      cbn [j_hasNext j_firstElement j_secondElement negb].
      replace (j + 1 <? 0) with false by (symmetry; apply Z.ltb_ge; lia).
      rewrite Hx. reflexivity.
    + rewrite !in_bucket_rest. lia.
Qed.

Lemma join_produces_nothing (outer : list T1) e e_end (s : state E) :
  Produces _this e outer e_end -> join_at e s ->
  (forall o, In o outer -> found o = None) ->
  exists s_end,
    Produces E s (pairs outer inner) s_end /\ join_at e_end s_end.
Proof.
  intros Hprod Hat Hnone.
  destruct (join_moveNext_scans Hat)
    as (s' & Hmove & (Hh' & He' & Hdone') & Hnext).
  pose proof (produces_length Hprod) as Hbound.
  rewrite (pairs_none outer Hnone).
  exists (set_enumerator s' e_end). split.
  - apply Produces_done. rewrite Hmove.
    rewrite (join_scan_none Hprod Hnone); [|lia|exact He'].
    rewrite Hnext. reflexivity.
  - split; [exact Hh'|]. split; [reflexivity|exact Hdone'].
Qed.

Lemma join_produces_from : forall n (outer : list T1),
  (List.length outer <= n)%nat ->
  forall e e_end, Produces _this e outer e_end ->
  forall s : state E, join_at e s ->
  exists s_end,
    Produces E s (pairs outer inner) s_end /\ join_at e_end s_end.
Proof.
  induction n as [|n IH]; intros outer Hlen e e_end Hprod s Hat;
    destruct (first_found outer)
      as [Hnone | (pre & o & post & i & b & -> & Hpre & Ho)];
    try (apply (join_produces_nothing Hprod Hat Hnone)).
  - rewrite length_app in Hlen. cbn [List.length] in Hlen. lia.
  - destruct (join_moveNext_scans Hat)
      as (s' & Hmove & (Hh' & He' & Hdone') & Hnext).
    pose proof (produces_length Hprod) as Hbound.
    destruct (join_scan_found pre o post Hprod Hpre Ho
                (fuel := S (rest _this e)) s' ltac:(lia) He')
      as (e_o & Hpost & Hrest & Hscan).
    destruct (pairs_found pre o post Hpre Ho) as [Hpairs Hne].
    rewrite Hpairs.
    destruct b as [|x0 b']; [contradiction|]. cbn [List.map app].
    assert (Hlen' : (List.length post <= n)%nat).
    { rewrite length_app in Hlen. cbn [List.length] in Hlen. lia. }
    destruct (join_bucket_produces o (x0 :: b')
                (fun s0 Hs0 => IH post Hlen' e_o e_end Hpost s0 Hs0)
                (k := Z.to_nat (Z.of_nat (List.length (x0 :: b')) - 1 - 0))
                (j := 0) ltac:(lia) eq_refl)
      as (s_end & Hp & Hat_end).
    exists s_end. split; [|exact Hat_end].
    eapply Produces_next; [rewrite Hmove; exact Hscan | reflexivity | |exact Hp].
    rewrite in_bucket_rest.
    destruct Hat as (Hh & He & Hdone).
    change (rest E s)
      with (join_rest host second innerKeySelector equals s).
    unfold join_rest. rewrite Hh, He.
    pose proof (lfind_bucket_size _ _ _ _ Ho) as Hsize.
    fold items in Hsize.
    assert (hash_size h
            = List.length (List.concat (List.map snd items))) as ->
      by (unfold hash_size, h; cbn; lia).
    cbn [List.length] in *. nia.
Qed.


Variable outer : list T1.
Variable this_end : state _this.
Hypothesis this_produces : Produces _this (getEnumerator _this) outer this_end.

(** A fresh enumerator behaves as one that already has the hash. *)
Lemma join_fresh_start :
  moveNext E (getEnumerator E)
  = moveNext E (set_hash (getEnumerator E) (Some h))
  /\ rest E (getEnumerator E) = rest E (set_hash (getEnumerator E) (Some h)).
Proof.
  split.
  - change (with_hash host second innerKeySelector equals
              (join_step host outerKeySelector) (join_init _this T2)
            = with_hash host second innerKeySelector equals
                (join_step host outerKeySelector)
                (set_hash (join_init _this T2) (Some h))).
    unfold with_hash. cbn [j_hash join_init set_hash].
    rewrite (@join_lazyInitialize_builds T2 K host second innerKeySelector
               equals inner second_end second_produces).
    reflexivity.
  - change (join_rest host second innerKeySelector equals
              (join_init _this T2)
            = join_rest host second innerKeySelector equals
                (set_hash (join_init _this T2) (Some h))).
    unfold join_rest. cbn [j_hash join_init set_hash].
    rewrite (@join_lazyInitialize_builds T2 K host second innerKeySelector
               equals inner second_end second_produces).
    reflexivity.
Qed.

Lemma join_produces :
  exists s_end,
    Produces E (getEnumerator E) (pairs outer inner) s_end
    /\ join_at this_end s_end.
Proof.
  destruct (join_produces_from (le_n (List.length outer)) this_produces
              (s := set_hash (getEnumerator E) (Some h)))
    as (s_end & Hprod & Hat).
  { split; [reflexivity|]. split; [reflexivity|exact I]. }
  exists s_end. split; [|exact Hat].
  destruct join_fresh_start as [Hmove Hrest].
  eapply produces_same_start; [exact Hmove | exact Hrest | exact Hprod].
Qed.

Lemma join_toArray : toArray E = Ok (pairs outer inner).
Proof.
  destruct join_produces as (s_end & H & _).
  unfold toArray. rewrite (produces_traverse H). reflexivity.
Qed.
(** After a full traversal and [reset], the hash is the one built by the
    first traversal, and the second traversal hands out the same pairs. *)
Lemma join_second_traversal :
  rewinds _this ->
  exists s1 s2,
    traverse E (getEnumerator E) = (s1, Ok (pairs outer inner))
    /\ j_hash s1 = Some h
    /\ j_hash (reset E s1) = Some h
    /\ traverse E (reset E s1) = (s2, Ok (pairs outer inner)).
Proof.
  intros Hrewinds.
  destruct join_produces as (s1 & Hprod & (Hh & He & Hdone)).
  assert (Hat : join_at (getEnumerator _this) (reset E s1)).
  { split; [exact Hh|]. split; [|exact Hdone].
    change (reset _this (j_enumerator s1) = getEnumerator _this).
    apply Hrewinds. }
  destruct (join_produces_from (le_n (List.length outer)) this_produces Hat)
    as (s2 & Hprod2 & _).
  exists s1, s2. split; [apply produces_traverse; exact Hprod|].
  split; [exact Hh|]. split; [exact Hh|].
  apply produces_traverse. exact Hprod2.
Qed.
End JoinFacts.



(** ** [reset] and a second traversal *)

Section ReplayFacts.
Context {T : Type}.
Variable E : Enumerable T.

Lemma replays_from_start :
  reset E (fst (traverse E (getEnumerator E))) = getEnumerator E ->
  replays E.
Proof.
  intros H. unfold replays. rewrite H. reflexivity.
Qed.

(** Two states with the same bound whose next [moveNext] gives the same
    answer and, when it is [true], leads to the same state. *)
Definition same_first_step (s t : state E) : Prop :=
  rest E s = rest E t
  /\ snd (moveNext E s) = snd (moveNext E t)
  /\ (snd (moveNext E s) = Ok true ->
      fst (moveNext E s) = fst (moveNext E t)).

Lemma same_first_step_traverse (s t : state E) :
  same_first_step s t -> snd (traverse E s) = snd (traverse E t).
Proof.
  intros (Hrest & Hsnd & Hfst). unfold traverse. rewrite <- Hrest.
  cbn [toArray_loop].
  destruct (moveNext E s) as [s' r], (moveNext E t) as [t' r'].
  cbn [fst snd] in *. subst r'.
  destruct r as [[|]|x]; try reflexivity.
  rewrite (Hfst eq_refl). reflexivity.
Qed.

Lemma replays_from_same_first_step :
  same_first_step (reset E (fst (traverse E (getEnumerator E))))
    (getEnumerator E) ->
  replays E.
Proof.
  intros H. unfold replays. apply same_first_step_traverse. exact H.
Qed.

(** What every [moveNext] preserves holds where a traversal ends. *)
Lemma toArray_loop_invariant (Inv : state E -> Prop) :
  (forall s, Inv s -> Inv (fst (moveNext E s))) ->
  forall fuel s array, Inv s -> Inv (fst (toArray_loop E fuel s array)).
Proof.
  intros Hstep. induction fuel as [|fuel IH]; intros s array Hs;
    cbn [toArray_loop]; [exact Hs|].
  pose proof (Hstep s Hs) as Hs'.
  destruct (moveNext E s) as [s' [[|]|x]]; cbn [fst] in Hs'; try exact Hs'.
  destruct (current E s'); [apply IH; exact Hs'|exact Hs'].
Qed.

Lemma traverse_invariant (Inv : state E -> Prop) :
  (forall s, Inv s -> Inv (fst (moveNext E s))) ->
  Inv (getEnumerator E) -> Inv (fst (traverse E (getEnumerator E))).
Proof.
  intros Hstep H0. unfold traverse.
  apply toArray_loop_invariant; assumption.
Qed.
End ReplayFacts.

(** *** Operators without buffer *)

Section ReplayStreaming.
Context {T : Type}.
Variable this : Enumerable T.
Hypothesis this_rewinds : rewinds this.

Lemma select_replays {U : Type} (selector : T -> Z -> U) :
  replays (select this selector).
Proof.
  apply replays_from_start. cbn. unfold select_reset.
  rewrite this_rewinds. reflexivity.
Qed.

Lemma takeWhile_replays (predicate : T -> Z -> bool) :
  replays (takeWhile this predicate).
Proof.
  apply replays_from_start. cbn. unfold takeWhile_reset.
  rewrite this_rewinds. reflexivity.
Qed.

Lemma skipWhile_replays (predicate : T -> Z -> bool) :
  replays (skipWhile this predicate).
Proof.
  apply replays_from_start. cbn. unfold skipWhile_reset.
  rewrite this_rewinds. reflexivity.
Qed.

Lemma concat_replays (second : Enumerable T) :
  rewinds second -> replays (concat this second).
Proof.
  intros Hsecond. apply replays_from_start. cbn. unfold concat_reset.
  rewrite this_rewinds, Hsecond. reflexivity.
Qed.

Lemma where_moveNext_stale (predicate : T -> bool) e c c' hasCurrent :
  let a := @where_moveNext T this predicate (@mkWhere T this e c hasCurrent) in
  let b := @where_moveNext T this predicate (@mkWhere T this e c' false) in
  snd a = snd b /\ (snd a = Ok true -> fst a = fst b).
Proof.
  cbn zeta. unfold where_moveNext.
  cbn [w_itemEnumerator w_current w_hasCurrent].
  destruct (S (rest this e)) as [|fuel]; cbn [where_loop].
  - split; [reflexivity|discriminate].
  - cbn [w_itemEnumerator w_current w_hasCurrent].
    destruct (moveNext this e) as [e' [[|]|x]]; cbn [fst snd].
    + destruct (current this e') as [item|x]; cbn [fst snd].
      * destruct (predicate item); split; reflexivity.
      * split; [reflexivity|discriminate].
    + split; [reflexivity|discriminate].
    + split; [reflexivity|discriminate].
Qed.

Lemma where_replays (predicate : T -> bool) :
  replays (where_ this predicate).
Proof.
  apply replays_from_same_first_step.
  destruct (fst (traverse (where_ this predicate)
                   (getEnumerator (where_ this predicate))))
    as [e c hasCurrent].
  unfold same_first_step.
  change (reset (where_ this predicate) (@mkWhere T this e c hasCurrent))
    with (@mkWhere T this (reset this e) c false).
  rewrite this_rewinds.
  split; [reflexivity|].
  exact (where_moveNext_stale predicate (getEnumerator this) c None false).
Qed.

Lemma selectMany_replays {U R : Type} (collectionSelector : T -> Z -> list U)
    (resultSelector : T -> U -> R) :
  replays (selectMany this collectionSelector resultSelector).
Proof.
  apply replays_from_start. cbn. unfold selectMany_reset.
  rewrite this_rewinds. reflexivity.
Qed.
End ReplayStreaming.

(** *** [distinct]: the hash is emptied *)

Section ReplayDistinct.
Context {T : Type}.
Variable host : Host T bool.
Variable this : Enumerable T.
Variable comparer0 : option (T -> T -> bool).
Hypothesis this_rewinds : rewinds this.

Let E := distinct host this comparer0.

Lemma lookUp_keeps_comparer {K V R : Type} (hst : Host K V)
    (h : Hash (K:=K) (V:=V)) key
    (func : option V -> result (R * option V)) :
  comparer (fst (lookUp hst h key func)) = comparer h.
Proof.
  unfold lookUp.
  destruct (match comparer h with Some _ => false | None => true end
            && is_primitive hst key).
  - destruct (read_property hst (primitiveItems h) (property_name hst key))
      as [v|]; [destruct (is_undefined hst v)|];
      match goal with
      | |- context [match ?r with Ok _ => _ | Throw _ => _ end] =>
          destruct r as [[r0 [w|]]|x]
      end; reflexivity.
  - destruct (find_item hst h (complexItems h) key O) as [[i element]|];
      match goal with
      | |- context [match ?r with Ok _ => _ | Throw _ => _ end] =>
          destruct r as [[r0 [w|]]|x]
      end; reflexivity.
Qed.

Lemma distinct_loop_keeps_comparer fuel : forall s : state E,
  comparer (d_hash (fst (distinct_loop host fuel s)))
  = comparer (d_hash s).
Proof.
  induction fuel as [|fuel IH]; intros s; cbn [distinct_loop];
    [reflexivity|].
  destruct (moveNext this (d_enumerator s)) as [e [[|]|x]];
    try reflexivity.
  destruct (current this e) as [item|x]; [|reflexivity].
  pose proof (lookUp_keeps_comparer host (d_hash s) item
                (fun value =>
                   match value with
                   | None => Ok (true, Some true)
                   | Some _ => Ok (false, None)
                   end)) as Hput.
  change (comparer (fst (put host (d_hash s) item true false))
          = comparer (d_hash s)) in Hput.
  destruct (put host (d_hash s) item true false) as [h' [[|]|x]];
    cbn [fst] in Hput; cbn [fst d_hash]; try exact Hput.
  rewrite IH. exact Hput.
Qed.

Lemma distinct_reset_empties (s : state E) :
  primitiveItems (d_hash (reset E s)) = []
  /\ complexItems (d_hash (reset E s)) = [].
Proof. split; reflexivity. Qed.

Lemma distinct_replays : replays E.
Proof.
  apply replays_from_start.
  assert (Hinv : comparer (d_hash (fst (traverse E (getEnumerator E))))
                 = comparer0).
  { apply (traverse_invariant E
             (fun s : state E => comparer (d_hash s) = comparer0));
      [|reflexivity].
    intros s Hs.
    change (comparer
              (d_hash (fst (distinct_loop host
                              (S (rest this (d_enumerator s))) s)))
            = comparer0).
    rewrite distinct_loop_keeps_comparer. exact Hs. }
  change (@mkDistinct T this
            (reset this
               (d_enumerator (fst (traverse E (getEnumerator E)))))
            (Hash_empty (d_hash (fst (traverse E (getEnumerator E)))))
          = @mkDistinct T this (getEnumerator this) (Hash_new comparer0)).
  rewrite this_rewinds. unfold Hash_empty, Hash_new. rewrite Hinv.
  reflexivity.
Qed.
End ReplayDistinct.

(** *** [orderBy] / [thenBy] and [reverse]: the array is kept *)

Section ReplaySorted.
Context {T : Type}.
Variable this : Enumerable T.
Variable selectors : list (selector_link T).

Let E := orderBy_enumerable this selectors.

Lemma orderBy_first_traversal (array : list T) :
  toArray this = Ok array ->
  let sorted := Array_sort (sort_comparator selectors) array in
  traverse E (getEnumerator E)
  = (Some {| ord_array := sorted;
             ord_index := Z.of_nat (List.length sorted) |}, Ok sorted).
Proof.
  intros H sorted. apply produces_traverse. apply orderBy_produces. exact H.
Qed.

Lemma orderBy_second_traversal (sorted : list T) :
  traverse E (Some {| ord_array := sorted; ord_index := -1 |})
  = (Some {| ord_array := sorted;
             ord_index := Z.of_nat (List.length sorted) |}, Ok sorted).
Proof.
  apply produces_traverse.
  exact (orderBy_follows_cursor this selectors (array_produces sorted)).
Qed.

Lemma orderBy_failed_traversal e :
  toArray this = Throw e ->
  traverse E (getEnumerator E) = (None, Throw e).
Proof.
  intros H. unfold traverse. cbn [toArray_loop].
  change (moveNext E (getEnumerator E))
    with (orderBy_moveNext this selectors None).
  unfold orderBy_moveNext, orderBy_lazyInitialize. rewrite H. reflexivity.
Qed.

Lemma orderBy_replays : replays E.
Proof.
  unfold replays. destruct (toArray this) as [array|e] eqn:H.
  - rewrite (orderBy_first_traversal H). cbn [fst snd].
    change (reset E (Some _))
      with (Some {| ord_array := Array_sort (sort_comparator selectors) array;
                    ord_index := -1 |}).
    rewrite orderBy_second_traversal. reflexivity.
  - rewrite (orderBy_failed_traversal H). cbn [fst].
    change (reset E None) with (getEnumerator E).
    rewrite (orderBy_failed_traversal H). reflexivity.
Qed.
End ReplaySorted.

Section ReplayReversed.
Context {T : Type}.
Variable this : Enumerable T.

Let E := reverse this.

Lemma reverse_follows_cursor (array : list T) i l iend :
  Produces (ArrayEnumerator array) i l iend ->
  Produces E (Some {| ord_array := array; ord_index := i |}) l
    (Some {| ord_array := array; ord_index := iend |}).
Proof.
  induction 1 as [s s' Hm | s s' x l s'' Hm Hc Hr Hp IH].
  - apply Produces_done.
    change (reversed_moveNext {| ord_array := array; ord_index := s |}
            = (Some {| ord_array := array; ord_index := s' |}, Ok false)).
    unfold reversed_moveNext. cbn [ord_array ord_index].
    change (array_moveNext array s) with (moveNext (ArrayEnumerator array) s).
    rewrite Hm. reflexivity.
  - apply Produces_next
      with (s' := Some {| ord_array := array; ord_index := s' |}).
    + change (reversed_moveNext {| ord_array := array; ord_index := s |}
              = (Some {| ord_array := array; ord_index := s' |}, Ok true)).
      unfold reversed_moveNext. cbn [ord_array ord_index].
      change (array_moveNext array s)
        with (moveNext (ArrayEnumerator array) s).
      rewrite Hm. reflexivity.
    + exact Hc.
    + exact Hr.
    + exact IH.
Qed.

Lemma reverse_second_traversal (array : list T) :
  traverse E (Some {| ord_array := array; ord_index := -1 |})
  = (Some {| ord_array := array;
             ord_index := Z.of_nat (List.length array) |}, Ok array).
Proof.
  apply produces_traverse.
  exact (reverse_follows_cursor (array_produces array)).
Qed.

Lemma reverse_first_traversal (array : list T) :
  toArray this = Ok array ->
  traverse E (getEnumerator E)
  = (Some {| ord_array := rev array;
             ord_index := Z.of_nat (List.length (rev array)) |},
     Ok (rev array)).
Proof.
  intros H. rewrite <- reverse_second_traversal.
  unfold traverse.
  replace (rest E (getEnumerator E))
    with (rest E (Some {| ord_array := rev array; ord_index := -1 |})).
  - cbn [toArray_loop].
    replace (moveNext E (getEnumerator E))
      with (moveNext E (Some {| ord_array := rev array; ord_index := -1 |}));
      [reflexivity|].
    change (reversed_moveNext {| ord_array := rev array; ord_index := -1 |}
            = reverse_moveNext this None).
    unfold reverse_moveNext. rewrite H. reflexivity.
  - change (array_rest (rev array) (-1) = reverse_rest this None).
    unfold reverse_rest, array_rest, length_. rewrite H, length_rev. lia.
Qed.

Lemma reverse_failed_traversal e :
  toArray this = Throw e ->
  traverse E (getEnumerator E) = (None, Throw e).
Proof.
  intros H. unfold traverse. cbn [toArray_loop].
  change (moveNext E (getEnumerator E)) with (reverse_moveNext this None).
  unfold reverse_moveNext. rewrite H. reflexivity.
Qed.

Lemma reverse_replays : replays E.
Proof.
  unfold replays. destruct (toArray this) as [array|e] eqn:H.
  - rewrite (reverse_first_traversal H). cbn [fst snd].
    change (reset E (Some _))
      with (Some {| ord_array := rev array; ord_index := -1 |}).
    rewrite reverse_second_traversal. reflexivity.
  - rewrite (reverse_failed_traversal H). cbn [fst].
    change (reset E None) with (getEnumerator E).
    rewrite (reverse_failed_traversal H). reflexivity.
Qed.
End ReplayReversed.

(** *** [groupBy]: the result set is kept *)

Section ReplayGrouped.
Context {T K U R : Type}.
Variable host : Host K (list U).
Variable this : Enumerable T.
Variable keySelector : T -> K.
Variable elementSelector : T -> U.
Variable resultSelector : string + K -> Enumerable U -> R.
Variable comparer0 : K -> K -> bool.

Let E : Enumerable R :=
  groupBy host this keySelector elementSelector resultSelector comparer0.
Let out (current : (string + K) * list U) : R :=
  resultSelector (fst current) (Enumerable_new (snd current)).
Let at_ (resultSet : list ((string + K) * list U)) (i : Z) : state E :=
  mkGroupBy (Some resultSet) i.

Lemma groupBy_produces_from resultSet (n : nat) :
  (n <= List.length resultSet)%nat ->
  Produces E (at_ resultSet (Z.of_nat n - 1))
    (List.map out (skipn n resultSet))
    (at_ resultSet (Z.of_nat (List.length resultSet))).
Proof.
  remember (List.length resultSet - n)%nat as k eqn:Hk.
  revert n Hk. induction k as [|k IH]; intros n Hk Hle.
  - assert (n = List.length resultSet) by lia. subst n.
    rewrite skipn_all. apply Produces_done.
    change (groupBy_moveNext host this keySelector elementSelector comparer0
              (at_ resultSet (Z.of_nat (List.length resultSet) - 1))
            = (at_ resultSet (Z.of_nat (List.length resultSet)), Ok false)).
    unfold groupBy_moveNext, at_. cbn [g_resultSet g_index].
    replace (Z.of_nat (List.length resultSet) - 1 + 1)
      with (Z.of_nat (List.length resultSet)) by lia.
    rewrite Z.ltb_irrefl. reflexivity.
  - destruct (nth_error resultSet n) as [x|] eqn:Hx;
      [|apply nth_error_None in Hx; lia].
    rewrite (skipn_nth _ _ Hx). cbn [List.map].
    apply Produces_next with (s' := at_ resultSet (Z.of_nat (S n) - 1)).
    + change (groupBy_moveNext host this keySelector elementSelector
                comparer0 (at_ resultSet (Z.of_nat n - 1))
              = (at_ resultSet (Z.of_nat (S n) - 1), Ok true)).
      unfold groupBy_moveNext, at_. cbn [g_resultSet g_index].
      replace (Z.of_nat n - 1 + 1) with (Z.of_nat (S n) - 1) by lia.
      replace (Z.of_nat (S n) - 1 <? Z.of_nat (List.length resultSet))
        with true by (symmetry; apply Z.ltb_lt; lia).
      reflexivity.
    + change (groupBy_current resultSelector
                (at_ resultSet (Z.of_nat (S n) - 1)) = Ok (out x)).
      unfold groupBy_current, at_. cbn [g_resultSet g_index].
      replace (Z.of_nat (S n) - 1) with (Z.of_nat n) by lia.
      replace (Z.of_nat n <? 0) with false by (symmetry; apply Z.ltb_ge; lia).
      replace (Z.of_nat n >=? Z.of_nat (List.length resultSet)) with false
        by (symmetry; rewrite Z.geb_leb; apply Z.leb_gt; lia).
      rewrite Nat2Z.id, Hx. reflexivity.
    + change (groupBy_rest host this keySelector elementSelector comparer0
                (at_ resultSet (Z.of_nat (S n) - 1))
              < groupBy_rest host this keySelector elementSelector comparer0
                  (at_ resultSet (Z.of_nat n - 1)))%nat.
      unfold groupBy_rest, at_. cbn [g_resultSet g_index]. lia.
    + apply IH; lia.
Qed.

Lemma groupBy_second_traversal resultSet :
  traverse E (at_ resultSet (-1))
  = (at_ resultSet (Z.of_nat (List.length resultSet)),
     Ok (List.map out resultSet)).
Proof.
  apply produces_traverse.
  exact (groupBy_produces_from resultSet (n:=0) (Nat.le_0_l _)).
Qed.

Lemma groupBy_first_traversal resultSet :
  groupBy_lazyInitialize host this keySelector elementSelector comparer0
  = Ok resultSet ->
  traverse E (getEnumerator E)
  = (at_ resultSet (Z.of_nat (List.length resultSet)),
     Ok (List.map out resultSet)).
Proof.
  intros H. apply produces_traverse.
  eapply produces_same_start;
    [| |exact (groupBy_produces_from resultSet (n:=0) (Nat.le_0_l _))].
  - change (groupBy_moveNext host this keySelector elementSelector comparer0
              (mkGroupBy None (-1))
            = groupBy_moveNext host this keySelector elementSelector
                comparer0 (mkGroupBy (Some resultSet) (-1))).
    unfold groupBy_moveNext. cbn [g_resultSet g_index]. rewrite H.
    reflexivity.
  - change (groupBy_rest host this keySelector elementSelector comparer0
              (mkGroupBy None (-1))
            = groupBy_rest host this keySelector elementSelector comparer0
                (mkGroupBy (Some resultSet) (-1))).
    unfold groupBy_rest. cbn [g_resultSet g_index]. rewrite H. reflexivity.
Qed.

Lemma groupBy_failed_traversal e :
  groupBy_lazyInitialize host this keySelector elementSelector comparer0
  = Throw e ->
  traverse E (getEnumerator E) = (getEnumerator E, Throw e).
Proof.
  intros H. unfold traverse. cbn [toArray_loop].
  change (moveNext E (getEnumerator E))
    with (groupBy_moveNext host this keySelector elementSelector comparer0
            (mkGroupBy None (-1))).
  unfold groupBy_moveNext. cbn [g_resultSet]. rewrite H. reflexivity.
Qed.

Lemma groupBy_replays : replays E.
Proof.
  unfold replays.
  destruct (groupBy_lazyInitialize host this keySelector elementSelector
              comparer0) as [resultSet|e] eqn:H.
  - rewrite (groupBy_first_traversal H). cbn [fst snd].
    change (reset E (at_ resultSet (Z.of_nat (List.length resultSet))))
      with (at_ resultSet (-1)).
    rewrite groupBy_second_traversal. reflexivity.
  - rewrite (groupBy_failed_traversal H). cbn [fst].
    change (reset E (getEnumerator E)) with (getEnumerator E).
    rewrite (groupBy_failed_traversal H). reflexivity.
Qed.
End ReplayGrouped.

(** ** [reset], then a second full traversal *)

Lemma array_rewinds {T : Type} (value : list T) :
  rewinds (Enumerable_new value).
Proof. intros s. reflexivity. Qed.

Section SecondTraversal.
Context {T T2 K U R : Type}.
Variable this second : Enumerable T.
Variable inner : Enumerable T2.
Variable host : Host K (list T2).
Variable outerKeySelector : T -> K.
Variable innerKeySelector : T2 -> K.
Variable comparer : option (K -> K -> bool).
Variable outerElements : list T.
Variable innerElements : list T2.
Variable this_end : state this.
Variable inner_end : state inner.

Let equals := match comparer with Some c => c | None => loose_eq host end.

Hypothesis this_rewinds : rewinds this.
Hypothesis second_rewinds : rewinds second.
Hypothesis equals_sym : forall a b, equals a b = equals b a.
Hypothesis equals_trans :
  forall a b c, equals a b = true -> equals b c = true -> equals a c = true.
Hypothesis this_produces :
  Produces this (getEnumerator this) outerElements this_end.
Hypothesis inner_produces :
  Produces inner (getEnumerator inner) innerElements inner_end.

Lemma orderBy_keeps_array (selectors : list (selector_link T)) :
  replays_keeping (orderBy_enumerable this selectors) cursor_array.
Proof.
  split; [apply orderBy_replays|]. split.
  - intros [c|]; reflexivity.
  - intros l Hl. unfold toArray in Hl.
    destruct (toArray this) as [array|e] eqn:H.
    + erewrite orderBy_first_traversal by exact H. discriminate.
    + erewrite orderBy_failed_traversal in Hl by exact H. discriminate.
Qed.

Lemma reverse_keeps_array : replays_keeping (reverse this) cursor_array.
Proof.
  split; [apply reverse_replays|]. split.
  - intros [c|]; reflexivity.
  - intros l Hl. unfold toArray in Hl.
    destruct (toArray this) as [array|e] eqn:H.
    + erewrite reverse_first_traversal by exact H. discriminate.
    + erewrite reverse_failed_traversal in Hl by exact H. discriminate.
Qed.

Lemma groupBy_keeps_resultSet (hostG : Host K (list U))
    (keySelector : T -> K) (elementSelector : T -> U)
    (resultSelector : string + K -> Enumerable U -> R)
    (comparerG : K -> K -> bool) :
  replays_keeping
    (groupBy hostG this keySelector elementSelector resultSelector comparerG)
    (fun s => g_resultSet s).
Proof.
  split; [apply groupBy_replays|]. split.
  - intros s. reflexivity.
  - intros l Hl. unfold toArray in Hl.
    destruct (groupBy_lazyInitialize hostG this keySelector elementSelector
                comparerG) as [resultSet|e] eqn:H.
    + erewrite groupBy_first_traversal by exact H. discriminate.
    + erewrite groupBy_failed_traversal in Hl by exact H.
      discriminate.
Qed.

Lemma join_keeps_hash (resultSelector : T -> T2 -> R) :
  replays_keeping
    (join host this inner outerKeySelector innerKeySelector resultSelector
       comparer)
    (fun s => j_hash s).
Proof.
  edestruct (@join_second_traversal T T2 K R host this inner
               outerKeySelector innerKeySelector equals resultSelector)
    as (s1 & s2 & H1 & Hh & _ & H2); try eassumption.
  unfold join. fold equals. split; [|split].
  - unfold replays. rewrite H1. cbn [fst snd]. rewrite H2. reflexivity.
  - intros s. reflexivity.
  - intros l _. rewrite H1. cbn [fst]. rewrite Hh. discriminate.
Qed.

Lemma groupJoin_keeps_hash (resultSelector : T -> Enumerable T2 -> R) :
  replays_keeping
    (groupJoin host this inner outerKeySelector innerKeySelector
       resultSelector comparer)
    (fun s => j_hash s).
Proof.
  edestruct (@groupJoin_second_traversal T T2 K R host this inner
               outerKeySelector innerKeySelector equals resultSelector)
    as (s1 & s2 & H1 & Hh & _ & H2); try eassumption.
  unfold groupJoin. fold equals. split; [|split].
  - unfold replays. rewrite H1. cbn [fst snd]. rewrite H2. reflexivity.
  - intros s. reflexivity.
  - intros l _. rewrite H1. cbn [fst]. rewrite Hh. discriminate.
Qed.
End SecondTraversal.



(** [reset] of [join] rewinds the outer enumerator and leaves the cursor
    into the current bucket where it is.  Seen through [takeWhile], which
    stops inside a bucket: over one outer element matching [10], [20] and
    [30], taking while the value is not [20] gives [[10]] on the first
    traversal and [[30; 10]] after [reset].  A [join] is therefore not a
    source that [rewinds]. *)
Example join_reset_inside_a_bucket :
  let j := join (number_host (list (Z * Z))) (Enumerable_new [1])
             (Enumerable_new [(1, 10); (1, 20); (1, 30)])
             (fun o => o) fst (fun o i => snd i) None in
  let E := takeWhile j (fun x _ => negb (x =? 20)) in
  traverse E (getEnumerator E)
  = (fst (traverse E (getEnumerator E)), Ok [10])
  /\ snd (traverse E (reset E (fst (traverse E (getEnumerator E)))))
     = Ok [30; 10].
Proof.
  cbv zeta. split; reflexivity.
Qed.

(* ================================================================== *)
(** * Further properties of the operators *)
(* ================================================================== *)

(** ** What the streaming operators hand out *)

Section IndexedLists.
Context {T U : Type}.

(** [selector(x, i)] for the elements of [l], counting from [i]. *)
Fixpoint map_indexed (selector : T -> Z -> U) (i : Z) (l : list T) : list U :=
  match l with
  | [] => []
  | x :: l => selector x i :: map_indexed selector (i + 1) l
  end.

(** The longest prefix whose elements satisfy [predicate(x, i)]. *)
Fixpoint take_while_indexed (predicate : T -> Z -> bool) (i : Z) (l : list T)
  : list T :=
  match l with
  | [] => []
  | x :: l =>
      if predicate x i then x :: take_while_indexed predicate (i + 1) l
      else []
  end.

(** What is left behind that prefix. *)
Fixpoint drop_while_indexed (predicate : T -> Z -> bool) (i : Z) (l : list T)
  : list T :=
  match l with
  | [] => []
  | x :: l' =>
      if predicate x i then drop_while_indexed predicate (i + 1) l' else l
  end.
End IndexedLists.

Section SelectContents.
Context {T U : Type}.
Variable this : Enumerable T.
Variable selector : T -> Z -> U.

Let E := select this selector.

Lemma select_produces_from e l e' :
  Produces this e l e' ->
  forall i : Z,
    Produces E (mkSelect this e i) (map_indexed selector (i + 1) l)
      (mkSelect this e' (i + Z.of_nat (List.length l) + 1)).
Proof.
  induction 1 as [e e' Hm | e e' x l e'' Hm Hc Hr Hp IH]; intros i.
  - apply Produces_done.
    change (select_moveNext (mkSelect this e i)
            = (mkSelect this e' (i + Z.of_nat 0 + 1), Ok false)).
    unfold select_moveNext. cbn [sel_itemEnumerator sel_index].
    rewrite Hm. f_equal. f_equal. lia.
  - cbn [map_indexed].
    apply Produces_next with (s' := mkSelect this e' (i + 1)).
    + change (select_moveNext (mkSelect this e i)
              = (mkSelect this e' (i + 1), Ok true)).
      unfold select_moveNext. cbn [sel_itemEnumerator sel_index].
      rewrite Hm. reflexivity.
    + change (select_current selector (mkSelect this e' (i + 1))
              = Ok (selector x (i + 1))).
      unfold select_current. cbn [sel_itemEnumerator sel_index].
      rewrite Hc. reflexivity.
    + exact Hr.
    + replace (i + Z.of_nat (List.length (x :: l)) + 1)
        with (i + 1 + Z.of_nat (List.length l) + 1)
        by (cbn [List.length]; lia).
      apply IH.
Qed.
End SelectContents.

(** X1. [select(selector)] hands out [selector(x, i)] for every element
    [x] of the source, in order, [i] being the position of [x] counted
    from 0. *)
Theorem select_maps_with_index {T U : Type} (this : Enumerable T)
    (selector : T -> Z -> U) (l : list T) (s_end : state this) :
  Produces this (getEnumerator this) l s_end ->
  toArray (select this selector) = Ok (map_indexed selector 0 l)
  /\ List.length (map_indexed selector 0 l) = List.length l.
Proof.
  intros H. split.
  - unfold toArray.
    erewrite produces_traverse;
      [reflexivity
      | exact (@select_produces_from T U this selector _ _ _ H (-1))].
  - clear H. generalize 0. induction l as [|x l IH]; intros i;
      cbn [map_indexed List.length]; [reflexivity|].
    rewrite IH. reflexivity.
Qed.

Lemma select_maps_with_index_witness :
  toArray (select (Enumerable_new [10; 20; 30]) (fun x i => x + i))
  = Ok [10; 21; 32].
Proof.
  exact (proj1 (@select_maps_with_index Z Z _ (fun x i => x + i) _ _
                  (array_produces [10; 20; 30]))).
Defined.

Lemma select_produces {T U : Type} (this : Enumerable T)
    (selector : T -> Z -> U) (l : list T) (s_end : state this) :
  Produces this (getEnumerator this) l s_end ->
  exists s', Produces (select this selector)
               (getEnumerator (select this selector))
               (map_indexed selector 0 l) s'.
Proof.
  intros H. eexists.
  exact (@select_produces_from T U this selector _ _ _ H (-1)).
Qed.

Section TakeWhileContents.
Context {T : Type}.
Variable this : Enumerable T.
Variable predicate : T -> Z -> bool.

Let E := takeWhile this predicate.

Lemma takeWhile_produces_from e l e' :
  Produces this e l e' ->
  forall i : Z,
  exists s_end,
    Produces E (mkTakeWhile this e true i)
      (take_while_indexed predicate i l) s_end.
Proof.
  induction 1 as [e e' Hm | e e' x l e'' Hm Hc Hr Hp IH]; intros i.
  - exists (mkTakeWhile this e' false i). apply Produces_done.
    change (moveNext E (mkTakeWhile this e true i))
      with (takeWhile_moveNext predicate (mkTakeWhile this e true i)).
    unfold takeWhile_moveNext. cbn [tw_isOperational tw_enumerator tw_index].
    rewrite Hm. reflexivity.
  - cbn [take_while_indexed]. destruct (predicate x i) eqn:Hx.
    + destruct (IH (i + 1)) as (s_end & Hrec). exists s_end.
      apply Produces_next with (s' := mkTakeWhile this e' true (i + 1)).
      * change (moveNext E (mkTakeWhile this e true i))
          with (takeWhile_moveNext predicate (mkTakeWhile this e true i)).
        unfold takeWhile_moveNext.
        cbn [tw_isOperational tw_enumerator tw_index].
        rewrite Hm, Hc. cbv zeta. rewrite Hx. reflexivity.
      * change (takeWhile_current (mkTakeWhile this e' true (i + 1)) = Ok x).
        unfold takeWhile_current. cbn [tw_isOperational tw_enumerator negb].
        exact Hc.
      * exact Hr.
      * exact Hrec.
    + exists (mkTakeWhile this e' false (i + 1)). apply Produces_done.
      change (moveNext E (mkTakeWhile this e true i))
        with (takeWhile_moveNext predicate (mkTakeWhile this e true i)).
      unfold takeWhile_moveNext.
      cbn [tw_isOperational tw_enumerator tw_index].
      rewrite Hm, Hc. cbv zeta. rewrite Hx. reflexivity.
Qed.

Lemma takeWhile_produces l s_end :
  Produces this (getEnumerator this) l s_end ->
  exists s', Produces E (getEnumerator E) (take_while_indexed predicate 0 l) s'.
Proof.
  intros H. exact (takeWhile_produces_from H 0).
Qed.
End TakeWhileContents.

(** X2. [takeWhile(predicate)] hands out the longest prefix of the source
    whose elements satisfy [predicate(x, i)], [i] counting from 0; nothing
    behind the first refused element is handed out. *)
Theorem takeWhile_takes_prefix {T : Type} (this : Enumerable T)
    (predicate : T -> Z -> bool) (l : list T) (s_end : state this) :
  Produces this (getEnumerator this) l s_end ->
  toArray (takeWhile this predicate) = Ok (take_while_indexed predicate 0 l)
  /\ exists rest_ : list T, l = take_while_indexed predicate 0 l ++ rest_.
Proof.
  intros H. split.
  - destruct (@takeWhile_produces T this predicate l s_end H) as (s' & Hp).
    unfold toArray. rewrite (produces_traverse Hp). reflexivity.
  - clear H. generalize 0. induction l as [|x l IH]; intros i.
    + exists []. reflexivity.
    + cbn [take_while_indexed]. destruct (predicate x i).
      * destruct (IH (i + 1)) as (r & Hr). exists r.
        cbn [app]. rewrite <- Hr. reflexivity.
      * exists (x :: l). reflexivity.
Qed.

Lemma takeWhile_takes_prefix_witness :
  toArray (takeWhile (Enumerable_new [1; 2; 5; 1]) (fun x _ => x <? 3))
  = Ok [1; 2].
Proof.
  exact (proj1 (@takeWhile_takes_prefix Z _ (fun x _ => x <? 3) _ _
                  (array_produces [1; 2; 5; 1]))).
Defined.

Section WhereContents.
Context {T : Type}.
Variable this : Enumerable T.
Variable predicate : T -> bool.

Let E := where_ this predicate.

Lemma where_loop_finds e l e' :
  Produces this e l e' ->
  forall fuel c, (List.length l < fuel)%nat ->
  match List.filter predicate l with
  | [] =>
      exists c',
        @where_loop T this predicate fuel (mkWhere this e c false)
        = (mkWhere this e' c' false, Ok false)
  | x :: post =>
      exists e_x l',
        @where_loop T this predicate fuel (mkWhere this e c false)
        = (mkWhere this e_x (Some x) true, Ok true)
        /\ (rest this e_x < rest this e)%nat
        /\ Produces this e_x l' e'
        /\ List.filter predicate l' = post
        /\ (List.length l' < List.length l)%nat
  end.
Proof.
  induction 1 as [e e' Hm | e e' x l e'' Hm Hc Hr Hp IH];
    intros [|fuel] c Hf; cbn [List.length] in Hf; try lia;
    cbn [where_loop w_itemEnumerator w_current w_hasCurrent List.filter];
    rewrite Hm.
  - exists c. reflexivity.
  - rewrite Hc. destruct (predicate x) eqn:Hx.
    + exists e', l. split; [reflexivity|]. split; [exact Hr|].
      split; [exact Hp|]. split; [reflexivity|]. cbn [List.length]. lia.
    + specialize (IH fuel (Some x) ltac:(lia)).
      destruct (List.filter predicate l) as [|y post].
      * exact IH.
      * destruct IH as (e_x & l' & Hloop & Hrest & Hprod & Hfilter & Hlen).
        exists e_x, l'. split; [exact Hloop|]. split; [lia|].
        split; [exact Hprod|]. split; [exact Hfilter|].
        cbn [List.length]. lia.
Qed.

Lemma where_produces_from : forall n l,
  (List.length l <= n)%nat ->
  forall e e' c hasCurrent,
    Produces this e l e' ->
    exists s_end,
      Produces E (mkWhere this e c hasCurrent) (List.filter predicate l)
        s_end.
Proof.
  induction n as [|n IH]; intros l Hlen e e' c hasCurrent Hprod;
    pose proof (produces_length Hprod) as Hbound;
    pose proof (where_loop_finds Hprod (fuel := S (rest this e)) c
                  ltac:(lia)) as Hloop;
    destruct (List.filter predicate l) as [|x post].
  1,3: destruct Hloop as (c' & Hloop);
       exists (mkWhere this e' c' false); apply Produces_done;
       exact Hloop.
  - destruct Hloop as (e_x & l' & _ & _ & _ & _ & Hl'). lia.
  - destruct Hloop as (e_x & l' & Hloop & Hrest & Hprod' & Hfilter & Hl').
    destruct (IH l' ltac:(lia) e_x e' (Some x) true Hprod')
      as (s_end & Hrec).
    exists s_end. rewrite Hfilter in Hrec.
    eapply Produces_next; [exact Hloop | reflexivity | exact Hrest
                          | exact Hrec].
Qed.

Lemma where_produces l s_end :
  Produces this (getEnumerator this) l s_end ->
  exists s', Produces E (getEnumerator E) (List.filter predicate l) s'.
Proof.
  intros H. exact (where_produces_from (le_n _) None false H).
Qed.
End WhereContents.

(** X3. [where(predicate)] hands out exactly the elements of the source
    that satisfy the predicate, in their original order. *)
Theorem where_filters {T : Type} (this : Enumerable T)
    (predicate : T -> bool) (l : list T) (s_end : state this) :
  Produces this (getEnumerator this) l s_end ->
  toArray (where_ this predicate) = Ok (List.filter predicate l).
Proof.
  intros H.
  destruct (@where_produces T this predicate l s_end H) as (s' & Hp).
  unfold toArray. rewrite (produces_traverse Hp). reflexivity.
Qed.

Lemma where_filters_witness :
  toArray (where_ (Enumerable_new [1; 5; 2; 7; 1]) (fun x => x <? 3))
  = Ok [1; 2; 1].
Proof.
  exact (@where_filters Z _ (fun x => x <? 3) _ _
           (array_produces [1; 5; 2; 7; 1])).
Defined.

Section SkipWhileContents.
Context {T : Type}.
Variable this : Enumerable T.
Variable predicate : T -> Z -> bool.

Let E := skipWhile this predicate.

Lemma skip_loop_stops e l e' :
  Produces this e l e' ->
  forall fuel i, (List.length l < fuel)%nat ->
  match drop_while_indexed predicate i l with
  | [] => exists j, @skip_loop T this predicate fuel e i = (e', j, Ok false)
  | x :: post =>
      exists e_x j,
        @skip_loop T this predicate fuel e i = (e_x, j, Ok true)
        /\ current this e_x = Ok x
        /\ (rest this e_x < rest this e)%nat
        /\ Produces this e_x post e'
  end.
Proof.
  induction 1 as [e e' Hm | e e' x l e'' Hm Hc Hr Hp IH];
    intros [|fuel] i Hf; cbn [List.length] in Hf; try lia;
    cbn [skip_loop drop_while_indexed]; rewrite Hm.
  - exists i. reflexivity.
  - rewrite Hc. destruct (predicate x i) eqn:Hx.
    + specialize (IH fuel (i + 1) ltac:(lia)).
      destruct (drop_while_indexed predicate (i + 1) l) as [|y post].
      * exact IH.
      * destruct IH as (e_x & j & Hloop & Hcur & Hrest & Hprod).
        exists e_x, j. split; [exact Hloop|]. split; [exact Hcur|].
        split; [lia|exact Hprod].
    + exists e', (i + 1). split; [reflexivity|]. split; [exact Hc|].
      split; [exact Hr|exact Hp].
Qed.

(** Once initialized, the enumerator forwards to the source. *)
Lemma skipWhile_forwards e l e' :
  Produces this e l e' ->
  forall i,
    Produces E (mkSkipWhile this e true i) l (mkSkipWhile this e' true i).
Proof.
  induction 1 as [e e' Hm | e e' x l e'' Hm Hc Hr Hp IH]; intros i.
  - apply Produces_done.
    change (moveNext E (mkSkipWhile this e true i))
      with (skipWhile_moveNext predicate (mkSkipWhile this e true i)).
    unfold skipWhile_moveNext.
    cbn [sw_isInitialized sw_enumerator sw_index negb]. rewrite Hm.
    reflexivity.
  - apply Produces_next with (s' := mkSkipWhile this e' true i).
    + change (moveNext E (mkSkipWhile this e true i))
        with (skipWhile_moveNext predicate (mkSkipWhile this e true i)).
      unfold skipWhile_moveNext.
      cbn [sw_isInitialized sw_enumerator sw_index negb]. rewrite Hm.
      reflexivity.
    + exact Hc.
    + exact Hr.
    + apply IH.
Qed.

Lemma skipWhile_produces l s_end :
  Produces this (getEnumerator this) l s_end ->
  exists s', Produces E (getEnumerator E) (drop_while_indexed predicate 0 l) s'.
Proof.
  intros H. pose proof (produces_length H) as Hbound.
  pose proof (skip_loop_stops H (fuel := S (rest this (getEnumerator this)))
                0 ltac:(lia)) as Hloop.
  destruct (drop_while_indexed predicate 0 l) as [|x post].
  - destruct Hloop as (j & Hloop).
    exists (mkSkipWhile this s_end true j). apply Produces_done.
    change (moveNext E (getEnumerator E))
      with (skipWhile_moveNext predicate
              (mkSkipWhile this (getEnumerator this) false 0)).
    unfold skipWhile_moveNext.
    cbn [sw_isInitialized sw_enumerator sw_index negb]. rewrite Hloop.
    reflexivity.
  - destruct Hloop as (e_x & j & Hloop & Hcur & Hrest & Hprod).
    exists (mkSkipWhile this s_end true j).
    apply Produces_next with (s' := mkSkipWhile this e_x true j).
    + change (moveNext E (getEnumerator E))
        with (skipWhile_moveNext predicate
                (mkSkipWhile this (getEnumerator this) false 0)).
      unfold skipWhile_moveNext.
      cbn [sw_isInitialized sw_enumerator sw_index negb]. rewrite Hloop.
      reflexivity.
    + exact Hcur.
    + exact Hrest.
    + apply skipWhile_forwards. exact Hprod.
Qed.
End SkipWhileContents.

(** X4. [skipWhile(predicate)] drops the longest prefix of the source whose
    elements satisfy [predicate(x, i)] and hands out everything behind it,
    including later elements that satisfy the predicate; together with
    [takeWhile] it splits the source. *)
Theorem skipWhile_drops_prefix {T : Type} (this : Enumerable T)
    (predicate : T -> Z -> bool) (l : list T) (s_end : state this) :
  Produces this (getEnumerator this) l s_end ->
  toArray (skipWhile this predicate) = Ok (drop_while_indexed predicate 0 l)
  /\ l = take_while_indexed predicate 0 l ++ drop_while_indexed predicate 0 l.
Proof.
  intros H. split.
  - destruct (@skipWhile_produces T this predicate l s_end H) as (s' & Hp).
    unfold toArray. rewrite (produces_traverse Hp). reflexivity.
  - clear H. generalize 0. induction l as [|x l IH]; intros i;
      cbn [take_while_indexed drop_while_indexed]; [reflexivity|].
    destruct (predicate x i); [|reflexivity].
    cbn [app]. rewrite <- IH. reflexivity.
Qed.

Lemma skipWhile_drops_prefix_witness :
  toArray (skipWhile (Enumerable_new [1; 2; 5; 1]) (fun x _ => x <? 3))
  = Ok [5; 1].
Proof.
  exact (proj1 (@skipWhile_drops_prefix Z _ (fun x _ => x <? 3) _ _
                  (array_produces [1; 2; 5; 1]))).
Defined.

(** ** [take] and [skip] *)

Lemma take_while_below {T : Type} (count : Z) (l : list T) : forall i,
  take_while_indexed (fun _ index => index <? count) i l
  = firstn (Z.to_nat (count - i)) l.
Proof.
  induction l as [|x l IH]; intros i; cbn [take_while_indexed].
  - rewrite firstn_nil. reflexivity.
  - destruct (Z.ltb_spec i count).
    + replace (Z.to_nat (count - i)) with (S (Z.to_nat (count - (i + 1))))
        by lia.
      cbn [firstn]. rewrite IH. reflexivity.
    + replace (Z.to_nat (count - i)) with O by lia. reflexivity.
Qed.

Lemma drop_while_below {T : Type} (count : Z) (l : list T) : forall i,
  drop_while_indexed (fun _ index => index <? count) i l
  = skipn (Z.to_nat (count - i)) l.
Proof.
  induction l as [|x l IH]; intros i; cbn [drop_while_indexed].
  - rewrite skipn_nil. reflexivity.
  - destruct (Z.ltb_spec i count).
    + replace (Z.to_nat (count - i)) with (S (Z.to_nat (count - (i + 1))))
        by lia.
      cbn [skipn]. rewrite IH. reflexivity.
    + replace (Z.to_nat (count - i)) with O by lia. reflexivity.
Qed.

(** X5. [take(count)] hands out the first [count] elements of the source
    (all of them if there are fewer, none if [count] is zero or negative)
    and [skip(count)] the others, so that the two split the source. *)
Theorem take_and_skip_split {T : Type} (this : Enumerable T) (count : Z)
    (l : list T) (s_end : state this) :
  Produces this (getEnumerator this) l s_end ->
  toArray (take this count) = Ok (firstn (Z.to_nat count) l)
  /\ toArray (skip this count) = Ok (skipn (Z.to_nat count) l).
Proof.
  intros H. unfold take, skip. destruct (Z.eqb_spec count 0) as [->|Hne].
  - cbn [Z.to_nat firstn skipn]. split; [reflexivity|].
    unfold toArray. rewrite (produces_traverse H). reflexivity.
  - split.
    + destruct (@takeWhile_produces T this (fun _ index => index <? count)
                  l s_end H) as (s' & Hp).
      unfold toArray. rewrite (produces_traverse Hp). cbn [snd].
      rewrite take_while_below. rewrite Z.sub_0_r. reflexivity.
    + destruct (@skipWhile_produces T this (fun _ index => index <? count)
                  l s_end H) as (s' & Hp).
      unfold toArray. rewrite (produces_traverse Hp). cbn [snd].
      rewrite drop_while_below. rewrite Z.sub_0_r. reflexivity.
Qed.

Lemma take_and_skip_split_witness :
  toArray (take (Enumerable_new [1; 2; 3; 4]) 3) = Ok [1; 2; 3]
  /\ toArray (skip (Enumerable_new [1; 2; 3; 4]) 3) = Ok [4].
Proof.
  exact (@take_and_skip_split Z _ 3 _ _ (array_produces [1; 2; 3; 4])).
Defined.

Section ConcatContents.
Context {T : Type}.
Variable this second : Enumerable T.

Let E := concat this second.

(** The enumerator has swapped to the second sequence. *)
Lemma concat_on_second (e1 : state this) e l e' :
  Produces second e l e' ->
  snd (moveNext second e') = Ok false ->
  exists s_end, Produces E (mkConcat this second e1 e true true) l s_end.
Proof.
  intros H Hstays. induction H as [e e' Hm | e e' x l e'' Hm Hc Hr Hp IH].
  - exists (mkConcat this second e1 (fst (moveNext second e')) true true).
    apply Produces_done.
    change (moveNext E (mkConcat this second e1 e true true))
      with (concat_moveNext (mkConcat this second e1 e true true)).
    unfold concat_moveNext, concat_second.
    cbn [c_onSecond c_secondEnumerator c_firstEnumerator c_canSwap].
    rewrite Hm. cbn [c_onSecond c_secondEnumerator c_firstEnumerator c_canSwap].
    destruct (moveNext second e') as [e3 r]. cbn [snd fst] in *.
    rewrite Hstays. reflexivity.
  - destruct (IH Hstays) as (s_end & Hrec). exists s_end.
    apply Produces_next with (s' := mkConcat this second e1 e' true true).
    + change (moveNext E (mkConcat this second e1 e true true))
        with (concat_moveNext (mkConcat this second e1 e true true)).
      unfold concat_moveNext, concat_second.
      cbn [c_onSecond c_secondEnumerator c_firstEnumerator c_canSwap].
      rewrite Hm. reflexivity.
    + exact Hc.
    + change (0 + rest second e' < 0 + rest second e)%nat. lia.
    + exact Hrec.
Qed.

Lemma concat_produces_from e1 l1 e1' :
  Produces this e1 l1 e1' ->
  forall e2 l2 e2',
    Produces second e2 l2 e2' ->
    snd (moveNext second e2') = Ok false ->
    exists s_end,
      Produces E (mkConcat this second e1 e2 false true) (l1 ++ l2) s_end.
Proof.
  induction 1 as [e e' Hm | e e' x l e'' Hm Hc Hr Hp IH];
    intros e2 l2 e2' H2 Hstays; cbn [app].
  - destruct H2 as [e2 e2' Hm2 | e2 e2' y l2 e2'' Hm2 Hc2 Hr2 Hp2].
    + exists (mkConcat this second e' e2' true true). apply Produces_done.
      change (moveNext E (mkConcat this second e e2 false true))
        with (concat_moveNext (mkConcat this second e e2 false true)).
      unfold concat_moveNext, concat_second.
      cbn [c_onSecond c_secondEnumerator c_firstEnumerator c_canSwap].
      rewrite Hm.
      cbn [c_onSecond c_secondEnumerator c_firstEnumerator c_canSwap].
      rewrite Hm2. reflexivity.
    + destruct (concat_on_second e' Hp2 Hstays) as (s_end & Hrec).
      exists s_end.
      apply Produces_next with (s' := mkConcat this second e' e2' true true).
      * change (moveNext E (mkConcat this second e e2 false true))
          with (concat_moveNext (mkConcat this second e e2 false true)).
        unfold concat_moveNext, concat_second.
        cbn [c_onSecond c_secondEnumerator c_firstEnumerator c_canSwap].
        rewrite Hm.
        cbn [c_onSecond c_secondEnumerator c_firstEnumerator c_canSwap].
        rewrite Hm2. reflexivity.
      * exact Hc2.
      * change (0 + rest second e2' < rest this e + rest second e2)%nat. lia.
      * exact Hrec.
  - destruct (IH e2 l2 e2' H2 Hstays) as (s_end & Hrec). exists s_end.
    apply Produces_next with (s' := mkConcat this second e' e2 false true).
    + change (moveNext E (mkConcat this second e e2 false true))
        with (concat_moveNext (mkConcat this second e e2 false true)).
      unfold concat_moveNext.
      cbn [c_onSecond c_secondEnumerator c_firstEnumerator c_canSwap].
      rewrite Hm. reflexivity.
    + exact Hc.
    + change (rest this e' + rest second e2 < rest this e + rest second e2)%nat.
      lia.
    + exact Hrec.
Qed.

Lemma concat_produces l1 l2 e1' e2' :
  Produces this (getEnumerator this) l1 e1' ->
  Produces second (getEnumerator second) l2 e2' ->
  snd (moveNext second e2') = Ok false ->
  exists s', Produces E (getEnumerator E) (l1 ++ l2) s'.
Proof.
  intros H1 H2 Hstays. exact (concat_produces_from H1 H2 Hstays).
Qed.
End ConcatContents.

(** X6. [concat(second)] hands out the elements of the first sequence
    followed by those of the second.  Its [moveNext] asks the second
    enumerator once more after that one has answered [false]; the second
    enumerator is taken to answer [false] again, as the array adapter
    does. *)
Theorem concat_appends {T : Type} (this second : Enumerable T)
    (l1 l2 : list T) (e1 : state this) (e2 : state second) :
  Produces this (getEnumerator this) l1 e1 ->
  Produces second (getEnumerator second) l2 e2 ->
  snd (moveNext second e2) = Ok false ->
  toArray (concat this second) = Ok (l1 ++ l2).
Proof.
  intros H1 H2 Hstays.
  destruct (@concat_produces T this second l1 l2 e1 e2 H1 H2 Hstays)
    as (s' & Hp).
  unfold toArray. rewrite (produces_traverse Hp). reflexivity.
Qed.

Lemma concat_appends_witness :
  toArray (concat (Enumerable_new [1; 2]) (Enumerable_new [3])) = Ok [1; 2; 3].
Proof.
  exact (@concat_appends Z _ _ _ _ _ _ (array_produces [1; 2])
           (array_produces [3]) eq_refl).
Defined.

(** ** What [distinct] hands out *)

Section FirstOccurrences.
Context {T : Type}.
Variable equals : T -> T -> bool.

(** The elements of [l] that no element already kept matches; [seen] are
    the elements kept so far. *)
Fixpoint first_occurrences (seen l : list T) : list T :=
  match l with
  | [] => []
  | x :: l =>
      if existsb (fun k => equals k x) seen then first_occurrences seen l
      else x :: first_occurrences (seen ++ [x]) l
  end.

Lemma first_occurrences_apart : forall l seen,
  Forall (fun x => existsb (fun k => equals k x) seen = false)
    (first_occurrences seen l)
  /\ ForallOrdPairs (fun a b => equals a b = false)
       (first_occurrences seen l).
Proof.
  induction l as [|x l IH]; intros seen; cbn [first_occurrences].
  - split; constructor.
  - destruct (existsb (fun k => equals k x) seen) eqn:Hx; [apply IH|].
    destruct (IH (seen ++ [x])) as [Hall Hpairs].
    assert (Hsplit : Forall (fun y => existsb (fun k => equals k y) seen = false
                                      /\ equals x y = false)
                       (first_occurrences (seen ++ [x]) l)).
    { eapply Forall_impl; [|exact Hall]. intros y Hy. cbv beta in Hy.
      rewrite existsb_app in Hy. apply orb_false_iff in Hy.
      destruct Hy as [Hs Hxy]. cbn [existsb] in Hxy.
      rewrite orb_false_r in Hxy. split; assumption. }
    split.
    + constructor; [exact Hx|].
      eapply Forall_impl; [|exact Hsplit]. intros y [Hy _]. exact Hy.
    + constructor; [|exact Hpairs].
      eapply Forall_impl; [|exact Hsplit]. intros y [_ Hy]. exact Hy.
Qed.

(** Every element of [l] is matched by an element kept before or at it. *)
Lemma first_occurrences_cover : forall l seen x,
  (forall a, equals a a = true) ->
  In x l ->
  existsb (fun k => equals k x) (seen ++ first_occurrences seen l) = true.
Proof.
  induction l as [|y l IH]; intros seen x Hrefl Hin; [destruct Hin|].
  cbn [first_occurrences].
  destruct (existsb (fun k => equals k y) seen) eqn:Hy.
  - destruct Hin as [<-|Hin].
    + rewrite existsb_app, Hy. reflexivity.
    + apply IH; assumption.
  - replace (seen ++ y :: first_occurrences (seen ++ [y]) l)
      with ((seen ++ [y]) ++ first_occurrences (seen ++ [y]) l)
      by (rewrite <- app_assoc; reflexivity).
    destruct Hin as [<-|Hin].
    + rewrite !existsb_app. cbn [existsb]. rewrite Hrefl.
      rewrite orb_true_r. reflexivity.
    + apply IH; assumption.
Qed.
End FirstOccurrences.

Section DistinctContents.
Context {T : Type}.
Variable host : Host T bool.
Variable this : Enumerable T.
Variable equals : T -> T -> bool.

Let E := distinct host this (Some equals).

(** The hash after the elements [seen] have been handed out. *)
Definition seen_hash (seen : list T) : Hash (K:=T) (V:=bool) :=
  linear equals [] (List.map (fun k => (k, true)) seen).

Lemma lfind_seen (seen : list T) (x : T) :
  match lfind host equals (List.map (fun k => (k, true)) seen) x with
  | Some _ => existsb (fun k => equals k x) seen = true
  | None => existsb (fun k => equals k x) seen = false
  end.
Proof.
  induction seen as [|k seen IH]; [reflexivity|].
  cbn [List.map existsb]. rewrite lfind_cons.
  destruct (equals k x); [reflexivity|]. cbn [orb].
  destruct (lfind host equals (List.map (fun k0 => (k0, true)) seen) x)
    as [[j b]|]; exact IH.
Qed.

Lemma distinct_loop_finds e l e' :
  Produces this e l e' ->
  forall fuel seen, (List.length l < fuel)%nat ->
  match first_occurrences equals seen l with
  | [] =>
      @distinct_loop T host this fuel (mkDistinct this e (seen_hash seen))
      = (mkDistinct this e' (seen_hash seen), Ok false)
  | x :: post =>
      exists e_x l',
        @distinct_loop T host this fuel (mkDistinct this e (seen_hash seen))
        = (mkDistinct this e_x (seen_hash (seen ++ [x])), Ok true)
        /\ current this e_x = Ok x
        /\ (rest this e_x < rest this e)%nat
        /\ Produces this e_x l' e'
        /\ first_occurrences equals (seen ++ [x]) l' = post
        /\ (List.length l' < List.length l)%nat
  end.
Proof.
  induction 1 as [e e' Hm | e e' x l e'' Hm Hc Hr Hp IH];
    intros [|fuel] seen Hf; cbn [List.length] in Hf; try lia;
    cbn [distinct_loop d_enumerator d_hash first_occurrences]; rewrite Hm.
  - reflexivity.
  - rewrite Hc. unfold seen_hash. rewrite linear_put.
    pose proof (lfind_seen seen x) as Hseen.
    destruct (lfind host equals (List.map (fun k => (k, true)) seen) x)
      as [[j b]|]; rewrite Hseen.
    + specialize (IH fuel seen ltac:(lia)).
      destruct (first_occurrences equals seen l) as [|y post].
      * exact IH.
      * destruct IH as (e_x & l' & Hloop & Hcur & Hrest & Hprod & Hfo & Hlen).
        exists e_x, l'. split; [exact Hloop|]. split; [exact Hcur|].
        split; [lia|]. split; [exact Hprod|]. split; [exact Hfo|].
        cbn [List.length]. lia.
    + exists e', l. split.
      * rewrite List.map_app. reflexivity.
      * split; [exact Hc|]. split; [exact Hr|]. split; [exact Hp|].
        split; [reflexivity|]. cbn [List.length]. lia.
Qed.

Lemma distinct_produces_from : forall n l,
  (List.length l <= n)%nat ->
  forall e e' seen,
    Produces this e l e' ->
    exists s_end,
      Produces E (mkDistinct this e (seen_hash seen))
        (first_occurrences equals seen l) s_end.
Proof.
  induction n as [|n IH]; intros l Hlen e e' seen Hprod;
    pose proof (produces_length Hprod) as Hbound;
    pose proof (distinct_loop_finds Hprod (fuel := S (rest this e)) seen
                  ltac:(lia)) as Hloop;
    destruct (first_occurrences equals seen l) as [|x post].
  1,3: exists (mkDistinct this e' (seen_hash seen)); apply Produces_done;
       exact Hloop.
  - destruct Hloop as (e_x & l' & _ & _ & _ & _ & _ & Hl'). lia.
  - destruct Hloop
      as (e_x & l' & Hloop & Hcur & Hrest & Hprod' & Hfo & Hl').
    destruct (IH l' ltac:(lia) e_x e' (seen ++ [x]) Hprod')
      as (s_end & Hrec).
    exists s_end. rewrite Hfo in Hrec.
    eapply Produces_next; [exact Hloop | exact Hcur | exact Hrest
                          | exact Hrec].
Qed.

Lemma distinct_produces l s_end :
  Produces this (getEnumerator this) l s_end ->
  exists s', Produces E (getEnumerator E) (first_occurrences equals [] l) s'.
Proof.
  intros H. exact (distinct_produces_from (le_n _) [] H).
Qed.
End DistinctContents.

(** X7. [distinct(comparer)] hands out, in source order, each element that
    [comparer.equals] matches with no element handed out before.  No two
    elements handed out match, and, the comparer being reflexive, every
    source element is matched by one that is handed out. *)
Theorem distinct_keeps_first_occurrences {T : Type} (host : Host T bool)
    (this : Enumerable T) (equals : T -> T -> bool) (l : list T)
    (s_end : state this) :
  Produces this (getEnumerator this) l s_end ->
  toArray (distinct host this (Some equals))
  = Ok (first_occurrences equals [] l)
  /\ ForallOrdPairs (fun a b => equals a b = false)
       (first_occurrences equals [] l)
  /\ ((forall a, equals a a = true) ->
      forall x, In x l ->
        existsb (fun k => equals k x) (first_occurrences equals [] l) = true).
Proof.
  intros H. split; [|split].
  - destruct (@distinct_produces T host this equals l s_end H) as (s' & Hp).
    unfold toArray. rewrite (produces_traverse Hp). reflexivity.
  - apply first_occurrences_apart.
  - intros Hrefl x Hin.
    exact (first_occurrences_cover equals l [] x Hrefl Hin).
Qed.

Lemma distinct_keeps_first_occurrences_witness :
  toArray (distinct (number_host bool) (Enumerable_new [1; 2; 2; 3; 1])
             (Some EqualityComparer_equals))
  = Ok [1; 2; 3].
Proof.
  exact (proj1 (@distinct_keeps_first_occurrences Z (number_host bool) _
                  EqualityComparer_equals _ _
                  (array_produces [1; 2; 2; 3; 1]))).
Defined.

(** ** [union] *)

(** X8. [union(second, comparer)] hands out the first occurrences, under
    the comparer, of the first sequence followed by the second: an element
    of the second sequence appears only if nothing before it, in either
    sequence, matches it. *)
Theorem union_is_distinct_concat {T : Type} (host : Host T bool)
    (this second : Enumerable T) (comparer : option (T -> T -> bool))
    (l1 l2 : list T) (e1 : state this) (e2 : state second) :
  Produces this (getEnumerator this) l1 e1 ->
  Produces second (getEnumerator second) l2 e2 ->
  snd (moveNext second e2) = Ok false ->
  toArray (union host this second comparer)
  = Ok (first_occurrences
          (match comparer with Some c => c | None => loose_eq host end)
          [] (l1 ++ l2)).
Proof.
  intros H1 H2 Hstays.
  destruct (@concat_produces T this second l1 l2 e1 e2 H1 H2 Hstays)
    as (s' & Hp).
  destruct (@distinct_produces T host (concat this second)
              (match comparer with Some c => c | None => loose_eq host end)
              (l1 ++ l2) s' Hp) as (s'' & Hd).
  unfold union, toArray. rewrite (produces_traverse Hd). reflexivity.
Qed.

Lemma union_is_distinct_concat_witness :
  toArray (union (number_host bool) (Enumerable_new [1; 11; 2])
             (Enumerable_new [12; 3])
             (Some (fun a b => a mod 10 =? b mod 10)))
  = Ok [1; 2; 3].
Proof.
  exact (@union_is_distinct_concat Z (number_host bool) _ _
           (Some (fun a b => a mod 10 =? b mod 10)) _ _ _ _
           (array_produces [1; 11; 2]) (array_produces [12; 3]) eq_refl).
Defined.

(** ** [reverse] *)



(** ** [Enumerable.range] and [Enumerable.repeat] *)

Lemma range_produces_from (start count : Z) (n : nat) (b : bool) :
  (Z.of_nat n <= count) ->
  Produces (range_enumerable start count)
    {| index := Z.of_nat n - 1; hasNext := b |}
    (List.map (fun i => start + Z.of_nat i)
       (seq n (Z.to_nat count - n)))
    {| index := count - 1; hasNext := false |}.
Proof.
  remember (Z.to_nat count - n)%nat as k eqn:Hk.
  revert n b Hk. induction k as [|k IH]; intros n b Hk Hle.
  - apply Produces_done.
    change (counter_moveNext count {| index := Z.of_nat n - 1; hasNext := b |}
            = ({| index := count - 1; hasNext := false |}, Ok false)).
    unfold counter_moveNext. cbn [index].
    replace (Z.of_nat n - 1 <? count - 1) with false
      by (symmetry; apply Z.ltb_ge; lia).
    f_equal. f_equal. lia.
  - cbn [seq List.map].
    apply Produces_next
      with (s' := {| index := Z.of_nat (S n) - 1; hasNext := true |}).
    + change (counter_moveNext count
                {| index := Z.of_nat n - 1; hasNext := b |}
              = ({| index := Z.of_nat (S n) - 1; hasNext := true |}, Ok true)).
      unfold counter_moveNext. cbn [index].
      replace (Z.of_nat n - 1 <? count - 1) with true
        by (symmetry; apply Z.ltb_lt; lia).
      f_equal. f_equal. lia.
    + change (range_current start
                {| index := Z.of_nat (S n) - 1; hasNext := true |}
              = Ok (start + Z.of_nat n)).
      unfold range_current. cbn [hasNext index]. f_equal. lia.
    + change (counter_rest count {| index := Z.of_nat (S n) - 1;
                                    hasNext := true |}
              < counter_rest count {| index := Z.of_nat n - 1;
                                      hasNext := b |})%nat.
      unfold counter_rest. cbn [index]. lia.
    + apply IH; lia.
Qed.

Lemma repeat_produces_from {T : Type} (element : T) (count : Z) (n : nat)
    (b : bool) :
  (Z.of_nat n <= count) ->
  Produces (repeat_enumerable element count)
    {| index := Z.of_nat n - 1; hasNext := b |}
    (List.repeat element (Z.to_nat count - n))
    {| index := count - 1; hasNext := false |}.
Proof.
  remember (Z.to_nat count - n)%nat as k eqn:Hk.
  revert n b Hk. induction k as [|k IH]; intros n b Hk Hle.
  - apply Produces_done.
    change (counter_moveNext count {| index := Z.of_nat n - 1; hasNext := b |}
            = ({| index := count - 1; hasNext := false |}, Ok false)).
    unfold counter_moveNext. cbn [index].
    replace (Z.of_nat n - 1 <? count - 1) with false
      by (symmetry; apply Z.ltb_ge; lia).
    f_equal. f_equal. lia.
  - cbn [List.repeat].
    apply Produces_next
      with (s' := {| index := Z.of_nat (S n) - 1; hasNext := true |}).
    + change (counter_moveNext count
                {| index := Z.of_nat n - 1; hasNext := b |}
              = ({| index := Z.of_nat (S n) - 1; hasNext := true |}, Ok true)).
      unfold counter_moveNext. cbn [index].
      replace (Z.of_nat n - 1 <? count - 1) with true
        by (symmetry; apply Z.ltb_lt; lia).
      f_equal. f_equal. lia.
    + reflexivity.
    + change (counter_rest count {| index := Z.of_nat (S n) - 1;
                                    hasNext := true |}
              < counter_rest count {| index := Z.of_nat n - 1;
                                      hasNext := b |})%nat.
      unfold counter_rest. cbn [index]. lia.
    + apply IH; lia.
Qed.

(** X10. [Enumerable.range(start, count)] raises
    [ArgumentOutOfRangeException] at construction when [count] is negative;
    otherwise it enumerates [start, start + 1, ..., start + count - 1].
    [Enumerable.repeat(element, count)] does the same with [count] copies
    of [element]. *)
Theorem range_and_repeat_contents {T : Type} (start count : Z) (element : T) :
  (count < 0 ->
   (exists e, range start count = Throw (ArgumentOutOfRangeException e))
   /\ exists e, repeat element count = Throw (ArgumentOutOfRangeException e))
  /\ (0 <= count ->
      (exists E, range start count = Ok E
         /\ toArray E
            = Ok (List.map (fun i => start + Z.of_nat i)
                    (seq 0 (Z.to_nat count))))
      /\ exists E, repeat element count = Ok E
           /\ toArray E = Ok (List.repeat element (Z.to_nat count))).
Proof.
  unfold range, repeat. split.
  - intros Hneg.
    replace (count <? 0) with true by (symmetry; apply Z.ltb_lt; lia).
    split; exists None; reflexivity.
  - intros Hpos.
    replace (count <? 0) with false by (symmetry; apply Z.ltb_ge; lia).
    split.
    + eexists. split; [reflexivity|]. unfold toArray.
      pose proof (@range_produces_from start count 0 false ltac:(lia)) as H.
      rewrite Nat.sub_0_r in H.
      exact (f_equal snd (produces_traverse H)).
    + eexists. split; [reflexivity|]. unfold toArray.
      pose proof (@repeat_produces_from T element count 0 false ltac:(lia))
        as H.
      rewrite Nat.sub_0_r in H.
      exact (f_equal snd (produces_traverse H)).
Qed.

Lemma range_and_repeat_contents_witness :
  (exists E, range 5 3 = Ok E /\ toArray E = Ok [5; 6; 7])
  /\ (exists E, repeat 7 2 = Ok E /\ toArray E = Ok [7; 7])
  /\ exists e, range 5 (-1) = Throw (ArgumentOutOfRangeException e).
Proof.
  pose proof (@range_and_repeat_contents Z 5 3 7) as [_ H].
  pose proof (@range_and_repeat_contents Z 5 (-1) 7) as [Hneg _].
  split; [exact (proj1 (H ltac:(lia)))|].
  split; [|exact (proj1 (Hneg ltac:(lia)))].
  pose proof (@range_and_repeat_contents Z 5 2 7) as [_ H2].
  exact (proj2 (H2 ltac:(lia))).
Defined.

(** ** [count], [all], [any], [contains] *)

Section QuantifierFacts.
Context {T : Type}.
Variable this : Enumerable T.

Lemma count_loop_none : forall s l s', Produces this s l s' ->
  forall fuel n, (List.length l < fuel)%nat ->
  count_loop this fuel s None n = Ok (n + Z.of_nat (List.length l)).
Proof.
  induction 1 as [s s' Hm | s s' x l' s'' Hm Hc Hr Hp IH];
    intros [|fuel] n Hf; cbn [List.length] in Hf; try lia;
    cbn [count_loop]; rewrite Hm.
  - cbn [List.length]. f_equal. lia.
  - rewrite IH by lia. f_equal. cbn [List.length]. lia.
Qed.

Lemma count_loop_some (p : T -> bool) : forall s l s', Produces this s l s' ->
  forall fuel n, (List.length l < fuel)%nat ->
  count_loop this fuel s (Some (fun x => Ok (p x))) n
  = Ok (n + Z.of_nat (List.length (List.filter p l))).
Proof.
  induction 1 as [s s' Hm | s s' x l' s'' Hm Hc Hr Hp IH];
    intros [|fuel] n Hf; cbn [List.length] in Hf; try lia;
    cbn [count_loop]; rewrite Hm.
  - cbn [List.filter List.length]. f_equal. lia.
  - rewrite Hc. cbn [bind]. rewrite IH by lia. f_equal.
    cbn [List.filter]. destruct (p x); cbn [List.length]; lia.
Qed.

Lemma all_loop_list (p : T -> result bool) :
  forall s l s', Produces this s l s' ->
  forall fuel, (List.length l < fuel)%nat ->
  all_loop this fuel s p
  = (fix go (l : list T) : result bool :=
       match l with
       | [] => Ok true
       | x :: l => holds <- p x ;; if negb holds then Ok false else go l
       end) l.
Proof.
  induction 1 as [s s' Hm | s s' x l' s'' Hm Hc Hr Hp IH];
    intros [|fuel] Hf; cbn [List.length] in Hf; try lia;
    cbn [all_loop]; rewrite Hm; [reflexivity|].
  rewrite Hc. cbn [bind]. destruct (p x) as [[|]|e]; cbn [negb];
    try reflexivity.
  apply IH. lia.
Qed.
End QuantifierFacts.

(** X11. [count()] is the number of elements of the sequence, and
    [count(predicate)] the number of elements the predicate accepts. *)
Theorem count_is_length {T : Type} (this : Enumerable T) (l : list T)
    (s_end : state this) (p : T -> bool) :
  Produces this (getEnumerator this) l s_end ->
  count this None = Ok (Z.of_nat (List.length l))
  /\ count this (Some (fun x => Ok (p x)))
     = Ok (Z.of_nat (List.length (List.filter p l))).
Proof.
  intros H. pose proof (produces_length H) as Hlen. unfold count. split.
  - rewrite (@count_loop_none T this _ _ _ H) by lia. reflexivity.
  - rewrite (@count_loop_some T this p _ _ _ H) by lia. reflexivity.
Qed.

Lemma count_is_length_witness :
  count (Enumerable_new [1; 5; 2; 7]) None = Ok 4
  /\ count (Enumerable_new [1; 5; 2; 7]) (Some (fun x => Ok (x <? 3)))
     = Ok 2.
Proof.
  exact (@count_is_length Z _ _ _ (fun x => x <? 3)
           (array_produces [1; 5; 2; 7])).
Defined.

(** X12. For a predicate that returns, [all(predicate)] answers whether
    every element satisfies it (true on the empty sequence),
    [any(predicate)] whether some element does, [any()] whether there is an
    element at all, and [contains(value, comparer)] whether some element
    equals the value under the comparer, the element being the comparer's
    first argument. *)
Theorem quantifiers_on_elements {T : Type} (host : Host T bool)
    (this : Enumerable T) (l : list T) (s_end : state this)
    (p : T -> bool) (value : T) (comparer : option (T -> T -> bool)) :
  Produces this (getEnumerator this) l s_end ->
  all this (fun x => Ok (p x)) = Ok (forallb p l)
  /\ any_where this (fun x => Ok (p x)) = Ok (existsb p l)
  /\ any_element this = Ok (match l with [] => false | _ => true end)
  /\ contains this host value comparer
     = Ok (existsb
             (fun item =>
                match comparer with Some c => c | None => loose_eq host end
                  item value) l).
Proof.
  intros H. pose proof (produces_length H) as Hlen.
  assert (Hany : forall q : T -> bool,
             any_where this (fun x => Ok (q x)) = Ok (existsb q l)).
  { intros q. unfold any_where.
    rewrite (@any_is_any_list T this l s_end H).
    clear. induction l as [|x l' IH]; cbn [any_list existsb snd];
      [reflexivity|].
    destruct (q x); cbn [orb snd]; [reflexivity | exact IH]. }
  split; [|split; [apply Hany | split; [|apply Hany]]].
  - unfold all. rewrite (@all_loop_list T this (fun x => Ok (p x)) _ _ _ H) by lia.
    clear. induction l as [|x l' IH]; cbn [forallb bind]; [reflexivity|].
    destruct (p x); cbn [negb andb]; [exact IH | reflexivity].
  - unfold any_element.
    inversion H as [s s' Hm | s s' x l' s'' Hm Hc Hr Hp]; subst;
      rewrite Hm; reflexivity.
Qed.

Lemma quantifiers_on_elements_witness :
  all (Enumerable_new [1; 5; 2]) (fun x => Ok (x <? 3)) = Ok false
  /\ any_where (Enumerable_new [1; 5; 2]) (fun x => Ok (x <? 3)) = Ok true
  /\ any_element (Enumerable_new [1; 5; 2]) = Ok true
  /\ contains (Enumerable_new [1; 5; 2]) (number_host bool) 5 None = Ok true.
Proof.
  exact (@quantifiers_on_elements Z (number_host bool) _ _ _
           (fun x => x <? 3) 5 None (array_produces [1; 5; 2])).
Defined.

(** X13. [any] and [all] stop at the first element that decides the
    answer: once an element satisfies the predicate of [any] (fails the
    predicate of [all]), the predicate is not asked again, so an exception
    it would raise on a later element is never seen. *)
Theorem quantifiers_stop_at_decision {T : Type} (this : Enumerable T)
    (before after : list T) (x : T) (s_end : state this)
    (p : T -> result bool) (decisive : bool) :
  Produces this (getEnumerator this) (before ++ x :: after) s_end ->
  Forall (fun y => p y = Ok (negb decisive)) before ->
  p x = Ok decisive ->
  (decisive = true -> any_where this p = Ok true)
  /\ (decisive = false -> all this p = Ok false).
Proof.
  intros H Hbefore Hx. pose proof (produces_length H) as Hlen. split.
  - intros ->. unfold any_where.
    rewrite (@any_is_any_list T this _ s_end H). clear H Hlen.
    induction Hbefore as [|y before' Hy _ IH]; cbn [app any_list].
    + rewrite Hx. reflexivity.
    + rewrite Hy. cbn [negb]. exact IH.
  - intros ->. unfold all. rewrite (@all_loop_list T this p _ _ _ H) by lia. clear H Hlen.
    induction Hbefore as [|y before' Hy _ IH]; cbn [app bind].
    + rewrite Hx. reflexivity.
    + rewrite Hy. cbn [bind negb]. exact IH.
Qed.

Lemma quantifiers_stop_at_decision_witness :
  any_where (Enumerable_new [1; 5; 9])
    (fun x => if x =? 9 then Throw (Raised 0) else Ok (3 <? x)) = Ok true.
Proof.
  exact (proj1 (@quantifiers_stop_at_decision Z (Enumerable_new [1; 5; 9])
                  [1] [9] 5 _
                  (fun x => if x =? 9 then Throw (Raised 0) else Ok (3 <? x))
                  true (array_produces [1; 5; 9])
                  (Forall_cons 1 eq_refl (Forall_nil _)) eq_refl) eq_refl).
Defined.

(** ** [aggregate], [sum], [max], [min] *)

(** The accumulator function folded over a list, its captured variables
    threaded along. *)
Fixpoint fold_with {T C A : Type} (func : C -> A -> T -> C * result A)
    (c : C) (running : A) (l : list T) : result A :=
  match l with
  | [] => Ok running
  | x :: l =>
      match func c running x with
      | (_, Throw e) => Throw e
      | (c, Ok running) => fold_with func c running l
      end
  end.

Lemma aggregate_loop_list {T C A : Type} (this : Enumerable T)
    (func : C -> A -> T -> C * result A) :
  forall s l s', Produces this s l s' ->
  forall fuel c running, (List.length l < fuel)%nat ->
  aggregate_loop this fuel s func c running = fold_with func c running l.
Proof.
  induction 1 as [s s' Hm | s s' x l' s'' Hm Hc Hr Hp IH];
    intros [|fuel] c running Hf; cbn [List.length] in Hf; try lia;
    cbn [aggregate_loop fold_with]; rewrite Hm; [reflexivity|].
  rewrite Hc. cbn [bind].
  destruct (func c running x) as [c' [running'|e]]; [|reflexivity].
  apply IH. lia.
Qed.

Lemma fold_with_pure {T A : Type} (f : A -> T -> A) (l : list T) :
  forall (c : unit) running,
  fold_with (fun (c : unit) running item => (c, Ok (f running item)))
    c running l
  = Ok (fold_left f l running).
Proof.
  induction l as [|x l' IH]; intros c running; cbn [fold_with fold_left];
    [reflexivity | apply IH].
Qed.

Lemma aggregate_with_list {T C : Type} (this : Enumerable T) (l : list T)
    (s_end : state this) (func : C -> T -> T -> C * result T) (c : C) :
  Produces this (getEnumerator this) l s_end ->
  aggregate_with this func c
  = match l with
    | [] => Throw InvalidOperationException
    | x :: l' => fold_with func c x l'
    end.
Proof.
  intros H. unfold aggregate_with.
  inversion H as [s s' Hm | s s' x l' s'' Hm Hc Hr Hp]; subst;
    rewrite Hm; [reflexivity|].
  rewrite Hc. cbn [bind].
  apply (@aggregate_loop_list T C T this func _ _ _ Hp).
  pose proof (produces_length Hp). lia.
Qed.

Lemma aggregate_seed_with_list {T C A B : Type} (this : Enumerable T)
    (l again : list T) (s_end s_again : state this) (seed : A)
    (func : C -> A -> T -> C * result A) (c : C)
    (resultSelector : A -> result B) :
  Produces this (getEnumerator this) l s_end ->
  Produces this (reset this (fst (moveNext this (getEnumerator this))))
    again s_again ->
  aggregate_seed_with this seed func c resultSelector
  = match l with
    | [] => Throw InvalidOperationException
    | _ :: _ => running <- fold_with func c seed again ;;
                resultSelector running
    end.
Proof.
  intros H Hagain. unfold aggregate_seed_with.
  inversion H as [s s' Hm | s s' x l' s'' Hm Hc Hr Hp]; subst;
    rewrite Hm in *; [reflexivity|].
  cbn [fst] in Hagain. cbv zeta.
  rewrite (@aggregate_loop_list T C A this func _ _ _ Hagain)
    by (pose proof (produces_length Hagain); lia).
  reflexivity.
Qed.

(** X14. [aggregate(func)] raises [InvalidOperationException] on an empty
    sequence; otherwise it folds [func] from the left over the elements
    after the first, the first element being the initial accumulator. *)
Theorem aggregate_folds_from_first {T : Type} (this : Enumerable T)
    (l : list T) (s_end : state this) (f : T -> T -> T) :
  Produces this (getEnumerator this) l s_end ->
  aggregate this (fun running item => Ok (f running item))
  = match l with
    | [] => Throw InvalidOperationException
    | x :: l' => Ok (fold_left f l' x)
    end.
Proof.
  intros H. unfold aggregate.
  rewrite (@aggregate_with_list T unit this l s_end _ tt H).
  destruct l as [|x l']; [reflexivity | apply fold_with_pure].
Qed.

Lemma aggregate_folds_from_first_witness :
  aggregate (Enumerable_new [10; 3; 2])
    (fun running item => Ok (running - item)) = Ok 5.
Proof.
  exact (@aggregate_folds_from_first Z _ _ _ (fun running item => running - item)
           (array_produces [10; 3; 2])).
Defined.

(** X15. [aggregate(seed, func, resultSelector)] raises
    [InvalidOperationException] on an empty sequence although a seed is
    given.  On a non-empty sequence it resets the enumerator it has
    advanced once and applies [resultSelector] to the fold of [func] from
    the seed over what the enumerator hands out after that reset. *)
Theorem aggregate_seed_folds_after_reset {T A B : Type} (this : Enumerable T)
    (l again : list T) (s_end s_again : state this) (seed : A)
    (f : A -> T -> A) (resultSelector : A -> result B) :
  Produces this (getEnumerator this) l s_end ->
  Produces this (reset this (fst (moveNext this (getEnumerator this))))
    again s_again ->
  aggregate_seed this seed (fun running item => Ok (f running item))
    resultSelector
  = match l with
    | [] => Throw InvalidOperationException
    | _ :: _ => resultSelector (fold_left f again seed)
    end.
Proof.
  intros H Hagain. unfold aggregate_seed.
  rewrite (@aggregate_seed_with_list T unit A B this l again s_end s_again
             seed _ tt resultSelector H Hagain).
  destruct l; [reflexivity|]. rewrite fold_with_pure. reflexivity.
Qed.

Lemma aggregate_seed_folds_after_reset_witness :
  aggregate_seed (Enumerable_new [1; 2; 3]) 100
    (fun running item => Ok (running - item)) (fun r => Ok (2 * r))
  = Ok 188
  /\ aggregate_seed (Enumerable_new (@nil Z)) 100
       (fun running item => Ok (running - item)) (fun r => Ok (2 * r))
     = Throw InvalidOperationException.
Proof.
  split.
  - exact (@aggregate_seed_folds_after_reset Z Z Z _ _ _ _ _ 100
             (fun running item => running - item) (fun r => Ok (2 * r))
             (array_produces [1; 2; 3]) (array_produces [1; 2; 3])).
  - exact (@aggregate_seed_folds_after_reset Z Z Z _ _ _ _ _ 100
             (fun running item => running - item) (fun r => Ok (2 * r))
             (array_produces []) (array_produces [])).
Defined.

(** X16. [sum(selector)] raises [InvalidOperationException] on an empty
    sequence (it does not answer 0); on a non-empty sequence whose
    enumerator hands out the same elements after a reset it is the sum of
    the selected values. *)
Theorem sum_adds_selected {T : Type} (this : Enumerable T) (l : list T)
    (s_end s_again : state this) (selector : T -> Z) :
  Produces this (getEnumerator this) l s_end ->
  Produces this (reset this (fst (moveNext this (getEnumerator this))))
    l s_again ->
  sum this (fun x => Ok (selector x))
  = match l with
    | [] => Throw InvalidOperationException
    | _ :: _ => Ok (fold_right Z.add 0 (List.map selector l))
    end.
Proof.
  intros H Hagain. unfold sum, aggregate_seed.
  rewrite (@aggregate_seed_with_list T unit Z Z this l l s_end s_again
             0 _ tt (fun running => Ok running) H Hagain).
  destruct l as [|x0 l0]; [reflexivity|].
  generalize (x0 :: l0) as l'. clear. intros l'.
  assert (Hgen : forall acc,
    fold_with (fun (c : unit) running item =>
                 (c, v <- Ok (selector item) ;; Ok (running + v)))
      tt acc l'
    = Ok (acc + fold_right Z.add 0 (List.map selector l'))).
  { induction l' as [|x l' IH]; intros acc;
      cbn [fold_with bind fold_right List.map].
    - f_equal. lia.
    - rewrite IH. f_equal. lia. }
  rewrite Hgen. reflexivity.
Qed.

Lemma sum_adds_selected_witness :
  sum (Enumerable_new [1; 2; 3]) (fun x => Ok (x * x)) = Ok 14.
Proof.
  exact (@sum_adds_selected Z _ _ _ _ (fun x => x * x)
           (array_produces [1; 2; 3]) (array_produces [1; 2; 3])).
Defined.

Lemma fold_with_extremum (pick : Z -> Z -> Z) (selector : Z -> Z)
    (l : list Z) : forall running,
  fold_with
    (fun (isFirst : bool) running current =>
       match (if isFirst then Ok (selector running) else Ok running) with
       | Throw x => (isFirst, Throw x)
       | Ok running =>
           (false, v <- Ok (selector current) ;; Ok (pick running v))
       end) false running l
  = Ok (fold_left pick (List.map selector l) running).
Proof.
  induction l as [|x l' IH]; intros running;
    cbn [fold_with bind fold_left List.map]; [reflexivity | apply IH].
Qed.

Lemma fold_left_max_bounds (l : list Z) : forall m,
  Forall (fun y => y <= fold_left Z.max l m) (m :: l)
  /\ In (fold_left Z.max l m) (m :: l).
Proof.
  induction l as [|x l' IH]; intros m; cbn [fold_left].
  - split; [constructor; [lia | constructor] | left; reflexivity].
  - destruct (IH (Z.max m x)) as [Hall Hin].
    inversion Hall as [|? ? Hhd Htl]; subst. split.
    + constructor; [lia|]. constructor; [lia | exact Htl].
    + destruct Hin as [Heq|Hin].
      * destruct (Z.max_spec m x) as [[_ Hmax]|[_ Hmax]].
        -- right. left. congruence.
        -- left. congruence.
      * right. right. exact Hin.
Qed.

Lemma fold_left_min_bounds (l : list Z) : forall m,
  Forall (fun y => fold_left Z.min l m <= y) (m :: l)
  /\ In (fold_left Z.min l m) (m :: l).
Proof.
  induction l as [|x l' IH]; intros m; cbn [fold_left].
  - split; [constructor; [lia | constructor] | left; reflexivity].
  - destruct (IH (Z.min m x)) as [Hall Hin].
    inversion Hall as [|? ? Hhd Htl]; subst. split.
    + constructor; [lia|]. constructor; [lia | exact Htl].
    + destruct Hin as [Heq|Hin].
      * destruct (Z.min_spec m x) as [[_ Hmin]|[_ Hmin]].
        -- left. congruence.
        -- right. left. congruence.
      * right. right. exact Hin.
Qed.

(** X17. [max(selector)] and [min(selector)] raise
    [InvalidOperationException] on an empty sequence.  On a sequence of one
    element they return that element itself, the selector not being
    applied.  On a longer sequence they return the greatest (least) of the
    selected values. *)
Theorem max_min_of_selected (this : Enumerable Z) (l : list Z)
    (s_end : state this) (selector : Z -> Z) :
  Produces this (getEnumerator this) l s_end ->
  match l with
  | [] => max this (fun x => Ok (selector x)) = Throw InvalidOperationException
          /\ min this (fun x => Ok (selector x))
             = Throw InvalidOperationException
  | [x] => max this (fun x => Ok (selector x)) = Ok x
           /\ min this (fun x => Ok (selector x)) = Ok x
  | _ => exists hi lo,
           max this (fun x => Ok (selector x)) = Ok hi
           /\ min this (fun x => Ok (selector x)) = Ok lo
           /\ In hi (List.map selector l) /\ In lo (List.map selector l)
           /\ Forall (fun x => lo <= selector x <= hi) l
  end.
Proof.
  intros H. unfold max, min, extremum.
  rewrite !(@aggregate_with_list Z bool this l s_end _ true H).
  destruct l as [|x [|y l']]; [split; reflexivity | split; reflexivity|].
  cbn [fold_with bind].
  pose proof (fold_with_extremum Z.max selector l'
                (Z.max (selector x) (selector y))) as Hhi.
  pose proof (fold_with_extremum Z.min selector l'
                (Z.min (selector x) (selector y))) as Hlo.
  cbn [bind] in Hhi, Hlo. rewrite Hhi, Hlo. clear Hhi Hlo.
  exists (fold_left Z.max (List.map selector (y :: l')) (selector x)),
         (fold_left Z.min (List.map selector (y :: l')) (selector x)).
  destruct (fold_left_max_bounds (List.map selector (y :: l')) (selector x))
    as [Hmax Hin_max].
  destruct (fold_left_min_bounds (List.map selector (y :: l')) (selector x))
    as [Hmin Hin_min].
  repeat split; try reflexivity; try assumption.
  change (selector x :: List.map selector (y :: l'))
    with (List.map selector (x :: y :: l')) in Hmax, Hmin.
  rewrite Forall_map in Hmax, Hmin.
  rewrite Forall_forall in *. intros z Hz.
  specialize (Hmax z Hz). specialize (Hmin z Hz). cbv beta in *. lia.
Qed.

Lemma max_min_of_selected_witness :
  max (Enumerable_new [3]) (fun x => Ok (- x)) = Ok 3
  /\ min (Enumerable_new [3]) (fun x => Ok (- x)) = Ok 3.
Proof.
  exact (@max_min_of_selected _ _ _ (fun x => - x) (array_produces [3])).
Defined.

(** ** [defaultIfEmpty] *)



(** ** [elementAt], [first], [last], [single] *)

(** X19. [elementAt(index)] returns the element at a position inside the
    sequence, counted from 0, and raises [ArgumentOutOfRangeException]
    naming [index] for a negative index or one at or beyond the length. *)
Theorem elementAt_in_and_out_of_range {T : Type} (this : Enumerable T)
    (l : list T) (s_end : state this) (i : Z) :
  Produces this (getEnumerator this) l s_end ->
  (0 <= i < Z.of_nat (List.length l) ->
   exists x, nth_error l (Z.to_nat i) = Some x /\ elementAt this i = Ok x)
  /\ (i < 0 \/ Z.of_nat (List.length l) <= i ->
      elementAt this i
      = Throw (ArgumentOutOfRangeException (Some "index"%string))).
Proof.
  intros H. rewrite (@elementAt_list T this l s_end H).
  unfold list_elementAt. split.
  - intros Hin.
    replace (i <? 0) with false by (symmetry; apply Z.ltb_ge; lia).
    destruct (nth_error l (Z.to_nat i)) as [x|] eqn:Hn.
    + exists x. split; reflexivity.
    + apply nth_error_None in Hn. lia.
  - intros [Hneg|Hbig].
    + replace (i <? 0) with true by (symmetry; apply Z.ltb_lt; lia).
      reflexivity.
    + destruct (i <? 0); [reflexivity|].
      destruct (nth_error l (Z.to_nat i)) as [x|] eqn:Hn; [|reflexivity].
      assert (Z.to_nat i < List.length l)%nat
        by (apply nth_error_Some; congruence).
      lia.
Qed.

Lemma elementAt_in_and_out_of_range_witness :
  (exists x, nth_error [4; 5; 6] (Z.to_nat 1) = Some x
             /\ elementAt (Enumerable_new [4; 5; 6]) 1 = Ok x)
  /\ elementAt (Enumerable_new [4; 5; 6]) 3
     = Throw (ArgumentOutOfRangeException (Some "index"%string)).
Proof.
  split.
  - exact (proj1 (@elementAt_in_and_out_of_range Z _ _ _ 1
                    (array_produces [4; 5; 6])) ltac:(cbn; lia)).
  - exact (proj2 (@elementAt_in_and_out_of_range Z _ _ _ 3
                    (array_produces [4; 5; 6])) ltac:(cbn; lia)).
Defined.

Lemma list_first_filter {T : Type} (p : T -> bool) (l : list T) :
  list_first (fun x => Ok (p x)) l
  = match List.filter p l with
    | x :: _ => Ok x
    | [] => Throw InvalidOperationException
    end.
Proof.
  induction l as [|x l' IH]; cbn [list_first List.filter bind];
    [reflexivity|].
  destruct (p x); [reflexivity | exact IH].
Qed.

Lemma list_last_filter {T : Type} (p : T -> bool) (l : list T) :
  forall found : option T,
  list_last_from (fun x => Ok (p x)) l found
  = match rev (List.filter p l), found with
    | x :: _, _ => Ok x
    | [], Some x => Ok x
    | [], None => Throw InvalidOperationException
    end.
Proof.
  induction l as [|x l' IH]; intros found;
    cbn [list_last_from List.filter bind].
  - destruct found; reflexivity.
  - rewrite IH. destruct (p x); cbn [rev].
    + destruct (rev (List.filter p l')); reflexivity.
    + reflexivity.
Qed.

(** X20. [first(predicate)] returns the first element the predicate
    accepts and [last(predicate)] the last one; both raise
    [InvalidOperationException] when no element is accepted.  Without a
    predicate they return the first and the last element of the sequence. *)
Theorem first_and_last_of_filter {T : Type} (this : Enumerable T)
    (l : list T) (s_end : state this) (p : T -> bool) :
  Produces this (getEnumerator this) l s_end ->
  first this (Some (fun x => Ok (p x)))
  = match List.filter p l with
    | x :: _ => Ok x
    | [] => Throw InvalidOperationException
    end
  /\ last this (Some (fun x => Ok (p x)))
     = match rev (List.filter p l) with
       | x :: _ => Ok x
       | [] => Throw InvalidOperationException
       end
  /\ first this None
     = match l with x :: _ => Ok x | [] => Throw InvalidOperationException end
  /\ last this None
     = match rev l with
       | x :: _ => Ok x
       | [] => Throw InvalidOperationException
       end.
Proof.
  intros H.
  rewrite !(@first_list T this l s_end H), !(@last_list T this l s_end H).
  cbn [or_always]. unfold list_last.
  rewrite (list_first_filter p l), (list_last_filter p l None).
  assert (Hall : List.filter (fun _ : T => true) l = l).
  { clear. induction l as [|x l' IH]; cbn [List.filter]; congruence. }
  pose proof (list_first_filter (fun _ : T => true) l) as Hf.
  pose proof (list_last_filter (fun _ : T => true) l None) as Hl.
  rewrite Hall in Hf, Hl. unfold always.
  split; [reflexivity | split; [|split]].
  - destruct (rev (List.filter p l)); reflexivity.
  - exact Hf.
  - rewrite Hl. destruct (rev l); reflexivity.
Qed.

Lemma first_and_last_of_filter_witness :
  first (Enumerable_new [1; 5; 2; 7; 3]) (Some (fun x => Ok (3 <? x)))
  = Ok 5
  /\ last (Enumerable_new [1; 5; 2; 7; 3]) (Some (fun x => Ok (3 <? x)))
     = Ok 7.
Proof.
  pose proof (@first_and_last_of_filter Z _ _ _ (fun x => 3 <? x)
                (array_produces [1; 5; 2; 7; 3])) as (Hf & Hl & _).
  exact (conj Hf Hl).
Defined.

(** X21. [single(predicate)] does not search: it raises
    [InvalidOperationException] whenever the sequence has no element or
    more than one, whatever the predicate says, and on a one-element
    sequence it returns the element if the predicate accepts it (or if no
    predicate is given) and raises [InvalidOperationException] if not. *)
Theorem single_wants_one_element {T : Type} (this : Enumerable T)
    (l : list T) (s_end : state this) (predicate : option (T -> bool)) :
  Produces this (getEnumerator this) l s_end ->
  single this (option_map (fun p x => Ok (p x)) predicate)
  = match l with
    | [x] => if match predicate with Some p => p x | None => true end
             then Ok x else Throw InvalidOperationException
    | _ => Throw InvalidOperationException
    end.
Proof.
  intros H. rewrite (@single_list T this l s_end H). unfold list_single.
  destruct l as [|x [|y l']]; try reflexivity.
  destruct predicate as [p|]; cbn [option_map or_always always bind];
    reflexivity.
Qed.

Lemma single_wants_one_element_witness :
  single (Enumerable_new [1; 5; 2]) (Some (fun x => Ok (3 <? x)))
  = Throw InvalidOperationException
  /\ single (Enumerable_new [5]) (Some (fun x => Ok (3 <? x))) = Ok 5.
Proof.
  split.
  - exact (@single_wants_one_element Z _ _ _ (Some (fun x => 3 <? x))
             (array_produces [1; 5; 2])).
  - exact (@single_wants_one_element Z _ _ _ (Some (fun x => 3 <? x))
             (array_produces [5])).
Defined.

(** ** [Hash] with a comparer: [put], then [get] *)

Lemma linear_put_overwrite {K V : Type} (host : Host K V)
    (equals : K -> K -> bool) (prim : list (string * V))
    (items : list (K * V)) (key : K) (v : V) :
  put host (linear equals prim items) key v true
  = match lfind host equals items key with
    | Some (i, _) => (linear equals prim (set_element items i v), Ok true)
    | None => (linear equals prim (items ++ [(key, v)]), Ok true)
    end.
Proof.
  unfold put, lookUp. cbn [comparer linear andb complexItems].
  rewrite find_item_linear.
  destruct (lfind host equals items key) as [[i b]|]; reflexivity.
Qed.

(** X22. In a [Hash] made with a comparer, [put(key, value, overwrite)]
    stores the value and answers [true] when no stored key matches [key] or
    when [overwrite] is set; otherwise it answers [false] and changes
    nothing.  After it, [keyExists(key)] is true and [get(key)] returns the
    value stored or, when nothing was stored, the value that was there.
    A [put] without [overwrite] leaves what [get] answers for a key that
    [key] does not match as it was. *)
Theorem Hash_put_then_get {K V : Type} (host : Host K V)
    (equals : K -> K -> bool) (prim : list (string * V))
    (items : list (K * V)) (key : K) (v : V) (overwrite existed : bool) :
  let h := linear equals prim items in
  let h' := fst (put host h key v overwrite) in
  equals key key = true ->
  snd (keyExists host h key) = Ok existed ->
  snd (put host h key v overwrite) = Ok (overwrite || negb existed)
  /\ snd (keyExists host h' key) = Ok true
  /\ snd (get host h' key)
     = (if overwrite || negb existed then Ok v else snd (get host h key))
  /\ (overwrite || negb existed = false -> h' = h)
  /\ (overwrite = false ->
      forall other, equals key other = false ->
        snd (get host h' other) = snd (get host h other)).
Proof.
  cbv zeta. intros Hrefl Hex.
  rewrite linear_keyExists in Hex. cbn [snd] in Hex.
  destruct overwrite.
  - rewrite linear_put_overwrite.
    destruct (lfind host equals items key) as [[i b]|] eqn:Hfind;
      cbn [fst snd orb]; rewrite linear_keyExists, linear_get; cbn [snd].
    + rewrite lfind_set, Hfind, Nat.eqb_refl.
      repeat split; try reflexivity; discriminate.
    + rewrite lfind_app, Hfind, Hrefl.
      repeat split; try reflexivity; discriminate.
  - rewrite linear_put.
    destruct (lfind host equals items key) as [[i b]|] eqn:Hfind;
      injection Hex as <-; cbn [fst snd orb negb];
      rewrite linear_keyExists, !linear_get; cbn [snd].
    + rewrite Hfind. repeat split; try reflexivity.
    + rewrite lfind_app, Hfind, Hrefl.
      split; [reflexivity|]. split; [reflexivity|]. split; [reflexivity|].
      split; [discriminate|].
      intros _ other Hother. rewrite !linear_get. cbn [snd].
      rewrite lfind_app, Hother.
      destruct (lfind host equals items other) as [[j c]|]; reflexivity.
Qed.

Lemma Hash_put_then_get_witness :
  let h := linear (K:=Z) (V:=Z) (fun a b => a mod 10 =? b mod 10) []
             [(1, 100); (2, 200)] in
  snd (put (number_host Z) h 11 7 false) = Ok false
  /\ snd (get (number_host Z) (fst (put (number_host Z) h 11 7 false)) 11)
     = Ok 100
  /\ snd (get (number_host Z) (fst (put (number_host Z) h 11 7 true)) 1)
     = Ok 7.
Proof.
  cbv zeta.
  pose proof (@Hash_put_then_get Z Z (number_host Z)
                (fun a b => a mod 10 =? b mod 10) [] [(1, 100); (2, 200)]
                11 7 false true eq_refl eq_refl) as (Hput & _ & Hget & _).
  pose proof (@Hash_put_then_get Z Z (number_host Z)
                (fun a b => a mod 10 =? b mod 10) [] [(1, 100); (2, 200)]
                1 7 true true eq_refl eq_refl) as (_ & _ & Hget' & _).
  split; [exact Hput|]. split; [exact Hget|]. exact Hget'.
Defined.

(** ** [distinct()] without a comparer, on primitive values *)

Section DistinctByName.
Context {T : Type}.
Variable host : Host T bool.
Variable this : Enumerable T.
Hypothesis stored_defined : is_undefined host true = false.

Let E := distinct host this None.

(** Two keys are filed under the same property name. *)
Definition same_name (a b : T) : bool :=
  String.eqb (property_name host a) (property_name host b).

(** The name of the key is one every object inherits a value for. *)
Definition inherits (x : T) : bool :=
  match inherited host (property_name host x) with
  | Some v => negb (is_undefined host v)
  | None => false
  end.

(** The hash after the elements [seen] have been handed out. *)
Definition names_hash (seen : list T) : Hash (K:=T) (V:=bool) :=
  {| comparer := None;
     primitiveItems := List.map (fun k => (property_name host k, true)) seen;
     complexItems := [] |}.

Lemma own_property_seen (seen : list T) (x : T) :
  own_property (List.map (fun k => (property_name host k, true)) seen)
    (property_name host x)
  = if existsb (fun k => same_name k x) seen then Some true else None.
Proof.
  induction seen as [|k seen IH]; [reflexivity|].
  cbn [List.map own_property existsb]. unfold same_name at 1.
  destruct (String.eqb (property_name host k) (property_name host x));
    [reflexivity | exact IH].
Qed.

Lemma write_property_new (items : list (string * bool)) (name : string) v :
  own_property items name = None ->
  write_property items name v = items ++ [(name, v)].
Proof.
  induction items as [|[n w] items IH]; cbn [own_property write_property app];
    [reflexivity|].
  destruct (String.eqb n name); [discriminate|].
  intros H. rewrite (IH H). reflexivity.
Qed.

Lemma names_put (seen : list T) (x : T) :
  is_primitive host x = true ->
  put host (names_hash seen) x true false
  = if existsb (fun k => same_name k x) seen || inherits x
    then (names_hash seen, Ok false)
    else (names_hash (seen ++ [x]), Ok true).
Proof.
  intros Hprim. unfold put, lookUp, read_property, inherits.
  cbn [comparer names_hash primitiveItems complexItems andb].
  rewrite Hprim, own_property_seen.
  destruct (existsb (fun k => same_name k x) seen) eqn:Hseen; cbn [orb].
  - rewrite stored_defined. reflexivity.
  - assert (Hnew : write_property
                     (List.map (fun k => (property_name host k, true)) seen)
                     (property_name host x) true
                   = List.map (fun k => (property_name host k, true))
                       (seen ++ [x])).
    { rewrite write_property_new
        by (rewrite own_property_seen, Hseen; reflexivity).
      rewrite List.map_app. reflexivity. }
    destruct (inherited host (property_name host x)) as [v|];
      [destruct (is_undefined host v)|]; cbn [negb];
      try reflexivity; rewrite Hnew; reflexivity.
Qed.

(** What [distinct()] keeps of [l], [seen] being kept already. *)
Definition distinct_names (seen l : list T) : list T :=
  first_occurrences same_name seen
    (List.filter (fun x => negb (inherits x)) l).

Lemma distinct_names_loop e l e' :
  Produces this e l e' ->
  Forall (fun x => is_primitive host x = true) l ->
  forall fuel seen, (List.length l < fuel)%nat ->
  match distinct_names seen l with
  | [] =>
      @distinct_loop T host this fuel (mkDistinct this e (names_hash seen))
      = (mkDistinct this e' (names_hash seen), Ok false)
  | x :: post =>
      exists e_x l',
        @distinct_loop T host this fuel (mkDistinct this e (names_hash seen))
        = (mkDistinct this e_x (names_hash (seen ++ [x])), Ok true)
        /\ current this e_x = Ok x
        /\ (rest this e_x < rest this e)%nat
        /\ Produces this e_x l' e'
        /\ Forall (fun x => is_primitive host x = true) l'
        /\ distinct_names (seen ++ [x]) l' = post
        /\ (List.length l' < List.length l)%nat
  end.
Proof.
  induction 1 as [e e' Hm | e e' x l e'' Hm Hc Hr Hp IH];
    intros Hprim [|fuel] seen Hf; cbn [List.length] in Hf; try lia;
    cbn [distinct_loop d_enumerator d_hash]; rewrite Hm.
  - reflexivity.
  - inversion Hprim as [|? ? Hx Hl]; subst.
    rewrite Hc, (@names_put seen x Hx).
    unfold distinct_names. cbn [List.filter].
    destruct (inherits x) eqn:Hinh; cbn [negb].
    + rewrite orb_true_r.
      specialize (IH Hl fuel seen ltac:(lia)). unfold distinct_names in IH.
      destruct (first_occurrences same_name seen
                  (List.filter (fun x0 => negb (inherits x0)) l))
        as [|y post].
      * exact IH.
      * destruct IH
          as (e_x & l' & Hloop & Hcur & Hrest & Hprod & Hpr & Hfo & Hlen).
        exists e_x, l'. split; [exact Hloop|]. split; [exact Hcur|].
        split; [lia|]. split; [exact Hprod|]. split; [exact Hpr|].
        split; [exact Hfo|]. cbn [List.length]. lia.
    + rewrite orb_false_r. cbn [first_occurrences].
      destruct (existsb (fun k => same_name k x) seen).
      * specialize (IH Hl fuel seen ltac:(lia)). unfold distinct_names in IH.
        destruct (first_occurrences same_name seen
                    (List.filter (fun x0 => negb (inherits x0)) l))
          as [|y post].
        -- exact IH.
        -- destruct IH
             as (e_x & l' & Hloop & Hcur & Hrest & Hprod & Hpr & Hfo & Hlen).
           exists e_x, l'. split; [exact Hloop|]. split; [exact Hcur|].
           split; [lia|]. split; [exact Hprod|]. split; [exact Hpr|].
           split; [exact Hfo|]. cbn [List.length]. lia.
      * exists e', l. split; [reflexivity|]. split; [exact Hc|].
        split; [exact Hr|]. split; [exact Hp|]. split; [exact Hl|].
        split; [reflexivity|]. cbn [List.length]. lia.
Qed.

Lemma distinct_names_produces_from : forall n l,
  (List.length l <= n)%nat ->
  forall e e' seen,
    Produces this e l e' ->
    Forall (fun x => is_primitive host x = true) l ->
    exists s_end,
      Produces E (mkDistinct this e (names_hash seen))
        (distinct_names seen l) s_end.
Proof.
  induction n as [|n IH]; intros l Hlen e e' seen Hprod Hprim;
    pose proof (produces_length Hprod) as Hbound;
    pose proof (distinct_names_loop Hprod Hprim (fuel := S (rest this e)) seen
                  ltac:(lia)) as Hloop;
    destruct (distinct_names seen l) as [|x post].
  1,3: exists (mkDistinct this e' (names_hash seen)); apply Produces_done;
       exact Hloop.
  - destruct Hloop as (e_x & l' & _ & _ & _ & _ & _ & _ & Hl'). lia.
  - destruct Hloop
      as (e_x & l' & Hloop & Hcur & Hrest & Hprod' & Hprim' & Hfo & Hl').
    destruct (IH l' ltac:(lia) e_x e' (seen ++ [x]) Hprod' Hprim')
      as (s_end & Hrec).
    exists s_end. rewrite Hfo in Hrec.
    eapply Produces_next; [exact Hloop | exact Hcur | exact Hrest
                          | exact Hrec].
Qed.

Lemma first_occurrences_incl (equals : T -> T -> bool) : forall l seen x,
  In x (first_occurrences equals seen l) -> In x l.
Proof.
  induction l as [|y l IH]; intros seen x; cbn [first_occurrences];
    [intros []|].
  destruct (existsb (fun k => equals k y) seen).
  - intros H. right. exact (IH _ _ H).
  - intros [<-|H]; [left; reflexivity | right; exact (IH _ _ H)].
Qed.
End DistinctByName.

(** X23. [distinct()] without a comparer, on a sequence of primitive values
    (numbers, strings, booleans), tells elements apart by the property name
    they convert to: it hands out, in source order, the first element of
    each name, so that of [true] and ["true"] only the first one is kept.
    An element whose name every object inherits a value for (such as
    ["constructor"]) is never handed out. *)
Theorem distinct_default_goes_by_property_name {T : Type} (host : Host T bool)
    (this : Enumerable T) (l : list T) (s_end : state this) :
  is_undefined host true = false ->
  Produces this (getEnumerator this) l s_end ->
  Forall (fun x => is_primitive host x = true) l ->
  toArray (distinct host this None)
  = Ok (first_occurrences (same_name host) []
          (List.filter (fun x => negb (inherits host x)) l))
  /\ forall x,
       In x (first_occurrences (same_name host) []
               (List.filter (fun x => negb (inherits host x)) l)) ->
       inherits host x = false.
Proof.
  intros Hdef H Hprim. split.
  - destruct (@distinct_names_produces_from T host this Hdef _ l (le_n _)
                _ _ [] H Hprim) as (s' & Hp).
    exact (f_equal snd (produces_traverse Hp)).
  - intros x Hin. apply first_occurrences_incl in Hin.
    apply filter_In in Hin. destruct Hin as [_ Hx].
    destruct (inherits host x); [discriminate | reflexivity].
Qed.

(** The host of [distinct] on JavaScript values: the container stores
    [true], and a name inherited from [Object.prototype] reads as a value
    that is not [undefined]. *)
Definition js_key_host (coerce : js_value -> js_value -> bool)
  : Host js_value bool :=
  {| is_primitive := js_is_primitive;
     property_name := js_property_name;
     loose_eq := js_loose_eq coerce;
     is_undefined := fun _ => false;
     inherited := fun name => match js_inherited name with
                              | Some _ => Some true
                              | None => None
                              end |}.

Lemma distinct_default_goes_by_property_name_witness :
  toArray (distinct (js_key_host (fun _ _ => false))
             (Enumerable_new [JsBoolean true; JsString "true";
                              JsString "constructor"; JsNumber 1])
             None)
  = Ok [JsBoolean true; JsNumber 1].
Proof.
  exact (proj1 (@distinct_default_goes_by_property_name js_value
                  (js_key_host (fun _ _ => false)) _ _ _ eq_refl
                  (array_produces [JsBoolean true; JsString "true";
                                   JsString "constructor"; JsNumber 1])
                  ltac:(repeat constructor))).
Defined.

(** ** [orderBy] and [orderByDescending] with one key *)

Lemma one_key_comparator {T : Type} (k : T -> Z) (direction : Z) (a b : T) :
  sort_comparator [mkLink k direction Comparer_compare] a b
  = if k a <? k b then - direction
    else if k b <? k a then direction else 0.
Proof.
  unfold sort_comparator, Comparer_compare.
  cbn [rev app compare_from link_keySelector link_comparer link_direction].
  destruct (Z.ltb_spec (k a) (k b)); [cbn [Z.eqb negb]; lia|].
  destruct (Z.ltb_spec (k b) (k a)).
  - replace (k a >? k b) with true by (symmetry; apply Z.gtb_lt; lia).
    cbn [Z.eqb negb]. lia.
  - replace (k a >? k b) with false
      by (symmetry; rewrite Z.gtb_ltb; apply Z.ltb_ge; lia).
    reflexivity.
Qed.

(** X24. [orderBy(k)] hands out the elements of the source sorted by
    ascending key and [orderByDescending(k)] by descending key.  In both,
    elements with the same key keep the order they have in the source: the
    descending order is not the ascending one reversed. *)
Theorem orderBy_one_key_is_stable {T : Type} (this : Enumerable T)
    (k : T -> Z) (l : list T) :
  toArray this = Ok l ->
  exists ascending descending : list T,
    toArray (orderBy this k) = Ok ascending
    /\ toArray (orderByDescending this k) = Ok descending
    /\ Permutation l ascending /\ Permutation l descending
    /\ StronglySorted (fun a b => k a <= k b) ascending
    /\ StronglySorted (fun a b => k b <= k a) descending
    /\ forall key : Z,
         List.filter (fun x => k x =? key) ascending
         = List.filter (fun x => k x =? key) l
         /\ List.filter (fun x => k x =? key) descending
            = List.filter (fun x => k x =? key) l.
Proof.
  intros H.
  exists (Array_sort (sort_comparator [mkLink k ASCENDING Comparer_compare]) l),
    (Array_sort (sort_comparator [mkLink k DESCENDING Comparer_compare]) l).
  split; [|split; [|split; [|split; [|split; [|split]]]]].
  - unfold orderBy, orderBy_with. cbn [ordered app].
    erewrite orderBy_toArray by exact H. reflexivity.
  - unfold orderByDescending, orderBy_with. cbn [ordered app].
    erewrite orderBy_toArray by exact H. reflexivity.
  - apply Array_sort_perm.
  - apply Array_sort_perm.
  - apply Array_sort_sorted with (le := fun a b => k a <= k b).
    + intros a b. rewrite one_key_comparator. unfold ASCENDING.
      destruct (Z.ltb_spec (k a) (k b)); [lia|].
      destruct (Z.ltb_spec (k b) (k a)); lia.
    + intros a b. lia.
    + intros a b c. lia.
  - apply Array_sort_sorted with (le := fun a b => k b <= k a).
    + intros a b. rewrite one_key_comparator. unfold DESCENDING.
      destruct (Z.ltb_spec (k a) (k b)); [lia|].
      destruct (Z.ltb_spec (k b) (k a)); lia.
    + intros a b. lia.
    + intros a b c. lia.
  - intros key. split; apply Array_sort_stable; intros a b Ha Hb;
      apply Z.eqb_eq in Ha, Hb; rewrite one_key_comparator;
      replace (k a <? k b) with false by (symmetry; apply Z.ltb_ge; lia);
      replace (k b <? k a) with false by (symmetry; apply Z.ltb_ge; lia);
      lia.
Qed.

Lemma orderBy_one_key_is_stable_witness :
  let l := [(2, 0); (1, 1); (2, 2); (1, 3)] in
  exists ascending descending : list (Z * Z),
    toArray (orderBy (Enumerable_new l) fst) = Ok ascending
    /\ toArray (orderByDescending (Enumerable_new l) fst) = Ok descending
    /\ Permutation l ascending /\ Permutation l descending
    /\ StronglySorted (fun a b => fst a <= fst b) ascending
    /\ StronglySorted (fun a b => fst b <= fst a) descending
    /\ forall key : Z,
         List.filter (fun x => fst x =? key) ascending
         = List.filter (fun x => fst x =? key) l
         /\ List.filter (fun x => fst x =? key) descending
            = List.filter (fun x => fst x =? key) l.
Proof.
  intros l.
  apply (@orderBy_one_key_is_stable _ (Enumerable_new l) fst l).
  reflexivity.
Defined.

(** ** What [groupBy] hands out *)

Section MapValues.
Context {K V W : Type}.
Variable hostV : Host K V.
Variable hostW : Host K W.
Variable equals : K -> K -> bool.
Variable f : V -> W.

Definition map_values (items : list (K * V)) : list (K * W) :=
  List.map (fun kv => (fst kv, f (snd kv))) items.

Lemma lfind_map_values (items : list (K * V)) (key : K) :
  lfind hostW equals (map_values items) key
  = match lfind hostV equals items key with
    | Some (i, b) => Some (i, f b)
    | None => None
    end.
Proof.
  induction items as [|[k v] items IH]; [reflexivity|].
  unfold map_values in *. cbn [List.map fst snd]. rewrite !lfind_cons.
  destruct (equals k key); [reflexivity|]. rewrite IH.
  destruct (lfind hostV equals items key) as [[j b]|]; reflexivity.
Qed.

Lemma set_element_map_values (items : list (K * V)) (v : V) : forall i,
  set_element (map_values items) i (f v) = map_values (set_element items i v).
Proof.
  unfold map_values.
  induction items as [|[k w] items IH]; intros [|i];
    cbn [List.map set_element fst snd]; try reflexivity.
  rewrite IH. reflexivity.
Qed.

Lemma set_element_keys (items : list (K * V)) (v : V) : forall i,
  List.map fst (set_element items i v) = List.map fst items.
Proof.
  induction items as [|[k w] items IH]; intros [|i];
    cbn [List.map set_element fst]; try reflexivity.
  rewrite IH. reflexivity.
Qed.

Lemma lfind_none_all (items : list (K * V)) (key : K) :
  lfind hostV equals items key = None ->
  Forall (fun k => equals k key = false) (List.map fst items).
Proof.
  induction items as [|[k v] items IH]; [constructor|].
  rewrite lfind_cons. destruct (equals k key) eqn:Hk; [discriminate|].
  destruct (lfind hostV equals items key) as [[j b]|]; [discriminate|].
  intros _. constructor; [exact Hk | apply IH; reflexivity].
Qed.

Lemma lfind_own_key (before after : list (K * V)) (k : K) (v : V) :
  equals k k = true ->
  Forall (fun k' => equals k' k = false) (List.map fst before) ->
  lfind hostV equals (before ++ (k, v) :: after) k
  = Some (List.length before, v).
Proof.
  intros Hrefl. induction before as [|[k' w] before IH]; intros Hall;
    cbn [app]; rewrite lfind_cons.
  - rewrite Hrefl. reflexivity.
  - inversion Hall as [|? ? Hk' Hrest]; subst. cbn [fst] in Hk'.
    rewrite Hk', (IH Hrest). reflexivity.
Qed.
End MapValues.

Lemma ForallOrdPairs_snoc {A : Type} (R : A -> A -> Prop) (l : list A) (x : A) :
  ForallOrdPairs R l -> Forall (fun a => R a x) l ->
  ForallOrdPairs R (l ++ [x]).
Proof.
  induction 1 as [|a l Ha Hl IH]; intros Hx; cbn [app].
  - repeat constructor.
  - inversion Hx as [|? ? Hax Hlx]; subst. constructor.
    + apply Forall_app. split; [exact Ha | repeat constructor; exact Hax].
    + apply IH. exact Hlx.
Qed.

Lemma ForallOrdPairs_before {A : Type} (R : A -> A -> Prop)
    (before after : list A) (x : A) :
  ForallOrdPairs R (before ++ x :: after) -> Forall (fun a => R a x) before.
Proof.
  induction before as [|a before IH]; cbn [app]; intros H; [constructor|].
  inversion H as [|? ? Ha Hrest]; subst. constructor.
  - rewrite Forall_forall in Ha. apply Ha. apply in_or_app. right. left.
    reflexivity.
  - apply IH. exact Hrest.
Qed.

Section GroupByContents.
Context {T K U R : Type}.
Variable host : Host K (list U).
Variable this : Enumerable T.
Variable keySelector : T -> K.
Variable elementSelector : T -> U.
Variable resultSelector : string + K -> Enumerable U -> R.
Variable equals : K -> K -> bool.

(** The host as seen by a container of source elements. *)
Definition elements_host : Host K (list T) :=
  {| is_primitive := is_primitive host;
     property_name := property_name host;
     loose_eq := loose_eq host;
     is_undefined := fun _ => false;
     inherited := fun _ => None |}.

(** The groups: each key with the source elements filed under it. *)
Definition groups_of (l : list T) : list (K * list T) :=
  fold_left (insert_inner elements_host keySelector equals) l [].

Lemma group_loop_inserts s l s' :
  Produces this s l s' ->
  forall fuel items, (List.length l < fuel)%nat ->
  group_loop host this keySelector elementSelector fuel s
    (linear equals [] (map_values (List.map elementSelector) items))
  = Ok (linear equals []
          (map_values (List.map elementSelector)
             (fold_left (insert_inner elements_host keySelector equals)
                l items))).
Proof.
  induction 1 as [s s' Hm | s s' x l s'' Hm Hc Hr Hp IH];
    intros [|fuel] items Hf; cbn [List.length] in Hf; try lia;
    cbn [group_loop fold_left]; rewrite Hm; [reflexivity|].
  rewrite Hc. cbn [bind]. rewrite linear_keyExists.
  rewrite (lfind_map_values elements_host host equals
             (List.map elementSelector) items (keySelector x)).
  unfold insert_inner.
  destruct (lfind elements_host equals items (keySelector x))
    as [[i b]|] eqn:Hx.
  - rewrite linear_get_and_mutate.
    rewrite (lfind_map_values elements_host host equals
               (List.map elementSelector) items (keySelector x)), Hx.
    replace (List.map elementSelector b ++ [elementSelector x])
      with (List.map elementSelector (b ++ [x]))
      by (rewrite List.map_app; reflexivity).
    rewrite set_element_map_values. apply IH. lia.
  - rewrite linear_put.
    rewrite (lfind_map_values elements_host host equals
               (List.map elementSelector) items (keySelector x)), Hx.
    replace (map_values (List.map elementSelector) items
             ++ [(keySelector x, [elementSelector x])])
      with (map_values (List.map elementSelector)
              (items ++ [(keySelector x, [x])]))
      by (unfold map_values; rewrite List.map_app; reflexivity).
    apply IH. lia.
Qed.

Lemma groups_keys_apart : forall l items,
  ForallOrdPairs (fun a b => equals a b = false) (List.map fst items) ->
  ForallOrdPairs (fun a b => equals a b = false)
    (List.map fst
       (fold_left (insert_inner elements_host keySelector equals) l items)).
Proof.
  induction l as [|x l IH]; intros items Hitems; cbn [fold_left];
    [exact Hitems|].
  apply IH. unfold insert_inner.
  destruct (lfind elements_host equals items (keySelector x))
    as [[i b]|] eqn:Hx.
  - rewrite set_element_keys. exact Hitems.
  - rewrite List.map_app. cbn [List.map fst].
    apply ForallOrdPairs_snoc; [exact Hitems|].
    exact (lfind_none_all _ _ _ _ Hx).
Qed.

Variable l : list T.
Variable s_end : state this.
Hypothesis this_produces : Produces this (getEnumerator this) l s_end.

Lemma groupBy_lazyInitialize_groups :
  groupBy_lazyInitialize host this keySelector elementSelector equals
  = Ok (List.map (fun g => (inr (fst g), List.map elementSelector (snd g)))
          (groups_of l)).
Proof.
  unfold groupBy_lazyInitialize. cbv zeta.
  change (Hash_new (Some equals))
    with (linear (V:=list U) equals []
            (map_values (List.map elementSelector) [])).
  rewrite (group_loop_inserts this_produces)
    by (pose proof (produces_length this_produces); lia).
  cbn [bind]. unfold Hash_toArray, map_values, groups_of.
  cbn [primitiveItems complexItems linear List.map app].
  rewrite List.map_map. reflexivity.
Qed.

Lemma groupBy_toArray :
  toArray (groupBy host this keySelector elementSelector resultSelector equals)
  = Ok (List.map
          (fun g => resultSelector (inr (fst g))
                      (Enumerable_new (List.map elementSelector (snd g))))
          (groups_of l)).
Proof.
  unfold toArray.
  rewrite (groupBy_first_traversal host this keySelector elementSelector
             resultSelector equals groupBy_lazyInitialize_groups).
  cbn [snd]. rewrite List.map_map. reflexivity.
Qed.
End GroupByContents.

(** X25. With a comparer that is an equivalence, [groupBy] hands out one
    group per class of keys.  The elements of a group are
    [elementSelector] applied to all the source elements whose key matches
    the key of the group, in source order.  No group is empty, no two
    groups have matching keys, and every source element has its group. *)
Theorem groupBy_groups_by_key {T K U R : Type} (host : Host K (list U))
    (this : Enumerable T) (keySelector : T -> K) (elementSelector : T -> U)
    (resultSelector : string + K -> Enumerable U -> R)
    (equals : K -> K -> bool) (l : list T) (s_end : state this) :
  (forall a, equals a a = true) ->
  (forall a b, equals a b = equals b a) ->
  (forall a b c, equals a b = true -> equals b c = true ->
                 equals a c = true) ->
  Produces this (getEnumerator this) l s_end ->
  exists groups : list (K * list T),
    toArray (groupBy host this keySelector elementSelector resultSelector
               equals)
    = Ok (List.map
            (fun g => resultSelector (inr (fst g))
                        (Enumerable_new (List.map elementSelector (snd g))))
            groups)
    /\ Forall (fun g =>
                 snd g = List.filter
                           (fun x => equals (keySelector x) (fst g)) l
                 /\ snd g <> []) groups
    /\ ForallOrdPairs (fun g1 g2 => equals (fst g1) (fst g2) = false) groups
    /\ (forall x, In x l ->
          exists g, In g groups /\ equals (keySelector x) (fst g) = true).
Proof.
  intros Hrefl Hsym Htrans H.
  exists (groups_of host keySelector equals l).
  pose proof (@joined_items_buckets T K (elements_host host) keySelector
                equals l Hsym Htrans) as Hbuckets.
  change (joined_items (elements_host host) keySelector equals l)
    with (groups_of host keySelector equals l) in Hbuckets.
  pose proof (@groups_keys_apart T K U host keySelector equals l []
                (FOP_nil _)) as Hapart.
  fold (groups_of host keySelector equals l) in Hapart.
  split; [|split; [|split]].
  - exact (@groupBy_toArray T K U R host this keySelector elementSelector
             resultSelector equals l s_end H).
  - apply Forall_forall. intros [k b] Hin.
    destruct (in_split _ _ Hin) as (before & after & Hsplit).
    rewrite Hsplit in Hapart, Hbuckets.
    rewrite List.map_app in Hapart. cbn [List.map fst] in Hapart.
    apply ForallOrdPairs_before in Hapart.
    pose proof (Hbuckets k) as Hk.
    rewrite (lfind_own_key (elements_host host) equals before after k b
               (Hrefl k) Hapart) in Hk.
    exact Hk.
  - clear Hbuckets.
    induction (groups_of host keySelector equals l) as [|g groups IH];
      [constructor|].
    cbn [List.map] in Hapart.
    inversion Hapart as [|? ? Hg Hrest]; subst. constructor.
    + rewrite Forall_map in Hg. exact Hg.
    + apply IH. exact Hrest.
  - intros x Hx. pose proof (Hbuckets (keySelector x)) as Hk.
    assert (Hmem : In x (with_key keySelector equals (keySelector x) l)).
    { unfold with_key. apply filter_In. split; [exact Hx | apply Hrefl]. }
    destruct (lfind (elements_host host) equals
                (groups_of host keySelector equals l) (keySelector x))
      as [[i b]|] eqn:Hfind.
    + destruct (lfind_matches _ _ _ _ Hfind) as (k & Hnth & Hmatch).
      exists (k, b). split; [exact (nth_error_In _ _ Hnth)|].
      cbn [fst]. rewrite Hsym. exact Hmatch.
    + rewrite Hk in Hmem. destruct Hmem.
Qed.

Lemma groupBy_groups_by_key_witness :
  exists groups : list (Z * list Z),
    toArray (groupBy (number_host (list Z)) (Enumerable_new [1; 2; 4; 5; 3])
               (fun x => x mod 3) (fun x => 10 * x)
               (fun key elements => (key, toArray elements)) Z.eqb)
    = Ok (List.map
            (fun g => (inr (fst g), toArray (Enumerable_new
                                               (List.map (fun x => 10 * x)
                                                  (snd g)))))
            groups)
    /\ Forall (fun g =>
                 snd g = List.filter (fun x => x mod 3 =? fst g)
                           [1; 2; 4; 5; 3]
                 /\ snd g <> []) groups
    /\ ForallOrdPairs (fun g1 g2 => (fst g1 =? fst g2) = false) groups
    /\ (forall x, In x [1; 2; 4; 5; 3] ->
          exists g, In g groups /\ (x mod 3 =? fst g) = true).
Proof.
  apply (@groupBy_groups_by_key Z Z Z _ (number_host (list Z))
           (Enumerable_new [1; 2; 4; 5; 3]) (fun x => x mod 3)
           (fun x => 10 * x) (fun key elements => (key, toArray elements))
           Z.eqb [1; 2; 4; 5; 3] 5 Z.eqb_refl Z.eqb_sym).
  - intros a b c Hab Hbc. apply Z.eqb_eq in Hab, Hbc. apply Z.eqb_eq. lia.
  - exact (array_produces [1; 2; 4; 5; 3]).
Defined.

(** ** What [selectMany] hands out *)

Section SelectManyContents.
Context {T U R : Type}.
Variable this : Enumerable T.
Variable collectionSelector : T -> Z -> list U.
Variable resultSelector : T -> U -> R.

Let E := selectMany this collectionSelector resultSelector.

(** The collections of the elements of [l], the first of which has index
    [index], one after the other, each sub-element paired with the element
    it comes from. *)
Fixpoint flattened (l : list T) (index : Z) : list R :=
  match l with
  | [] => []
  | item :: l =>
      List.map (resultSelector item) (collectionSelector item index)
      ++ flattened l (index + 1)
  end.

(** There is no sub-enumerator yet, or it has handed out its last
    element. *)
Definition exhausted (sub : option (ordered_cursor (T:=U))) : Prop :=
  match sub with
  | None => True
  | Some c => Z.of_nat (List.length (ord_array c)) <= ord_index c + 1
  end.

Lemma selectMany_loop_skips e l e' :
  Produces this e l e' ->
  forall fuel item sub index noMoveNext,
  (List.length l < fuel)%nat -> exhausted sub ->
  (flattened l index = []
   /\ collections_size collectionSelector l index = O
   /\ exists item' sub' index',
        selectMany_loop collectionSelector fuel
          (mkSelectMany this e item sub false index) noMoveNext
        = (mkSelectMany this e' item' sub' false index', Ok false))
  \/ (exists e_x x y tl l_post index_x,
        selectMany_loop collectionSelector fuel
          (mkSelectMany this e item sub false index) noMoveNext
        = (mkSelectMany this e_x (Some x)
             (Some {| ord_array := y :: tl; ord_index := 0 |}) true
             (index_x + 1), Ok true)
        /\ collectionSelector x index_x = y :: tl
        /\ Produces this e_x l_post e'
        /\ flattened l index
           = resultSelector x y
             :: List.map (resultSelector x) tl
                ++ flattened l_post (index_x + 1)
        /\ collections_size collectionSelector l index
           = S (List.length tl
                + collections_size collectionSelector l_post (index_x + 1))).
Proof.
  induction 1 as [e e' Hm | e e' x l e'' Hm Hc Hr Hp IH];
    intros [|fuel] item sub index noMoveNext Hf Hsub;
    cbn [List.length] in Hf; try lia.
  - left. split; [reflexivity|]. split; [reflexivity|].
    destruct sub as [[arr i]|]; cbn [exhausted ord_array ord_index] in Hsub.
    + cbn [selectMany_loop sub_moveNext sm_subItemEnumerator ord_index
             ord_array fst snd sm_itemEnumerator sm_item sm_hasCurrent
             sm_index].
      replace (i + 1 <? Z.of_nat (List.length arr)) with false
        by (symmetry; apply Z.ltb_ge; lia).
      cbn [negb fst snd sm_itemEnumerator sm_item sm_subItemEnumerator
             sm_hasCurrent sm_index].
      rewrite Hm. eexists _, _, _. reflexivity.
    + cbn [selectMany_loop sm_subItemEnumerator fst snd sm_itemEnumerator
             sm_item sm_hasCurrent sm_index].
      rewrite Hm. eexists _, _, _. reflexivity.
  - assert (Hstep :
      selectMany_loop collectionSelector (S fuel)
        (mkSelectMany this e item sub false index) noMoveNext
      = match collectionSelector x index with
        | [] => selectMany_loop collectionSelector fuel
                  (mkSelectMany this e' (Some x)
                     (Some {| ord_array := collectionSelector x index;
                              ord_index := 0 |}) false (index + 1)) false
        | _ :: _ => (mkSelectMany this e' (Some x)
                       (Some {| ord_array := collectionSelector x index;
                                ord_index := 0 |}) true (index + 1), Ok true)
        end).
    { destruct sub as [[arr i]|]; cbn [exhausted ord_array ord_index] in Hsub.
      - cbn [selectMany_loop sub_moveNext sm_subItemEnumerator ord_index
               ord_array fst snd sm_itemEnumerator sm_item sm_hasCurrent
               sm_index].
        replace (i + 1 <? Z.of_nat (List.length arr)) with false
          by (symmetry; apply Z.ltb_ge; lia).
        cbn [negb fst snd sm_itemEnumerator sm_item sm_subItemEnumerator
               sm_hasCurrent sm_index].
        rewrite Hm, Hc.
        cbn [sub_moveNext sm_subItemEnumerator ord_index ord_array
               sm_itemEnumerator sm_item sm_hasCurrent sm_index].
        destruct (collectionSelector x index); reflexivity.
      - cbn [selectMany_loop sm_subItemEnumerator fst snd sm_itemEnumerator
               sm_item sm_hasCurrent sm_index].
        rewrite Hm, Hc.
        cbn [sub_moveNext sm_subItemEnumerator ord_index ord_array
               sm_itemEnumerator sm_item sm_hasCurrent sm_index].
        destruct (collectionSelector x index); reflexivity. }
    rewrite Hstep. cbn [flattened collections_size].
    destruct (collectionSelector x index) as [|y tl] eqn:Hcs.
    + cbn [List.map app List.length Nat.add].
      apply IH; [lia|]. cbn [exhausted ord_array ord_index List.length]. lia.
    + right. exists e', x, y, tl, l, index.
      split; [reflexivity|]. split; [exact Hcs|]. split; [exact Hp|].
      split; [reflexivity|]. cbn [List.length]. lia.
Qed.

Lemma selectMany_rest_at e l e' item sub hasCurrent index :
  Produces this e l e' ->
  rest E (mkSelectMany this e item sub hasCurrent index)
  = (match sub with
     | Some c => array_rest (ord_array c) (ord_index c)
     | None => O
     end + collections_size collectionSelector l index)%nat.
Proof.
  intros H.
  change (rest E (mkSelectMany this e item sub hasCurrent index))
    with (selectMany_rest collectionSelector
            (mkSelectMany this e item sub hasCurrent index)).
  unfold selectMany_rest.
  cbn [sm_subItemEnumerator sm_itemEnumerator sm_index].
  rewrite (produces_traverse H). reflexivity.
Qed.

Lemma selectMany_produces_next : forall n e l e' item arr i hasCurrent index,
  Produces this e l e' ->
  -1 <= i ->
  (Z.to_nat (Z.of_nat (List.length arr) - 1 - i)
   + collections_size collectionSelector l index <= n)%nat ->
  exists s_end,
    Produces E
      (mkSelectMany this e (Some item)
         (Some {| ord_array := arr; ord_index := i |}) hasCurrent index)
      (List.map (resultSelector item) (skipn (Z.to_nat (i + 1)) arr)
       ++ flattened l index)
      s_end.
Proof.
  induction n as [|n IH]; intros e l e' item arr i hasCurrent index H Hi Hn;
    pose proof (produces_length H) as Hlen;
    destruct (Z.ltb_spec (i + 1) (Z.of_nat (List.length arr))) as [Hin|Hout];
    try lia.
  - (* nothing left in the collection, nothing in the ones to come *)
    rewrite skipn_all2 by lia. cbn [List.map app].
    destruct (selectMany_loop_skips H (fuel := S (S (rest this e)))
                (Some item) (Some {| ord_array := arr; ord_index := i |})
                index true ltac:(lia) Hout)
      as [(Hflat & Hsize & item' & sub' & index' & Hloop)
         |(e_x & x & y & tl & l_post & index_x & Hloop & Hcs & Hp & Hflat
           & Hsize)]; [|lia].
    rewrite Hflat. eexists. apply Produces_done. exact Hloop.
  - (* the collection has a next element *)
    destruct (nth_error arr (Z.to_nat (i + 1))) as [y|] eqn:Hy;
      [|apply nth_error_None in Hy; lia].
    rewrite (skipn_nth _ _ Hy). cbn [List.map app].
    destruct (IH e l e' item arr (i + 1) true index H ltac:(lia) ltac:(lia))
      as (s_end & Hrec).
    replace (Z.to_nat (i + 1 + 1)) with (S (Z.to_nat (i + 1))) in Hrec by lia.
    exists s_end. eapply Produces_next; [| | |exact Hrec].
    + change (selectMany_moveNext collectionSelector
                (mkSelectMany this e (Some item)
                   (Some {| ord_array := arr; ord_index := i |})
                   hasCurrent index)
              = (mkSelectMany this e (Some item)
                   (Some {| ord_array := arr; ord_index := i + 1 |})
                   true index, Ok true)).
      unfold selectMany_moveNext.
      cbn [selectMany_loop sub_moveNext sm_subItemEnumerator ord_index
             ord_array fst snd sm_itemEnumerator sm_item sm_hasCurrent
             sm_index].
      replace (i + 1 <? Z.of_nat (List.length arr)) with true
        by (symmetry; apply Z.ltb_lt; lia).
      reflexivity.
    + change (selectMany_current resultSelector
                (mkSelectMany this e (Some item)
                   (Some {| ord_array := arr; ord_index := i + 1 |})
                   true index)
              = Ok (resultSelector item y)).
      unfold selectMany_current, array_current, length_.
      cbn [sm_hasCurrent negb sm_item sm_subItemEnumerator ord_array
             ord_index].
      replace (i + 1 <? 0) with false by (symmetry; apply Z.ltb_ge; lia).
      replace (i + 1 >=? Z.of_nat (List.length arr)) with false
        by (symmetry; rewrite Z.geb_leb; apply Z.leb_gt; lia).
      cbn [orb]. rewrite Hy. reflexivity.
    + rewrite !(selectMany_rest_at _ _ _ _ H).
      unfold array_rest, length_. cbn [ord_array ord_index]. lia.
  - (* the collection is exhausted: on to the next one that has elements *)
    rewrite skipn_all2 by lia. cbn [List.map app].
    destruct (selectMany_loop_skips H (fuel := S (S (rest this e)))
                (Some item) (Some {| ord_array := arr; ord_index := i |})
                index true ltac:(lia) Hout)
      as [(Hflat & Hsize & item' & sub' & index' & Hloop)
         |(e_x & x & y & tl & l_post & index_x & Hloop & Hcs & Hp & Hflat
           & Hsize)].
    + rewrite Hflat. eexists. apply Produces_done. exact Hloop.
    + rewrite Hflat.
      destruct (IH e_x l_post e' x (y :: tl) 0 true (index_x + 1) Hp
                  ltac:(lia) ltac:(cbn [List.length]; lia))
        as (s_end & Hrec).
      change (Z.to_nat (0 + 1)) with 1%nat in Hrec. cbn [skipn] in Hrec.
      exists s_end. eapply Produces_next; [exact Hloop | | |exact Hrec].
      * reflexivity.
      * rewrite (selectMany_rest_at _ _ _ _ H),
          (selectMany_rest_at _ _ _ _ Hp).
        unfold array_rest, length_. cbn [ord_array ord_index List.length].
        lia.
Qed.

Lemma selectMany_produces l s_end :
  Produces this (getEnumerator this) l s_end ->
  exists s', Produces E (getEnumerator E) (flattened l 0) s'.
Proof.
  intros H. pose proof (produces_length H) as Hlen.
  destruct (selectMany_loop_skips H
              (fuel := S (S (rest this (getEnumerator this))))
              None None 0 true ltac:(lia) I)
    as [(Hflat & Hsize & item' & sub' & index' & Hloop)
       |(e_x & x & y & tl & l_post & index_x & Hloop & Hcs & Hp & Hflat
         & Hsize)].
  - rewrite Hflat. eexists. apply Produces_done. exact Hloop.
  - rewrite Hflat.
    destruct (@selectMany_produces_next
                (List.length tl
                 + collections_size collectionSelector l_post (index_x + 1))
                e_x l_post s_end x (y :: tl) 0 true (index_x + 1) Hp
                ltac:(lia) ltac:(cbn [List.length]; lia))
      as (s' & Hrec).
    change (Z.to_nat (0 + 1)) with 1%nat in Hrec. cbn [skipn] in Hrec.
    exists s'. eapply Produces_next; [exact Hloop | | |exact Hrec].
    + reflexivity.
    + change (getEnumerator E)
        with (@mkSelectMany T U this (getEnumerator this) None None false 0).
      rewrite (selectMany_rest_at _ _ _ _ H),
        (selectMany_rest_at _ _ _ _ Hp).
      unfold array_rest, length_. cbn [ord_array ord_index List.length].
      lia.
Qed.
End SelectManyContents.

(** X26. [selectMany(collectionSelector, resultSelector)] hands out, for
    each source element in turn, [resultSelector] applied to that element
    and to each element of its collection, in order.  The collection
    selector receives the position of the source element, counted from 0;
    an element whose collection is empty contributes nothing. *)
Theorem selectMany_flattens {T U R : Type} (this : Enumerable T)
    (collectionSelector : T -> Z -> list U) (resultSelector : T -> U -> R)
    (l : list T) (s_end : state this) :
  Produces this (getEnumerator this) l s_end ->
  toArray (selectMany this collectionSelector resultSelector)
  = Ok (List.concat
          (List.map
             (fun p => List.map (resultSelector (fst p))
                         (collectionSelector (fst p) (snd p)))
             (combine l (List.map Z.of_nat (seq 0 (List.length l)))))).
Proof.
  intros H.
  destruct (@selectMany_produces T U R this collectionSelector resultSelector
              l s_end H) as (s' & Hp).
  rewrite (f_equal snd (produces_traverse Hp) : toArray _ = _).
  cbn [snd]. f_equal. clear.
  assert (Hgen : forall (items : list T) (n : nat),
    flattened collectionSelector resultSelector items (Z.of_nat n)
    = List.concat
        (List.map
           (fun p => List.map (resultSelector (fst p))
                       (collectionSelector (fst p) (snd p)))
           (combine items (List.map Z.of_nat (seq n (List.length items)))))).
  { induction items as [|x items IH]; intros n; [reflexivity|].
    cbn [flattened List.length seq List.map combine List.concat fst snd].
    f_equal. rewrite <- IH. f_equal. lia. }
  exact (Hgen l 0%nat).
Qed.

Lemma selectMany_flattens_witness :
  toArray (selectMany (Enumerable_new [10; 20; 30])
             (fun x index => List.repeat (x + index) (Z.to_nat index))
             (fun x y => (x, y)))
  = Ok [(20, 21); (30, 32); (30, 32)].
Proof.
  exact (@selectMany_flattens Z Z (Z * Z) _
           (fun x index => List.repeat (x + index) (Z.to_nat index))
           (fun x y => (x, y)) _ _ (array_produces [10; 20; 30])).
Defined.

(** ** [except] and [intersect] *)

Section WhereCallingFacts.
Context {T : Type}.
Variable this : Enumerable T.
Variable predicate : T -> result bool.
Variable decides : T -> bool.
Hypothesis predicate_returns : forall x, predicate x = Ok (decides x).

Lemma where_call_loop_returns : forall fuel (s : where_state this),
  where_call_loop predicate fuel s = @where_loop T this decides fuel s.
Proof.
  induction fuel as [|fuel IH]; intros s; [reflexivity|].
  cbn [where_call_loop where_loop].
  destruct (moveNext this (w_itemEnumerator s)) as [e [[|]|x]];
    try reflexivity.
  destruct (current this e) as [item|x]; [|reflexivity].
  rewrite predicate_returns. destruct (decides item); [reflexivity|].
  apply IH.
Qed.

Lemma where_call_follows s l s' :
  Produces (where_ this decides) s l s' ->
  Produces (where_call this predicate) s l s'.
Proof.
  induction 1 as [s s' Hm | s s' x l s'' Hm Hc Hr Hp IH].
  - apply Produces_done.
    change (where_call_moveNext predicate s = (s', Ok false)).
    unfold where_call_moveNext. rewrite where_call_loop_returns. exact Hm.
  - eapply Produces_next; [| exact Hc | exact Hr | exact IH].
    change (where_call_moveNext predicate s = (s', Ok true)).
    unfold where_call_moveNext. rewrite where_call_loop_returns. exact Hm.
Qed.

Lemma where_call_toArray l s_end :
  Produces this (getEnumerator this) l s_end ->
  toArray (where_call this predicate) = Ok (List.filter decides l).
Proof.
  intros H.
  destruct (@where_produces T this decides l s_end H) as (s' & Hp).
  exact (f_equal snd (produces_traverse (where_call_follows Hp))).
Qed.
End WhereCallingFacts.

(** X27. [except(second, comparer)] hands out, in source order, the
    elements of the first sequence that match no element of the second,
    the element of the first sequence being the comparer's first argument.
    It is a filter, not a set difference: an element that occurs twice in
    the first sequence is handed out twice. *)
Theorem except_filters_unmatched {T : Type} (host : Host T bool)
    (this second : Enumerable T) (comparer : option (T -> T -> bool))
    (l1 l2 : list T) (e1 : state this) (e2 : state second) :
  Produces this (getEnumerator this) l1 e1 ->
  Produces second (getEnumerator second) l2 e2 ->
  toArray (except host this second comparer)
  = Ok (List.filter
          (fun item =>
             negb (existsb
                     (match comparer with
                      | Some c => c
                      | None => loose_eq host
                      end item) l2)) l1).
Proof.
  intros H1 H2. unfold except. cbv zeta.
  apply (@where_call_toArray T this _ _) with (s_end := e1); [|exact H1].
  intros item. unfold any_where.
  rewrite (@any_is_any_list T second l2 e2 H2).
  clear. induction l2 as [|y l2 IH]; [reflexivity|].
  cbn [any_list existsb].
  destruct (match comparer with Some c => c | None => loose_eq host end
              item y); [reflexivity | exact IH].
Qed.

Lemma except_filters_unmatched_witness :
  toArray (except (number_host bool) (Enumerable_new [1; 2; 1; 3])
             (Enumerable_new [2; 4]) None)
  = Ok [1; 1; 3].
Proof.
  exact (@except_filters_unmatched Z (number_host bool) _ _ None _ _ _ _
           (array_produces [1; 2; 1; 3]) (array_produces [2; 4])).
Defined.

(** X28. [intersect(second, comparer)] hands out the first occurrences,
    under the comparer, of the elements of the first sequence, and of those
    only the ones that some element of the second sequence matches, the
    element of the second sequence being the comparer's first argument. *)
Theorem intersect_keeps_matched_first_occurrences {T : Type}
    (host : Host T bool) (this second : Enumerable T)
    (comparer : option (T -> T -> bool)) (l1 l2 : list T)
    (e1 : state this) (e2 : state second) :
  Produces this (getEnumerator this) l1 e1 ->
  Produces second (getEnumerator second) l2 e2 ->
  let equals := match comparer with Some c => c | None => loose_eq host end in
  toArray (intersect host this second comparer)
  = Ok (List.filter (fun item => existsb (fun other => equals other item) l2)
          (first_occurrences equals [] l1)).
Proof.
  intros H1 H2 equals. unfold intersect. cbv zeta. fold equals.
  destruct (@distinct_produces T host this equals l1 e1 H1) as (s' & Hd).
  apply (@where_call_toArray T (distinct host this (Some equals)) _ _)
    with (s_end := s'); [|exact Hd].
  intros item. unfold contains, any_where.
  rewrite (@any_is_any_list T second l2 e2 H2).
  clear. induction l2 as [|y l2 IH]; [reflexivity|].
  cbn [any_list existsb].
  destruct (equals y item); [reflexivity | exact IH].
Qed.

Lemma intersect_keeps_matched_first_occurrences_witness :
  toArray (intersect (number_host bool) (Enumerable_new [1; 2; 1; 3; 2])
             (Enumerable_new [2; 1; 5]) None)
  = Ok [1; 2].
Proof.
  exact (@intersect_keeps_matched_first_occurrences Z (number_host bool) _ _
           None _ _ _ _ (array_produces [1; 2; 1; 3; 2])
           (array_produces [2; 1; 5])).
Defined.

(** ** The array adapter *)


(** ** Operators in a chain *)

(** X30. In [where(predicate).select(selector)] the index handed to
    [selector] is the position of the element among the elements that
    [where] kept, not its position in the source. *)
Theorem where_then_select_reindexes {T U : Type} (this : Enumerable T)
    (predicate : T -> bool) (selector : T -> Z -> U) (l : list T)
    (s_end : state this) :
  Produces this (getEnumerator this) l s_end ->
  toArray (select (where_ this predicate) selector)
  = Ok (List.map (fun p => selector (fst p) (snd p))
          (combine (List.filter predicate l)
             (List.map Z.of_nat
                (seq 0 (List.length (List.filter predicate l)))))).
Proof.
  intros H.
  destruct (@where_produces T this predicate l s_end H) as (s' & Hw).
  destruct (@select_produces T U (where_ this predicate) selector
              (List.filter predicate l) s' Hw) as (s'' & Hs).
  rewrite (f_equal snd (produces_traverse Hs) : toArray _ = _).
  cbn [snd]. f_equal.
  generalize (List.filter predicate l) as kept. clear.
  assert (Hgen : forall (kept : list T) (n : nat),
    map_indexed selector (Z.of_nat n) kept
    = List.map (fun p => selector (fst p) (snd p))
        (combine kept (List.map Z.of_nat (seq n (List.length kept))))).
  { induction kept as [|x kept IH]; intros n; [reflexivity|].
    cbn [map_indexed List.length seq List.map combine fst snd].
    f_equal. rewrite <- IH. f_equal. lia. }
  intros kept. exact (Hgen kept 0%nat).
Qed.

Lemma where_then_select_reindexes_witness :
  toArray (select (where_ (Enumerable_new [10; 3; 20; 30])
                     (fun x => 5 <? x))
             (fun x index => x + index))
  = Ok [10; 21; 32].
Proof.
  exact (@where_then_select_reindexes Z Z _ (fun x => 5 <? x)
           (fun x index => x + index) _ _
           (array_produces [10; 3; 20; 30])).
Defined.
